(** * Olive node view: a shallow embedding of the node-graph editor widgets

    The development follows three translation units of the editor:
    - [app/widget/nodeview/nodeviewitem.cpp]  (class [NodeViewItem]),
    - the node view scene                      (class [NodeViewScene]),
    - the colour-space chooser                 (class [ColorSpaceChooser]).

    Conventions of the embedding.
    - [qreal] values are rationals ([Q]); equality of coordinates is [Qeq].
      Every product the code forms multiplies an integer-valued metric by
      1.25, 1.5, 2.0 or a small integer, so it is exact in binary floating
      point as well; the quotients of [ScreenToNodePoint] are exact only in
      [Q].
    - [int] values are integers ([Z]); C++ integer division truncates
      ([Z.quot]).
    - Heap objects are addressed by pointers ([ptr]); a finite map from
      pointers to objects is the store, the null pointer is [None].
    - Calls into the toolkit whose effect lies outside the modelled fields
      (repaint requests, default event handlers, edge re-routing) are
      recorded as a trace of [Call]s. *)

From Stdlib Require Import ZArith QArith Qfield Lia List.
From stdpp Require Import base option list gmap strings.

Local Open Scope Z_scope.

(** ** Geometry: [QPointF] and [QRectF] *)

Module Geometry.

Record QPointF : Type := mkPoint { px : Q; py : Q }.

Definition setX (v : Q) (p : QPointF) : QPointF := mkPoint v (py p).
Definition setY (v : Q) (p : QPointF) : QPointF := mkPoint (px p) v.

(** Equality of points as pairs of rational numbers. *)
Definition point_eq (p q : QPointF) : Prop :=
  (px p == px q)%Q /\ (py p == py q)%Q.

Record QRectF : Type := mkRect { rx : Q; ry : Q; rw : Q; rh : Q }.

Definition left (r : QRectF) : Q := rx r.
Definition top (r : QRectF) : Q := ry r.
Definition right (r : QRectF) : Q := (rx r + rw r)%Q.
Definition bottom (r : QRectF) : Q := (ry r + rh r)%Q.
Definition width (r : QRectF) : Q := rw r.
Definition height (r : QRectF) : Q := rh r.
Definition center (r : QRectF) : QPointF :=
  mkPoint (rx r + rw r / 2)%Q (ry r + rh r / 2)%Q.
Definition setHeight (h : Q) (r : QRectF) : QRectF :=
  mkRect (rx r) (ry r) (rw r) h.

End Geometry.
Export Geometry.

(** ** [NodeViewCommon]: flow directions *)

Module NodeViewCommon.

Inductive FlowDirection : Type :=
| kLeftToRight
| kRightToLeft
| kTopToBottom
| kBottomToTop.

Inductive Orientation : Type := Horizontal | Vertical.

Definition Orientation_eqb (a b : Orientation) : bool :=
  match a, b with
  | Horizontal, Horizontal | Vertical, Vertical => true
  | _, _ => false
  end.

End NodeViewCommon.
Export NodeViewCommon.

(** ** The ambient values the item code reads but does not define

    [NodeViewItem] measures everything from the default font, asks
    [NodeViewCommon::GetFlowOrientation] for the orientation of a flow
    direction and reads the bounding rectangle of its connectors.  None of
    these is defined in the translation units embedded here, so they are
    taken as given.  The two font metrics are pixel counts; the few sums and
    quotients the code forms with them are far inside the range of [int]
    and are computed in [Z]. *)

Record Ambient : Type := mkAmbient {
  (** [QFontMetrics(QFont()).height()] *)
  fm_height : Z;
  (** [QtUtils::QFontMetricsWidth(QFontMetrics(QFont()), "HHHHHHHHHHHHHHHH")] *)
  fm_width16 : Z;
  (** [NodeViewCommon::GetFlowOrientation] *)
  GetFlowOrientation : FlowDirection -> Orientation;
  (** [boundingRect()] of a freshly made [NodeViewItemConnector] *)
  connector_boundingRect : QRectF;
  (** the default value the class declaration gives to the second parameter
      of [SetExpanded] *)
  default_hide_titlebar : bool
}.

(** ** [NodeViewItem]: metrics and the node/screen coordinate maps *)

Section ItemMetrics.

Variable amb : Ambient.

Definition DefaultTextPadding : Z := Z.quot (fm_height amb) 4.

Definition DefaultItemHeight : Z := fm_height amb + DefaultTextPadding * 2.

Definition DefaultItemWidth : Z := fm_width16 amb.

Definition DefaultItemBorder : Z := Z.quot (fm_height amb) 12.

Definition DefaultItemHorizontalPadding (dir : FlowDirection) : Q :=
  if Orientation_eqb (GetFlowOrientation amb dir) Horizontal
  then (inject_Z DefaultItemWidth * (3 # 2))%Q
  else (inject_Z DefaultItemWidth * (5 # 4))%Q.

Definition DefaultItemVerticalPadding (dir : FlowDirection) : Q :=
  if Orientation_eqb (GetFlowOrientation amb dir) Horizontal
  then (inject_Z DefaultItemHeight * (3 # 2))%Q
  else (inject_Z DefaultItemHeight * 2)%Q.

Definition NodeToScreenPoint (p : QPointF) (direction : FlowDirection) : QPointF :=
  let p :=
    match direction with
    | kLeftToRight => p
    | kRightToLeft => setX (- px p)%Q p
    | kTopToBottom => mkPoint (py p) (px p)
    | kBottomToTop => mkPoint (py p) (- px p)%Q
    end in
  let p := setX (px p * DefaultItemHorizontalPadding direction)%Q p in
  let p := setY (py p * DefaultItemVerticalPadding direction)%Q p in
  p.

Definition ScreenToNodePoint (p : QPointF) (direction : FlowDirection) : QPointF :=
  let p := setX (px p / DefaultItemHorizontalPadding direction)%Q p in
  let p := setY (py p / DefaultItemVerticalPadding direction)%Q p in
  match direction with
  | kLeftToRight => p
  | kRightToLeft => setX (- px p)%Q p
  | kTopToBottom => mkPoint (py p) (px p)
  | kBottomToTop => mkPoint (- py p)%Q (px p)
  end.

End ItemMetrics.

(** A concrete ambient used by the examples: a 16 pixel font whose sixteen
    capital H are 160 pixels wide. *)
Definition amb16 : Ambient :=
  mkAmbient 16 160
    (fun d => match d with
              | kLeftToRight | kRightToLeft => Horizontal
              | kTopToBottom | kBottomToTop => Vertical
              end)
    (mkRect 0 (-6) 6 12)
    false.

(** ** Pointers

    [Node*], [QGraphicsItem*] and [NodeViewEdge*] values are addresses. *)

Abbreviation ptr := positive.
Abbreviation Node := positive.

(** ** [NodeViewScene::DetermineWeight]

    The weight of a node is computed by recursion over the node graph.  The
    two [Node] methods it calls are not defined in these translation units
    and are taken as given.  The C++ recursion has no bound of its own: the
    model recurses on [fuel] and answers [None] when it runs out, which is
    what an endless recursion of the code corresponds to.  The weight is an
    [int]; an addition that leaves the range of [int] has no defined result
    and is [None] as well. *)

Definition INT_MIN : Z := -2147483648.
Definition INT_MAX : Z := 2147483647.

Definition int_add (a b : Z) : option Z :=
  if (INT_MIN <=? a + b) && (a + b <=? INT_MAX) then Some (a + b) else None.

Section Weight.

(** [n->GetImmediateDependencies()] *)
Variable GetImmediateDependencies : Node -> list Node.
(** [i->GetNumberOfRoutesTo(n)] *)
Variable GetNumberOfRoutesTo : Node -> Node -> Z.

Fixpoint DetermineWeight (fuel : nat) (n : Node) : option Z :=
  match fuel with
  | O => None
  | S fuel =>
      weight ← fold_left
                 (fun (weight : option Z) (i : Node) =>
                    w ← weight;
                    if GetNumberOfRoutesTo i n =? 1
                    then wi ← DetermineWeight fuel i; int_add w wi
                    else Some w)
                 (GetImmediateDependencies n) (Some 0);
      Some (Z.max 1 weight)
  end.

End Weight.

(** ** Reference definitions

    Mathematical descriptions of node positioning and of the layout weight
    that mention neither the toolkit nor the control flow of the code:

    - positions: a flow direction is a signed permutation matrix; a node
      point is mapped to the screen by that matrix followed by the diagonal
      scaling with the two paddings, and back by the inverse scaling followed
      by the transposed matrix;
    - weight: the number of maximal chains of single-route dependencies that
      end in the node. *)

Module Ref.

Record Mat2 : Type := mkMat { m11 : Q; m12 : Q; m21 : Q; m22 : Q }.

Definition apply (m : Mat2) (p : QPointF) : QPointF :=
  mkPoint (m11 m * px p + m12 m * py p)%Q (m21 m * px p + m22 m * py p)%Q.

Definition transpose (m : Mat2) : Mat2 :=
  mkMat (m11 m) (m21 m) (m12 m) (m22 m).

Definition scale (sx sy : Q) : Mat2 := mkMat sx 0 0 sy.

Definition direction_matrix (d : FlowDirection) : Mat2 :=
  match d with
  | kLeftToRight => mkMat 1 0 0 1
  | kRightToLeft => mkMat (-1) 0 0 1
  | kTopToBottom => mkMat 0 1 1 0
  | kBottomToTop => mkMat 0 1 (-1) 0
  end.

Definition node_to_screen (hpad vpad : Q) (d : FlowDirection) (p : QPointF) : QPointF :=
  apply (scale hpad vpad) (apply (direction_matrix d) p).

Definition screen_to_node (hpad vpad : Q) (d : FlowDirection) (p : QPointF) : QPointF :=
  apply (transpose (direction_matrix d)) (apply (scale (/ hpad) (/ vpad)) p).

Section Chains.

Variable deps : Node -> list Node.
Variable routes : Node -> Node -> Z.

Definition single_route (n i : Node) : bool := routes i n =? 1.

(** All maximal chains [n; i1; i2; ...] in which every element is a
    single-route immediate dependency of the one before it. *)
Fixpoint chains (fuel : nat) (n : Node) : option (list (list Node)) :=
  match fuel with
  | O => None
  | S fuel =>
      css ← mapM (chains fuel) (filter (fun i => single_route n i = true) (deps n));
      Some (match concat css with
            | [] => [[n]]
            | cs => map (cons n) cs
            end)
  end.

Definition weight (fuel : nat) (n : Node) : option Z :=
  (fun cs => Z.of_nat (length cs)) <$> chains fuel n.


End Chains.

End Ref.

(** A small node graph used by the examples: node 1 depends on 2 and 3,
    node 2 on 4 and 5, and 5 reaches 2 along two routes. *)
Module ExampleGraph.

Definition deps (n : Node) : list Node :=
  if (n =? 1)%positive then [2; 3]%positive
  else if (n =? 2)%positive then [4; 5]%positive
  else [].

Definition routes (i n : Node) : Z :=
  if (i =? 5)%positive then 2 else 1.


End ExampleGraph.

(** ** [QGraphicsItem]: the toolkit-owned state of a scene item

    Only what the embedded code reads or writes is kept.  The setters follow
    the toolkit's documented behaviour: only a visible, enabled and
    selectable item can be selected, and hiding an item deselects it. *)

Record QGraphicsItem : Type := mkGraphicsItem {
  ItemIsMovable : bool;
  ItemIsSelectable : bool;
  ItemSendsGeometryChanges : bool;
  isVisible : bool;
  isEnabled : bool;
  isSelected : bool;
  (** [scene()] is the node view scene *)
  in_scene : bool;
  pos : QPointF
}.

(** A graphics item as its constructor leaves it. *)
Definition QGraphicsItem_new (in_scene : bool) : QGraphicsItem :=
  mkGraphicsItem false false false true true false in_scene (mkPoint 0 0).

Definition can_be_selected (g : QGraphicsItem) : bool :=
  ItemIsSelectable g && isEnabled g && isVisible g.

Definition setSelected (b : bool) (g : QGraphicsItem) : QGraphicsItem :=
  mkGraphicsItem (ItemIsMovable g) (ItemIsSelectable g) (ItemSendsGeometryChanges g)
                 (isVisible g) (isEnabled g) (b && can_be_selected g)
                 (in_scene g) (pos g).

Definition setVisible (b : bool) (g : QGraphicsItem) : QGraphicsItem :=
  mkGraphicsItem (ItemIsMovable g) (ItemIsSelectable g) (ItemSendsGeometryChanges g)
                 b (isEnabled g) (isSelected g && b)
                 (in_scene g) (pos g).

Definition setPos (p : QPointF) (g : QGraphicsItem) : QGraphicsItem :=
  mkGraphicsItem (ItemIsMovable g) (ItemIsSelectable g) (ItemSendsGeometryChanges g)
                 (isVisible g) (isEnabled g) (isSelected g)
                 (in_scene g) p.

(** ** Mouse events and keyboard modifiers *)

Module Qt.
(** [Qt::ShiftModifier = 0x02000000], [Qt::ControlModifier = 0x04000000] *)
Definition ShiftModifier : Z := 33554432.
Definition ControlModifier : Z := 67108864.
Definition AltModifier : Z := 134217728.
End Qt.

Record QGraphicsSceneMouseEvent : Type := mkMouseEvent {
  modifiers : Z;
  scenePos : QPointF
}.

Definition setModifiers (m : Z) (ev : QGraphicsSceneMouseEvent) : QGraphicsSceneMouseEvent :=
  mkMouseEvent m (scenePos ev).

(** Modelled from the spec: [FlipControlAndShiftModifiers] is declared in
    [common/flipmodifiers.h], which is not among the embedded translation
    units.  It is described as swapping the Control and Shift modifiers of a
    set of keyboard modifiers: the result has Control exactly when the
    argument has Shift, Shift exactly when the argument has Control, and
    every other modifier as in the argument. *)
Definition FlipControlAndShiftModifiers (e : Z) : Z :=
  let others := Z.ldiff e (Z.lor Qt.ShiftModifier Qt.ControlModifier) in
  let ctrl := if Z.land e Qt.ShiftModifier =? 0 then 0 else Qt.ControlModifier in
  let shift := if Z.land e Qt.ControlModifier =? 0 then 0 else Qt.ShiftModifier in
  Z.lor others (Z.lor ctrl shift).

(** ** Calls that leave the modelled state *)

Inductive Call : Type :=
| update                                   (* [QGraphicsItem::update()] *)
| Adjust (edge : ptr)                      (* [edge->Adjust()] *)
| UpdateRect (ctx : ptr)                   (* [ctx->UpdateRect()] *)
| QGraphicsRectItem_mousePressEvent (ev : QGraphicsSceneMouseEvent)
| QGraphicsRectItem_mouseMoveEvent (ev : QGraphicsSceneMouseEvent)
| QGraphicsRectItem_mouseReleaseEvent (ev : QGraphicsSceneMouseEvent)
| Retranslate (n : Node).                  (* [node_->Retranslate()] *)

(** ** [NodeViewItem] *)

Record NodeViewItemConnector : Type := mkConnector {
  connector_item : QGraphicsItem;
  boundingRect : QRectF
}.

Definition connector_setVisible (b : bool) (c : NodeViewItemConnector) : NodeViewItemConnector :=
  mkConnector (setVisible b (connector_item c)) (boundingRect c).

Definition connector_setPos (x y : Q) (c : NodeViewItemConnector) : NodeViewItemConnector :=
  mkConnector (setPos (mkPoint x y) (connector_item c)) (boundingRect c).

Record NodeViewItem : Type := mkNodeViewItem {
  (** the [QGraphicsRectItem] base: item state and [rect()] *)
  item : QGraphicsItem;
  rect : QRectF;
  (** [dynamic_cast<NodeViewContext*>(parentItem())], null when the parent
      is no context *)
  parent_context : option ptr;
  (** members *)
  node_ : option Node;
  expanded_ : bool;
  hide_titlebar_ : bool;
  highlighted_index_ : Z;
  flow_dir_ : FlowDirection;
  prevent_removing_ : bool;
  label_as_output_ : bool;
  node_border_width_ : Z;
  title_bar_rect_ : QRectF;
  input_connector_ : NodeViewItemConnector;
  output_connector_ : NodeViewItemConnector;
  node_inputs_ : list string;
  edges_ : list ptr;
  cached_node_pos_ : QPointF
}.

Definition IsExpanded (it : NodeViewItem) : bool := expanded_ it.

(** Field updates, one per member the code assigns. *)
Definition with_item (g : QGraphicsItem) (it : NodeViewItem) : NodeViewItem :=
  mkNodeViewItem g (rect it) (parent_context it) (node_ it) (expanded_ it)
    (hide_titlebar_ it) (highlighted_index_ it) (flow_dir_ it) (prevent_removing_ it)
    (label_as_output_ it) (node_border_width_ it) (title_bar_rect_ it)
    (input_connector_ it) (output_connector_ it) (node_inputs_ it) (edges_ it)
    (cached_node_pos_ it).

Definition setRect (r : QRectF) (it : NodeViewItem) : NodeViewItem :=
  mkNodeViewItem (item it) r (parent_context it) (node_ it) (expanded_ it)
    (hide_titlebar_ it) (highlighted_index_ it) (flow_dir_ it) (prevent_removing_ it)
    (label_as_output_ it) (node_border_width_ it) (title_bar_rect_ it)
    (input_connector_ it) (output_connector_ it) (node_inputs_ it) (edges_ it)
    (cached_node_pos_ it).

Definition with_node (n : option Node) (inputs : list string) (it : NodeViewItem) : NodeViewItem :=
  mkNodeViewItem (item it) (rect it) (parent_context it) n (expanded_ it)
    (hide_titlebar_ it) (highlighted_index_ it) (flow_dir_ it) (prevent_removing_ it)
    (label_as_output_ it) (node_border_width_ it) (title_bar_rect_ it)
    (input_connector_ it) (output_connector_ it) inputs (edges_ it)
    (cached_node_pos_ it).

Definition with_expanded (e hide_titlebar : bool) (it : NodeViewItem) : NodeViewItem :=
  mkNodeViewItem (item it) (rect it) (parent_context it) (node_ it) e
    hide_titlebar (highlighted_index_ it) (flow_dir_ it) (prevent_removing_ it)
    (label_as_output_ it) (node_border_width_ it) (title_bar_rect_ it)
    (input_connector_ it) (output_connector_ it) (node_inputs_ it) (edges_ it)
    (cached_node_pos_ it).

Definition with_connectors (i o : NodeViewItemConnector) (it : NodeViewItem) : NodeViewItem :=
  mkNodeViewItem (item it) (rect it) (parent_context it) (node_ it) (expanded_ it)
    (hide_titlebar_ it) (highlighted_index_ it) (flow_dir_ it) (prevent_removing_ it)
    (label_as_output_ it) (node_border_width_ it) (title_bar_rect_ it)
    i o (node_inputs_ it) (edges_ it)
    (cached_node_pos_ it).

Definition with_edges (es : list ptr) (it : NodeViewItem) : NodeViewItem :=
  mkNodeViewItem (item it) (rect it) (parent_context it) (node_ it) (expanded_ it)
    (hide_titlebar_ it) (highlighted_index_ it) (flow_dir_ it) (prevent_removing_ it)
    (label_as_output_ it) (node_border_width_ it) (title_bar_rect_ it)
    (input_connector_ it) (output_connector_ it) (node_inputs_ it) es
    (cached_node_pos_ it).

Section NodeViewItemCode.

Variable amb : Ambient.

(** [node->inputs()] and [node->IsInputConnectable(input)] of the node
    graph, which these translation units only call. *)
Variable inputs : Node -> list string.
Variable IsInputConnectable : Node -> string -> bool.

(** [new NodeViewItemConnector(this)]: a child item of [parent]. *)
Definition NodeViewItemConnector_new (parent : QGraphicsItem) : NodeViewItemConnector :=
  mkConnector (QGraphicsItem_new (in_scene parent)) (connector_boundingRect amb).

(** The constructor.  [in_scene] and [parent_context] say where the parent
    item handed to the constructor lives. *)
Definition NodeViewItem_new (in_scene : bool) (parent_context : option ptr) : NodeViewItem :=
  let g := QGraphicsItem_new in_scene in
  (* setFlag(ItemIsMovable); setFlag(ItemIsSelectable); setFlag(ItemSendsGeometryChanges) *)
  let g := mkGraphicsItem true true true (isVisible g) (isEnabled g) (isSelected g)
                          in_scene (pos g) in
  let widget_width := DefaultItemWidth amb in
  let widget_height := DefaultItemHeight amb in
  let title_bar_rect :=
    mkRect (inject_Z (Z.quot (- widget_width) 2)) (inject_Z (Z.quot (- widget_height) 2))
           (inject_Z widget_width) (inject_Z widget_height) in
  mkNodeViewItem g title_bar_rect parent_context
    None false false (-1) kLeftToRight false false
    (DefaultItemBorder amb) title_bar_rect
    (NodeViewItemConnector_new g) (NodeViewItemConnector_new g)
    [] [] (mkPoint 0 0).

(** [NodeViewItem::AddEdge] and [NodeViewItem::RemoveEdge]; the scene's
    functions of the same names are [Scene_AddEdge] and [Scene_RemoveEdge]
    below. *)
Definition AddEdge (edge : ptr) (it : NodeViewItem) : NodeViewItem :=
  with_edges (edges_ it ++ [edge]) it.

(** [QList::removeOne]: drop the first occurrence, if any. *)
Fixpoint removeOne (e : ptr) (l : list ptr) : list ptr :=
  match l with
  | [] => []
  | x :: l => if (x =? e)%positive then l else x :: removeOne e l
  end.

Definition RemoveEdge (edge : ptr) (it : NodeViewItem) : NodeViewItem :=
  with_edges (removeOne edge (edges_ it)) it.

(** [SetNode].  The signal connections it makes and breaks carry no state
    of the item and are left out. *)
Definition SetNode (n : option Node) (it : NodeViewItem) : NodeViewItem * list Call :=
  let it := with_node n [] it in
  match n with
  | Some node =>
      let node_inputs := filter (fun i => IsInputConnectable node i = true) (inputs node) in
      let it := with_node n node_inputs it in
      let it := with_connectors
                  (connector_setVisible (negb (bool_decide (node_inputs = []))) (input_connector_ it))
                  (output_connector_ it) it in
      (it, [Retranslate node; update])
  | None => (it, [update])
  end.

Definition UpdateConnectorPositions (it : NodeViewItem) : NodeViewItem :=
  let output_rect := boundingRect (output_connector_ it) in
  let r := rect it in
  match flow_dir_ it with
  | kLeftToRight =>
      with_connectors
        (connector_setPos (left r - width output_rect)%Q (py (center r)) (input_connector_ it))
        (connector_setPos (right r) (py (center r)) (output_connector_ it)) it
  | kRightToLeft =>
      with_connectors
        (connector_setPos (right r + width output_rect)%Q (py (center r)) (input_connector_ it))
        (connector_setPos (left r) (py (center r)) (output_connector_ it)) it
  | kTopToBottom =>
      with_connectors
        (connector_setPos (px (center r)) (top r - height output_rect)%Q (input_connector_ it))
        (connector_setPos (px (center r)) (bottom r) (output_connector_ it)) it
  | kBottomToTop =>
      with_connectors
        (connector_setPos (px (center r)) (bottom r + height output_rect)%Q (input_connector_ it))
        (connector_setPos (px (center r)) (top r) (output_connector_ it)) it
  end.

Definition ReadjustAllEdges (it : NodeViewItem) : list Call :=
  map Adjust (edges_ it).

Definition UpdateContextRect (it : NodeViewItem) : list Call :=
  match parent_context it with
  | Some ctx => [UpdateRect ctx]
  | None => []
  end.

Definition SetExpanded (e hide_titlebar : bool) (it : NodeViewItem) : NodeViewItem * list Call :=
  if bool_decide (node_inputs_ it = [])
     || (Bool.eqb (expanded_ it) e && Bool.eqb (hide_titlebar_ it) hide_titlebar)
  then (it, [])
  else
    let it := with_expanded e hide_titlebar it in
    let it := with_connectors (connector_setVisible (negb (expanded_ it)) (input_connector_ it))
                              (output_connector_ it) it in
    let it :=
      if expanded_ it && negb (bool_decide (node_inputs_ it = []))
      then
        let new_rect := title_bar_rect_ it in
        let new_rect :=
          if hide_titlebar_ it
          then setHeight (height new_rect * inject_Z (Z.of_nat (length (node_inputs_ it))))%Q new_rect
          else setHeight (height new_rect * inject_Z (Z.of_nat (length (node_inputs_ it)) + 1))%Q new_rect in
        setRect new_rect it
      else setRect (title_bar_rect_ it) it in
    let it' := UpdateConnectorPositions it in
    (it', [update] ++ ReadjustAllEdges it' ++ UpdateContextRect it').

Definition ToggleExpanded (it : NodeViewItem) : NodeViewItem * list Call :=
  SetExpanded (negb (IsExpanded it)) (default_hide_titlebar amb) it.

(** The three handlers that forward to the base class hand over the event
    object they have just modified; the event is returned because the
    caller's object is the one that was written to. *)
Definition mousePressEvent (event : QGraphicsSceneMouseEvent) (it : NodeViewItem)
  : QGraphicsSceneMouseEvent * NodeViewItem * list Call :=
  let event := setModifiers (FlipControlAndShiftModifiers (modifiers event)) event in
  (event, it, [QGraphicsRectItem_mousePressEvent event]).

Definition mouseMoveEvent (event : QGraphicsSceneMouseEvent) (it : NodeViewItem)
  : QGraphicsSceneMouseEvent * NodeViewItem * list Call :=
  let event := setModifiers (FlipControlAndShiftModifiers (modifiers event)) event in
  (event, it, [QGraphicsRectItem_mouseMoveEvent event]).

Definition mouseReleaseEvent (event : QGraphicsSceneMouseEvent) (it : NodeViewItem)
  : QGraphicsSceneMouseEvent * NodeViewItem * list Call :=
  let event := setModifiers (FlipControlAndShiftModifiers (modifiers event)) event in
  (event, it, [QGraphicsRectItem_mouseReleaseEvent event]).

(** [mouseDoubleClickEvent] first runs the base class handler
    [QGraphicsRectItem::mouseDoubleClickEvent] on the event object and the
    item, then reads the modifiers of that same event object.  The base
    handler is toolkit code and is passed in. *)
Definition handler : Type :=
  QGraphicsSceneMouseEvent -> NodeViewItem ->
  QGraphicsSceneMouseEvent * NodeViewItem * list Call.

Definition mouseDoubleClickEvent (QGraphicsRectItem_mouseDoubleClickEvent : handler)
    (event : QGraphicsSceneMouseEvent) (it : NodeViewItem)
  : QGraphicsSceneMouseEvent * NodeViewItem * list Call :=
  let '(event, it, calls) := QGraphicsRectItem_mouseDoubleClickEvent event it in
  if Z.land (modifiers event) Qt.ControlModifier =? 0
  then
    let '(it, calls') := SetExpanded (negb (IsExpanded it)) (default_hide_titlebar amb) it in
    (event, it, calls ++ calls')
  else (event, it, calls).

(** The toolkit documents its handler as "the default implementation calls
    mousePressEvent()".  [mousePressEvent] is virtual, so for a
    [NodeViewItem] the call lands in the override above. *)
Definition default_mouseDoubleClickEvent : handler := mousePressEvent.

End NodeViewItemCode.

(** Example items: a fresh item given node 1 with two connectable inputs (and
    one that is not connectable), and a fresh item given node 2 without
    inputs. *)
Module ExampleItems.

Definition inputs (n : Node) : list string :=
  if (n =? 1)%positive then ["tex_in"; "opacity_in"; "enabled_in"]%string else [].

Definition IsInputConnectable (n : Node) (i : string) : bool :=
  negb (String.eqb i "enabled_in").

Definition fresh : NodeViewItem := NodeViewItem_new amb16 true None.

Definition with_inputs : NodeViewItem :=
  fst (SetNode inputs IsInputConnectable (Some 1%positive) fresh).

Definition without_inputs : NodeViewItem :=
  fst (SetNode inputs IsInputConnectable (Some 2%positive) fresh).

Definition plain_click : QGraphicsSceneMouseEvent := mkMouseEvent 0 (mkPoint 0 0).
Definition ctrl_click : QGraphicsSceneMouseEvent := mkMouseEvent Qt.ControlModifier (mkPoint 0 0).
Definition shift_click : QGraphicsSceneMouseEvent := mkMouseEvent Qt.ShiftModifier (mkPoint 0 0).

End ExampleItems.

(** The rectangle an item should have according to its flags; the
    constructor establishes [rect_agrees] and [SetExpanded] keeps it. *)
Definition expected_rect (it : NodeViewItem) : QRectF :=
  if expanded_ it && negb (bool_decide (node_inputs_ it = []))
  then setHeight (height (title_bar_rect_ it) *
                  inject_Z (if hide_titlebar_ it
                            then Z.of_nat (length (node_inputs_ it))
                            else Z.of_nat (length (node_inputs_ it)) + 1))%Q
                 (title_bar_rect_ it)
  else title_bar_rect_ it.

Definition rect_agrees (it : NodeViewItem) : Prop := rect it = expected_rect it.

(** ** [NodeViewScene]

    The scene owns graphics items on the heap: node items, edges and
    contexts.  A computation that dereferences a null or dangling pointer has
    no defined result: it is [None] in the [option] monad, and nullable
    pointers are [option ptr]. *)

(** [NodeInput] is declared outside these translation units; it names an
    input of a node, and is compared with [==] field by field. *)
Record NodeInput : Type := mkNodeInput {
  input_node : Node;       (* [input.node()] *)
  input_name : string;
  input_element : Z
}.

Global Instance NodeInput_eq_dec : EqDecision NodeInput.
Proof. solve_decision. Defined.

Record NodeViewEdge : Type := mkNodeViewEdge {
  edge_item : QGraphicsItem;
  output : Node;
  input : NodeInput;
  from_item : option ptr;
  to_item : option ptr;
  edge_flow_dir : FlowDirection;
  edge_curved : bool
}.

Definition edge_with_item (g : QGraphicsItem) (e : NodeViewEdge) : NodeViewEdge :=
  mkNodeViewEdge g (output e) (input e) (from_item e) (to_item e)
                 (edge_flow_dir e) (edge_curved e).

Inductive SceneObject : Type :=
| ONode (it : NodeViewItem)
| OEdge (e : NodeViewEdge)
| OContext (g : QGraphicsItem).

Record NodeViewScene : Type := mkScene {
  (** the heap of graphics items *)
  objects : gmap ptr SceneObject;
  (** members *)
  item_map_ : gmap Node ptr;         (* QHash<Node*, NodeViewItem*> *)
  scene_edges_ : list ptr;           (* QVector<NodeViewEdge*> edges_ *)
  direction_ : FlowDirection;
  curved_edges_ : bool
}.

Definition with_objects (o : gmap ptr SceneObject) (s : NodeViewScene) : NodeViewScene :=
  mkScene o (item_map_ s) (scene_edges_ s) (direction_ s) (curved_edges_ s).

Definition with_scene_edges (es : list ptr) (s : NodeViewScene) : NodeViewScene :=
  mkScene (objects s) (item_map_ s) es (direction_ s) (curved_edges_ s).

(** A [QGraphicsItem*] as the scene hands it out: an object of the heap, or
    one of the two connector children a node item owns. *)
Inductive ItemRef : Type :=
| RObject (p : ptr)
| RInputConnector (p : ptr)
| ROutputConnector (p : ptr).

Global Instance ItemRef_eq_dec : EqDecision ItemRef.
Proof. solve_decision. Defined.

Definition object_item (o : SceneObject) : QGraphicsItem :=
  match o with
  | ONode it => item it
  | OEdge e => edge_item e
  | OContext g => g
  end.

Definition object_with_item (g : QGraphicsItem) (o : SceneObject) : SceneObject :=
  match o with
  | ONode it => ONode (with_item g it)
  | OEdge e => OEdge (edge_with_item g e)
  | OContext _ => OContext g
  end.

Definition get_item (objs : gmap ptr SceneObject) (r : ItemRef) : option QGraphicsItem :=
  match r with
  | RObject p => object_item <$> objs !! p
  | RInputConnector p =>
      match objs !! p with
      | Some (ONode it) => Some (connector_item (input_connector_ it))
      | _ => None
      end
  | ROutputConnector p =>
      match objs !! p with
      | Some (ONode it) => Some (connector_item (output_connector_ it))
      | _ => None
      end
  end.

(** Apply a [QGraphicsItem] member function through a pointer. *)
Definition update_item (f : QGraphicsItem -> QGraphicsItem) (r : ItemRef)
    (objs : gmap ptr SceneObject) : gmap ptr SceneObject :=
  match r with
  | RObject p =>
      match objs !! p with
      | Some o => <[p := object_with_item (f (object_item o)) o]> objs
      | None => objs
      end
  | RInputConnector p =>
      match objs !! p with
      | Some (ONode it) =>
          <[p := ONode (with_connectors
                          (mkConnector (f (connector_item (input_connector_ it)))
                                       (boundingRect (input_connector_ it)))
                          (output_connector_ it) it)]> objs
      | _ => objs
      end
  | ROutputConnector p =>
      match objs !! p with
      | Some (ONode it) =>
          <[p := ONode (with_connectors
                          (input_connector_ it)
                          (mkConnector (f (connector_item (output_connector_ it)))
                                       (boundingRect (output_connector_ it))) it)]> objs
      | _ => objs
      end
  end.

(** The item pointers an object of the heap stands for. *)
Definition object_refs (p : ptr) (o : SceneObject) : list ItemRef :=
  match o with
  | ONode _ => [RObject p; RInputConnector p; ROutputConnector p]
  | _ => [RObject p]
  end.

Definition is_in_scene (objs : gmap ptr SceneObject) (r : ItemRef) : bool :=
  match get_item objs r with
  | Some g => in_scene g
  | None => false
  end.

Definition is_selected (objs : gmap ptr SceneObject) (r : ItemRef) : bool :=
  match get_item objs r with
  | Some g => isSelected g
  | None => false
  end.

(** [QGraphicsScene::items()] and [QGraphicsScene::selectedItems()] *)
Definition items (s : NodeViewScene) : list ItemRef :=
  filter (fun r => is_in_scene (objects s) r = true)
         (flat_map (fun po => object_refs (fst po) (snd po)) (map_to_list (objects s))).

Definition selectedItems (s : NodeViewScene) : list ItemRef :=
  filter (fun r => is_selected (objects s) r = true) (items s).

Section NodeViewSceneCode.

(** the [QGraphicsItem] state in which the constructor of [NodeViewEdge],
    which is not part of these translation units, leaves a new edge *)
Variable NodeViewEdge_item_new : QGraphicsItem.

Definition SelectAll (s : NodeViewScene) : NodeViewScene :=
  let all_items := items s in
  with_objects
    (fold_left (fun objs i => update_item (setSelected true) i objs) all_items (objects s)) s.

Definition DeselectAll (s : NodeViewScene) : NodeViewScene :=
  let selected_items := selectedItems s in
  with_objects
    (fold_left (fun objs i => update_item (setSelected false) i objs) selected_items (objects s)) s.

Definition NodeToUIObject (s : NodeViewScene) (n : Node) : option ptr :=
  item_map_ s !! n.

Definition node_at (objs : gmap ptr SceneObject) (p : ptr) : option NodeViewItem :=
  match objs !! p with
  | Some (ONode it) => Some it
  | _ => None
  end.

Definition edge_at (objs : gmap ptr SceneObject) (p : ptr) : option NodeViewEdge :=
  match objs !! p with
  | Some (OEdge e) => Some e
  | _ => None
  end.

(** The loop of [EdgeToUIObject] over a list of edge pointers: the first
    edge with the given endpoints, or null. *)
Fixpoint find_edge (objs : gmap ptr SceneObject) (out : Node) (inp : NodeInput)
    (edges : list ptr) : option (option ptr) :=
  match edges with
  | [] => Some None
  | edge :: edges =>
      e ← edge_at objs edge;
      if bool_decide (output e = out) && bool_decide (input e = inp)
      then Some (Some edge)
      else find_edge objs out inp edges
  end.

Definition EdgeToUIObject (s : NodeViewScene) (out : Node) (inp : NodeInput)
  : option (option ptr) :=
  find_edge (objects s) out inp (scene_edges_ s).

Definition GetSelectedNodes (s : NodeViewScene) : option (list Node) :=
  fold_left
    (fun (selected : option (list Node)) (kv : Node * ptr) =>
       sel ← selected;
       it ← node_at (objects s) (snd kv);
       Some (if isSelected (item it) then sel ++ [fst kv] else sel))
    (map_to_list (item_map_ s)) (Some []).

Definition GetSelectedItems (s : NodeViewScene) : option (list ptr) :=
  fold_left
    (fun (selected : option (list ptr)) (kv : Node * ptr) =>
       sel ← selected;
       it ← node_at (objects s) (snd kv);
       Some (if isSelected (item it) then sel ++ [snd kv] else sel))
    (map_to_list (item_map_ s)) (Some []).

Definition GetSelectedEdges (s : NodeViewScene) : option (list ptr) :=
  fold_left
    (fun (edges : option (list ptr)) (e : ptr) =>
       sel ← edges;
       edge ← edge_at (objects s) e;
       Some (if isSelected (edge_item edge) then sel ++ [e] else sel))
    (scene_edges_ s) (Some []).

(** [QGraphicsScene::addItem] *)
Definition addItem (g : QGraphicsItem) : QGraphicsItem :=
  mkGraphicsItem (ItemIsMovable g) (ItemIsSelectable g) (ItemSendsGeometryChanges g)
                 (isVisible g) (isEnabled g) (isSelected g) true (pos g).

Definition AddEdgeInternal (s : NodeViewScene) (out : Node) (inp : NodeInput)
    (from to : option ptr) : option (ptr * NodeViewScene) :=
  (* new NodeViewEdge(output, input, from, to) *)
  let edge_ui : ptr := fresh (dom (objects s)) in
  let e := mkNodeViewEdge NodeViewEdge_item_new out inp from to kLeftToRight true in
  (* edge_ui->SetFlowDirection(direction_); edge_ui->SetCurved(curved_edges_) *)
  let e := mkNodeViewEdge (edge_item e) (output e) (input e) (from_item e) (to_item e)
                          (direction_ s) (curved_edges_ s) in
  let objs := <[edge_ui := OEdge e]> (objects s) in
  (* from->AddEdge(edge_ui) *)
  from_p ← from;
  from_it ← node_at objs from_p;
  let objs := <[from_p := ONode (AddEdge edge_ui from_it)]> objs in
  (* to->AddEdge(edge_ui) *)
  to_p ← to;
  to_it ← node_at objs to_p;
  let objs := <[to_p := ONode (AddEdge edge_ui to_it)]> objs in
  (* addItem(edge_ui) *)
  let objs := <[edge_ui := OEdge (edge_with_item (addItem (edge_item e)) e)]> objs in
  (* edges_.append(edge_ui) *)
  Some (edge_ui, with_scene_edges (scene_edges_ s ++ [edge_ui]) (with_objects objs s)).

Definition Scene_AddEdge (s : NodeViewScene) (out : Node) (inp : NodeInput)
  : option (ptr * NodeViewScene) :=
  edge ← EdgeToUIObject s out inp;
  match edge with
  | Some edge => Some (edge, s)
  | None =>
      AddEdgeInternal s out inp (NodeToUIObject s out) (NodeToUIObject s (input_node inp))
  end.

Definition Scene_RemoveEdge (s : NodeViewScene) (out : Node) (inp : NodeInput)
  : option NodeViewScene :=
  edge ← EdgeToUIObject s out inp;
  match edge with
  | Some edge =>
      let objs := objects s in
      (* edge->from_item()->RemoveEdge(edge) *)
      e ← edge_at objs edge;
      from_p ← from_item e;
      from_it ← node_at objs from_p;
      let objs := <[from_p := ONode (RemoveEdge edge from_it)]> objs in
      (* edge->to_item()->RemoveEdge(edge) *)
      e ← edge_at objs edge;
      to_p ← to_item e;
      to_it ← node_at objs to_p;
      let objs := <[to_p := ONode (RemoveEdge edge to_it)]> objs in
      (* edges_.removeOne(edge); delete edge *)
      Some (with_scene_edges (removeOne edge (scene_edges_ s))
                             (with_objects (delete edge objs) s))
  | None => Some s
  end.

End NodeViewSceneCode.

(** The constructor of the scene. *)
Definition NodeViewScene_new : NodeViewScene :=
  mkScene ∅ ∅ [] kLeftToRight true.

(** The node items and edges the scene has registered are live objects of
    their class and lie in the scene. *)
Definition registered (s : NodeViewScene) : Prop :=
  (forall n p, item_map_ s !! n = Some p ->
     exists it, node_at (objects s) p = Some it /\ in_scene (item it) = true) /\
  (forall e, e ∈ scene_edges_ s ->
     exists E, edge_at (objects s) e = Some E /\ in_scene (edge_item E) = true).

(** An example scene: the two example items at addresses 10 and 11,
    registered for nodes 1 and 2, and no edge yet. *)
Module ExampleScene.

Definition input_1_tex : NodeInput := mkNodeInput 1%positive "tex_in" (-1).

Definition scene : NodeViewScene :=
  mkScene
    (<[10%positive := ONode ExampleItems.with_inputs]>
       (<[11%positive := ONode ExampleItems.without_inputs]> ∅))
    (<[1%positive := 10%positive]> (<[2%positive := 11%positive]> ∅))
    [] kLeftToRight true.

(** an edge leaves its constructor selectable and outside any scene *)
Definition edge_item_new : QGraphicsItem :=
  mkGraphicsItem false true false true true false false (mkPoint 0 0).

End ExampleScene.

(** ** The edge registration invariant of the scene *)

(** How often an edge pointer occurs in an edge list. *)
Definition edge_count (e : ptr) (l : list ptr) : nat := count_occ Pos.eq_dec l e.

(** How many of the two endpoints of an edge the item at [p] is. *)
Definition endpoint_count (E : NodeViewEdge) (p : ptr) : nat :=
  ((if decide (from_item E = Some p) then 1 else 0) +
   (if decide (to_item E = Some p) then 1 else 0))%nat.

Record scene_ok (s : NodeViewScene) : Prop := mk_scene_ok {
  (** the scene's edge list has no pointer twice *)
  ok_nodup : NoDup (scene_edges_ s);
  (** every listed edge is a live edge in the scene between two live node
      items *)
  ok_edges : forall e, e ∈ scene_edges_ s ->
    exists E f t,
      edge_at (objects s) e = Some E /\ in_scene (edge_item E) = true /\
      from_item E = Some f /\ to_item E = Some t /\
      is_Some (node_at (objects s) f) /\ is_Some (node_at (objects s) t);
  (** at most one listed edge per pair of output node and input *)
  ok_unique : forall e1 e2 E1 E2,
    e1 ∈ scene_edges_ s -> e2 ∈ scene_edges_ s ->
    edge_at (objects s) e1 = Some E1 -> edge_at (objects s) e2 = Some E2 ->
    output E1 = output E2 -> input E1 = input E2 -> e1 = e2;
  (** the edge list of a node item holds exactly the listed edges it is an
      endpoint of, once for each end *)
  ok_items : forall p it e, node_at (objects s) p = Some it ->
    edge_count e (edges_ it) =
      if decide (e ∈ scene_edges_ s)
      then match edge_at (objects s) e with
           | Some E => endpoint_count E p
           | None => 0%nat
           end
      else 0%nat;
  (** the node-to-item map points at live node items *)
  ok_map : forall n p, item_map_ s !! n = Some p -> is_Some (node_at (objects s) p)
}.

(** ** [QComboBox]

    A combo box that is not editable, as [new QComboBox()] makes it: a list
    of item texts and the index of the current item, [-1] when there is
    none.  The member functions follow the toolkit's documentation:
    [addItem] appends, and the first item put into an empty box becomes the
    current one; [currentText] is the text of the current item or the empty
    string; [setCurrentText] makes the first item with exactly that text
    current and does nothing when there is none. *)

Record QComboBox : Type := mkComboBox {
  itemTexts : list string;
  currentIndex : Z
}.

Definition QComboBox_new : QComboBox := mkComboBox [] (-1).

Definition clear (c : QComboBox) : QComboBox := mkComboBox [] (-1).

(** [QComboBox::addItem] *)
Definition addItem_text (s : string) (c : QComboBox) : QComboBox :=
  mkComboBox (itemTexts c ++ [s])
             (if bool_decide (itemTexts c = []) then 0 else currentIndex c).

Definition itemText (i : Z) (c : QComboBox) : string :=
  if (0 <=? i) && (i <? Z.of_nat (length (itemTexts c)))
  then nth (Z.to_nat i) (itemTexts c) ""%string
  else ""%string.

Definition currentText (c : QComboBox) : string := itemText (currentIndex c) c.

Fixpoint findText_from (i : Z) (text : string) (l : list string) : Z :=
  match l with
  | [] => -1
  | s :: l => if String.eqb s text then i else findText_from (i + 1) text l
  end.

Definition findText (text : string) (c : QComboBox) : Z :=
  findText_from 0 text (itemTexts c).

Definition setCurrentIndex (i : Z) (c : QComboBox) : QComboBox :=
  mkComboBox (itemTexts c) i.

Definition setCurrentText (text : string) (c : QComboBox) : QComboBox :=
  let i := findText text c in
  if -1 <? i then setCurrentIndex i c else c.

(** [QStringList::contains] *)
Definition contains (l : list string) (s : string) : bool :=
  existsb (fun x => String.eqb x s) l.

(** ** [ColorSpaceChooser] *)

(** The colour manager is a class of the editor outside these translation
    units; the chooser only asks it for lists and defaults. *)
Record ColorManager : Type := mkColorManager {
  ListAvailableInputColorspaces : list string;
  GetDefaultInputColorSpace : string;
  ListAvailableDisplays : list string;
  GetDefaultDisplay : string;
  ListAvailableViews : string -> list string;
  GetDefaultView : string -> string;
  ListAvailableLooks : list string
}.

Record ColorSpaceChooser : Type := mkColorSpaceChooser {
  color_manager_ : ColorManager;
  (** null when the chooser was made without an input field *)
  input_combobox_ : option QComboBox;
  display_combobox_ : QComboBox;
  view_combobox_ : QComboBox;
  look_combobox_ : QComboBox
}.

(** The signals the chooser emits. *)
Inductive Signal : Type :=
| ColorSpaceChanged (input display view look : string)
| DisplayColorSpaceChanged (display view look : string).

Definition with_view (v : QComboBox) (c : ColorSpaceChooser) : ColorSpaceChooser :=
  mkColorSpaceChooser (color_manager_ c) (input_combobox_ c) (display_combobox_ c)
                      v (look_combobox_ c).

Definition with_input (i : option QComboBox) (c : ColorSpaceChooser) : ColorSpaceChooser :=
  mkColorSpaceChooser (color_manager_ c) i (display_combobox_ c)
                      (view_combobox_ c) (look_combobox_ c).

Definition UpdateViews (s : string) (c : ColorSpaceChooser) : ColorSpaceChooser :=
  let v := currentText (view_combobox_ c) in
  let view := clear (view_combobox_ c) in
  let views := ListAvailableViews (color_manager_ c) s in
  let view := fold_left (fun cb s => addItem_text s cb) views view in
  if contains views v
  then with_view (setCurrentText v view) c
  else with_view (setCurrentText (GetDefaultView (color_manager_ c) s) view) c.

Definition ColorSpaceChooser_new (color_manager : ColorManager) (enable_input_field : bool)
  : ColorSpaceChooser :=
  let input_combobox :=
    if enable_input_field
    then
      let cb := QComboBox_new in
      let input_spaces := ListAvailableInputColorspaces color_manager in
      let cb := fold_left (fun cb s => addItem_text s cb) input_spaces cb in
      let cb := if negb (String.eqb (GetDefaultInputColorSpace color_manager) "")
                then setCurrentText (GetDefaultInputColorSpace color_manager) cb
                else cb in
      Some cb
    else None in
  let display_combobox :=
    let cb := QComboBox_new in
    let display_spaces := ListAvailableDisplays color_manager in
    let cb := fold_left (fun cb s => addItem_text s cb) display_spaces cb in
    setCurrentText (GetDefaultDisplay color_manager) cb in
  let view_combobox := QComboBox_new in
  let look_combobox :=
    let cb := QComboBox_new in
    let looks := ListAvailableLooks color_manager in
    fold_left (fun cb s => addItem_text s cb) looks cb in
  (* the view box is filled before the look box is made *)
  let c := mkColorSpaceChooser color_manager input_combobox display_combobox
                               view_combobox QComboBox_new in
  let c := UpdateViews (currentText (display_combobox_ c)) c in
  mkColorSpaceChooser (color_manager_ c) (input_combobox_ c) (display_combobox_ c)
                      (view_combobox_ c) look_combobox.

(** [ColorSpaceChooser::input] (the plain name is taken by the accessor of
    [NodeViewEdge]). *)
Definition chooser_input (c : ColorSpaceChooser) : string :=
  match input_combobox_ c with
  | Some cb => currentText cb
  | None => ""%string
  end.

Definition display (c : ColorSpaceChooser) : string := currentText (display_combobox_ c).
Definition view (c : ColorSpaceChooser) : string := currentText (view_combobox_ c).
Definition look (c : ColorSpaceChooser) : string := currentText (look_combobox_ c).

Definition ComboBoxChanged (c : ColorSpaceChooser) : list Signal :=
  (match input_combobox_ c with
   | Some _ => [ColorSpaceChanged (chooser_input c) (display c) (view c) (look c)]
   | None => []
   end) ++ [DisplayColorSpaceChanged (display c) (view c) (look c)].

(** [set_input] goes through the input box pointer without a test; [None]
    is the dereference of a null pointer.  A change of the current text
    runs the connected slot [ComboBoxChanged]. *)
Definition set_input (s : string) (c : ColorSpaceChooser)
  : option (ColorSpaceChooser * list Signal) :=
  cb ← input_combobox_ c;
  let cb' := setCurrentText s cb in
  let c' := with_input (Some cb') c in
  Some (c', if String.eqb (currentText cb) (currentText cb') then [] else ComboBoxChanged c').

Module ExampleColor.

Definition manager : ColorManager :=
  mkColorManager
    ["Linear"; "sRGB"; "Rec.709"]%string "sRGB"%string
    ["sRGB"; "ACES"]%string "sRGB"%string
    (fun d => if String.eqb d "sRGB" then ["Film"; "Raw"; "Log"]%string
              else if String.eqb d "ACES" then ["Raw"; "sRGB"]%string
              else [])
    (fun d => if String.eqb d "sRGB" then "Film"%string
              else if String.eqb d "ACES" then "sRGB"%string
              else ""%string)
    ["None"; "Warm"]%string.

Definition with_input_field : ColorSpaceChooser := ColorSpaceChooser_new manager true.
Definition without_input_field : ColorSpaceChooser := ColorSpaceChooser_new manager false.

End ExampleColor.

(** * Further functions of the three translation units *)

From Stdlib Require Import Lqa.

(** ** [NodeViewItem]: positions, input rows and connection points *)

(** [QRectF::translate] and [QRectF::adjust] *)
Definition QRectF_translate (dx dy : Q) (r : QRectF) : QRectF :=
  mkRect (rx r + dx)%Q (ry r + dy)%Q (rw r) (rh r).

Definition QRectF_adjust (dx1 dy1 dx2 dy2 : Q) (r : QRectF) : QRectF :=
  mkRect (rx r + dx1)%Q (ry r + dy1)%Q (rw r + dx2 - dx1)%Q (rh r + dy2 - dy1)%Q.

Definition Qlt_bool (a b : Q) : bool := negb (Qle_bool b a).

(** [QRectF::contains(const QPointF &)], as the toolkit implements it: the
    edges belong to the rectangle, a rectangle without width or without
    height contains nothing, and negative sizes are read from the other
    corner. *)
Definition QRectF_contains (r : QRectF) (p : QPointF) : bool :=
  let l := if Qlt_bool (rw r) 0 then (rx r + rw r)%Q else rx r in
  let r' := if Qlt_bool (rw r) 0 then rx r else (rx r + rw r)%Q in
  if Qeq_bool l r' then false
  else if Qlt_bool (px p) l || Qlt_bool r' (px p) then false
  else
    let t := if Qlt_bool (rh r) 0 then (ry r + rh r)%Q else ry r in
    let b := if Qlt_bool (rh r) 0 then ry r else (ry r + rh r)%Q in
    if Qeq_bool t b then false
    else if Qlt_bool (py p) t || Qlt_bool b (py p) then false
    else true.

Definition point_sub (p q : QPointF) : QPointF :=
  mkPoint (px p - px q)%Q (py p - py q)%Q.

Definition point_add (p q : QPointF) : QPointF :=
  mkPoint (px p + px q)%Q (py p + py q)%Q.

(** The changes [QGraphicsItem::itemChange] is told about that matter here. *)
Inductive GraphicsItemChange : Type :=
| ItemPositionChange
| ItemPositionHasChanged
| ItemSelectedChange
| ItemSelectedHasChanged
| ItemVisibleChange
| ItemVisibleHasChanged.

Definition with_cached_node_pos (p : QPointF) (it : NodeViewItem) : NodeViewItem :=
  mkNodeViewItem (item it) (rect it) (parent_context it) (node_ it) (expanded_ it)
    (hide_titlebar_ it) (highlighted_index_ it) (flow_dir_ it) (prevent_removing_ it)
    (label_as_output_ it) (node_border_width_ it) (title_bar_rect_ it)
    (input_connector_ it) (output_connector_ it) (node_inputs_ it) (edges_ it)
    p.

Definition with_flow_dir (d : FlowDirection) (it : NodeViewItem) : NodeViewItem :=
  mkNodeViewItem (item it) (rect it) (parent_context it) (node_ it) (expanded_ it)
    (hide_titlebar_ it) (highlighted_index_ it) d (prevent_removing_ it)
    (label_as_output_ it) (node_border_width_ it) (title_bar_rect_ it)
    (input_connector_ it) (output_connector_ it) (node_inputs_ it) (edges_ it)
    (cached_node_pos_ it).

Definition with_highlighted_index (i : Z) (it : NodeViewItem) : NodeViewItem :=
  mkNodeViewItem (item it) (rect it) (parent_context it) (node_ it) (expanded_ it)
    (hide_titlebar_ it) i (flow_dir_ it) (prevent_removing_ it)
    (label_as_output_ it) (node_border_width_ it) (title_bar_rect_ it)
    (input_connector_ it) (output_connector_ it) (node_inputs_ it) (edges_ it)
    (cached_node_pos_ it).

Definition with_label_as_output (e : bool) (it : NodeViewItem) : NodeViewItem :=
  mkNodeViewItem (item it) (rect it) (parent_context it) (node_ it) (expanded_ it)
    (hide_titlebar_ it) (highlighted_index_ it) (flow_dir_ it) (prevent_removing_ it)
    e (node_border_width_ it) (title_bar_rect_ it)
    (input_connector_ it) (output_connector_ it) (node_inputs_ it) (edges_ it)
    (cached_node_pos_ it).

Section NodeViewItemMore.

Variable amb : Ambient.

(** [NodeViewItemConnector::SetFlowDirection], a member of a class outside
    these translation units. *)
Variable connector_SetFlowDirection :
  FlowDirection -> NodeViewItemConnector -> NodeViewItemConnector.

(** [itemChange]: the value handed in goes to the base class and comes back
    as it is; a finished move of an item that shows a node re-routes the
    item's edges and lets the context recompute its rectangle. *)
Definition itemChange {V : Type} (change : GraphicsItemChange) (value : V)
    (it : NodeViewItem) : V * list Call :=
  match change, node_ it with
  | ItemPositionHasChanged, Some _ => (value, ReadjustAllEdges it ++ UpdateContextRect it)
  | _, _ => (value, [])
  end.

(** [setPos] on the item itself.  The toolkit returns at once when the
    position is the one the item has; otherwise an item that sends geometry
    changes is told before and after the move, through [itemChange]. *)
Definition NodeViewItem_setPos (p : QPointF) (it : NodeViewItem) : NodeViewItem * list Call :=
  if Qeq_bool (px (pos (item it))) (px p) && Qeq_bool (py (pos (item it))) (py p)
  then (it, [])
  else if ItemSendsGeometryChanges (item it)
  then
    let '(p', calls) := itemChange ItemPositionChange p it in
    let it' := with_item (setPos p' (item it)) it in
    let '(_, calls') := itemChange ItemPositionHasChanged p' it' in
    (it', calls ++ calls')
  else (with_item (setPos p (item it)) it, []).

Definition GetNodePosition (it : NodeViewItem) : QPointF :=
  ScreenToNodePoint amb (pos (item it)) (flow_dir_ it).

Definition UpdateNodePosition (it : NodeViewItem) : NodeViewItem * list Call :=
  NodeViewItem_setPos (NodeToScreenPoint amb (cached_node_pos_ it) (flow_dir_ it)) it.

Definition SetNodePosition (p : QPointF) (it : NodeViewItem) : NodeViewItem * list Call :=
  UpdateNodePosition (with_cached_node_pos p it).

Definition SetFlowDirection (dir : FlowDirection) (it : NodeViewItem)
  : NodeViewItem * list Call :=
  let it := with_flow_dir dir it in
  let it := with_connectors (connector_SetFlowDirection dir (input_connector_ it))
                            (connector_SetFlowDirection dir (output_connector_ it)) it in
  let it := UpdateConnectorPositions it in
  UpdateNodePosition it.

Definition GetInputRect (index : Z) (it : NodeViewItem) : QRectF :=
  let r := title_bar_rect_ it in
  let index := if negb (hide_titlebar_ it) then index + 1 else index in
  if IsExpanded it
  then QRectF_translate 0 (height r * inject_Z index)%Q r
  else r.

(** The loop of [GetIndexAt] from index [i] on, over the inputs still to
    visit. *)
Fixpoint GetIndexAt_from (i : Z) (rest : list string) (pt : QPointF) (it : NodeViewItem) : Z :=
  match rest with
  | [] => -1
  | _ :: rest =>
      if QRectF_contains (GetInputRect i it) pt then i
      else GetIndexAt_from (i + 1) rest pt it
  end.

Definition GetIndexAt (pt : QPointF) (it : NodeViewItem) : Z :=
  let pt := point_sub pt (pos (item it)) in
  GetIndexAt_from 0 (node_inputs_ it) pt it.

(** [QList::indexOf] *)
Fixpoint indexOf_from (i : Z) (s : string) (l : list string) : Z :=
  match l with
  | [] => -1
  | x :: l => if String.eqb x s then i else indexOf_from (i + 1) s l
  end.

Definition indexOf (s : string) (l : list string) : Z := indexOf_from 0 s l.

Definition GetInputPointInternal (index : Z) (source_pos : QPointF) (it : NodeViewItem)
  : QPointF :=
  let input_rect := GetInputRect index it in
  let flow_orientation := GetFlowOrientation amb (flow_dir_ it) in
  if Orientation_eqb flow_orientation Horizontal || IsExpanded it
  then
    if (match flow_dir_ it with kLeftToRight => true | _ => false end)
       || (Orientation_eqb flow_orientation Vertical
           && Qlt_bool (px source_pos) (px (pos (item it))))
    then mkPoint (left input_rect) (py (center input_rect))
    else mkPoint (right input_rect) (py (center input_rect))
  else
    if (match flow_dir_ it with kTopToBottom => true | _ => false end)
    then mkPoint (px (center input_rect)) (top input_rect)
    else mkPoint (px (center input_rect)) (bottom input_rect).

Definition GetInputPoint (input : string) (element : Z) (source_pos : QPointF)
    (it : NodeViewItem) : QPointF :=
  if expanded_ it
  then point_add (pos (item it))
                 (GetInputPointInternal (indexOf input (node_inputs_ it)) source_pos it)
  else point_add (pos (item it)) (pos (connector_item (input_connector_ it))).

Definition GetOutputPoint (it : NodeViewItem) : QPointF :=
  let p := point_add (pos (item it)) (pos (connector_item (output_connector_ it))) in
  let r := boundingRect (output_connector_ it) in
  match flow_dir_ it with
  | kLeftToRight => setX (px p + width r)%Q p
  | kRightToLeft => setX (px p - width r)%Q p
  | kTopToBottom => setY (py p + height r)%Q p
  | kBottomToTop => setY (py p - height r)%Q p
  end.

Definition SetHighlightedIndex (index : Z) (it : NodeViewItem) : NodeViewItem * list Call :=
  if highlighted_index_ it =? index then (it, [])
  else (with_highlighted_index index it, [update]).

Definition SetLabelAsOutput (e : bool) (it : NodeViewItem) : NodeViewItem * list Call :=
  let it := with_label_as_output e it in
  let it := with_connectors (input_connector_ it)
                            (connector_setVisible (negb e) (output_connector_ it)) it in
  (it, [update]).

End NodeViewItemMore.

(** ** [NodeViewItem::DrawNodeTitle]

    The painter is written to, not read back, except for its font metrics
    and its transform, so the function is its sequence of painter calls.
    The [do ... while] loop that shortens the label has no bound in the
    code; the model counts it down on [fuel] and has no result ([None])
    when the loop does not stop.  A [qreal] stored into an [int] is cut
    towards zero. *)

Definition Qtrunc (q : Q) : Z := Z.quot (Qnum q) (Z.pos (Qden q)).

Module Align.
(** [Qt::AlignLeft], [Qt::AlignHCenter], [Qt::AlignTop], [Qt::AlignBottom],
    [Qt::AlignVCenter] *)
Definition AlignLeft : Z := 1.
Definition AlignHCenter : Z := 4.
Definition AlignTop : Z := 32.
Definition AlignBottom : Z := 64.
Definition AlignVCenter : Z := 128.
End Align.

Inductive Icon : Type := TriDown | TriRight.

Inductive PainterCall : Type :=
| setRenderHint_SmoothPixmapTransform
| drawPixmap (x y w h : Z) (icon : Icon) (pixmap_size : Z)
| setPen (color : Z)
| drawText (r : QRectF) (flags : Z) (text : string).

(** [QString::chop(1)]: the string without its last character; an empty
    string stays empty. *)
Fixpoint chop1 (s : string) : string :=
  match s with
  | EmptyString => EmptyString
  | String c EmptyString => EmptyString
  | String c s' => String c (chop1 s')
  end.

Section DrawNodeTitleCode.

Variable amb : Ambient.

(** [QtUtils::QFontMetricsWidth(painter->fontMetrics(), text)] *)
Variable QFontMetricsWidth : string -> Z.
(** [QCoreApplication::translate("NodeViewItem", "%1...").arg(text)] *)
Variable tr_ellipsis : string -> string.
(** [painter->transform().m11()] *)
Variable m11 : Q.
(** [node->color()] and [ColorCoding::GetUISelectorColor], colours as
    numbers *)
Variable node_color : Node -> Z.
Variable GetUISelectorColor : Z -> Z.

(** The shortening loop: chop one character, append the ellipsis, measure;
    again while the result is wider than [max_text_width]. *)
Fixpoint shorten (fuel : nat) (max_text_width : Z) (text : string) : option (string * Z) :=
  match fuel with
  | O => None
  | S fuel =>
      let text := chop1 text in
      let concatenated := tr_ellipsis text in
      let label_width := QFontMetricsWidth concatenated in
      if label_width >? max_text_width
      then shorten fuel max_text_width text
      else Some (concatenated, label_width)
  end.

Definition DrawNodeTitle (fuel : nat) (text : string) (rect : QRectF) (vertical_align : Z)
    (icon_size : Z) (draw_arrow : bool) (it : NodeViewItem) : option (list PainterCall) :=
  let tb := title_bar_rect_ it in
  let icon_padding := Qtrunc (height tb / 2 - inject_Z (Z.quot icon_size 2))%Q in
  let icon_full_size := icon_size + icon_padding * 2 in
  let arrow :=
    if draw_arrow
    then
      let expand_icon := if IsExpanded it then TriDown else TriRight in
      let icon_size_scaled := Qtrunc (inject_Z icon_size * m11)%Q in
      [drawPixmap (Qtrunc (rx tb + inject_Z icon_padding)%Q)
                  (Qtrunc (ry tb + inject_Z icon_padding)%Q)
                  icon_size icon_size expand_icon icon_size_scaled]
    else [] in
  let item_width := Qtrunc (width tb) in
  let max_text_width := item_width - DefaultTextPadding amb * 2 - icon_full_size in
  let label_width := QFontMetricsWidth text in
  fitted ← (if label_width >? max_text_width
            then shorten fuel max_text_width text
            else Some (text, label_width));
  let text := fst fitted in
  let label_width := snd fitted in
  node ← node_ it;
  let pen := setPen (GetUISelectorColor (node_color node)) in
  let likely_x := Z.quot item_width 2 - Z.quot label_width 2 in
  let '(text_rect, text_align) :=
    if likely_x <? icon_full_size
    then (QRectF_adjust (inject_Z icon_full_size) 0 0 0 rect,
          Z.lor Align.AlignLeft vertical_align)
    else (rect, Z.lor Align.AlignHCenter vertical_align) in
  Some ([setRenderHint_SmoothPixmapTransform] ++ arrow
        ++ [pen; drawText text_rect text_align text]).

End DrawNodeTitleCode.

(** The label a sequence of painter calls ends with. *)
Definition drawn_label (calls : list PainterCall) : option (string * Z * QRectF) :=
  match last calls with
  | Some (drawText r flags text) => Some (text, flags, r)
  | _ => None
  end.

(** Chopping [k] characters. *)
Fixpoint chop (k : nat) (s : string) : string :=
  match k with
  | O => s
  | S k => chop k (chop1 s)
  end.

(** The width [DrawNodeTitle] leaves for the label: the title bar's width
    without the text padding on both sides and without the arrow icon's
    square. *)
Definition title_max_text_width (amb : Ambient) (icon_size : Z) (it : NodeViewItem) : Z :=
  let icon_padding :=
    Qtrunc (height (title_bar_rect_ it) / 2 - inject_Z (Z.quot icon_size 2))%Q in
  Qtrunc (width (title_bar_rect_ it)) - DefaultTextPadding amb * 2
  - (icon_size + icon_padding * 2).

(** Example inputs for the title: a font in which every character is 8
    pixels wide, the ellipsis written as three dots, and a node item of the
    usual size. *)
Module ExampleTitle.

Definition width8 (s : string) : Z := 8 * Z.of_nat (String.length s).
Definition dots (s : string) : string := (s ++ "...")%string.
Definition titled : NodeViewItem := ExampleItems.with_inputs.
Definition more_inputs (n : Node) : list string := ["a"; "b"; "c"]%string.

(** an item so narrow that not even the ellipsis fits beside the arrow *)
Definition narrow : NodeViewItem :=
  NodeViewItem_new (mkAmbient 16 30 (GetFlowOrientation amb16) (mkRect 0 (-6) 6 12) false)
                   true None.

End ExampleTitle.

(** ** [NodeViewScene]: edge settings and [clear] *)

(** [NodeViewEdge::SetCurved] and [NodeViewEdge::SetFlowDirection] store
    the setting in the edge, as in [AddEdgeInternal]. *)
Definition edge_SetCurved (c : bool) (e : NodeViewEdge) : NodeViewEdge :=
  mkNodeViewEdge (edge_item e) (output e) (input e) (from_item e) (to_item e)
                 (edge_flow_dir e) c.

Definition with_curved_edges (c : bool) (s : NodeViewScene) : NodeViewScene :=
  mkScene (objects s) (item_map_ s) (scene_edges_ s) (direction_ s) c.

Definition with_item_map (m : gmap Node ptr) (s : NodeViewScene) : NodeViewScene :=
  mkScene (objects s) m (scene_edges_ s) (direction_ s) (curved_edges_ s).

(** [foreach (NodeViewEdge* e, edges_) e->SetCurved(curved)] *)
Fixpoint SetCurved_all (c : bool) (edges : list ptr) (objs : gmap ptr SceneObject)
  : option (gmap ptr SceneObject) :=
  match edges with
  | [] => Some objs
  | e :: edges =>
      edge ← edge_at objs e;
      SetCurved_all c edges (<[e := OEdge (edge_SetCurved c edge)]> objs)
  end.

Definition SetEdgesAreCurved (curved : bool) (s : NodeViewScene) : option NodeViewScene :=
  if negb (Bool.eqb (curved_edges_ s) curved)
  then
    let s := with_curved_edges curved s in
    objs ← SetCurved_all (curved_edges_ s) (scene_edges_ s) (objects s);
    Some (with_objects objs s)
  else Some s.

(** [delete] of a node item and of an edge: the object leaves the heap, with
    the children it owns; deleting what is not a live object of the class
    has no defined result. *)
Definition delete_item (p : ptr) (objs : gmap ptr SceneObject)
  : option (gmap ptr SceneObject) :=
  _ ← node_at objs p; Some (delete p objs).

Definition delete_edge (p : ptr) (objs : gmap ptr SceneObject)
  : option (gmap ptr SceneObject) :=
  _ ← edge_at objs p; Some (delete p objs).

(** [NodeViewScene::clear] *)
Definition Scene_clear (s : NodeViewScene) : option NodeViewScene :=
  let s := DeselectAll s in
  (* selectedItems(): read and dropped *)
  objs ← fold_left (fun (objs : option (gmap ptr SceneObject)) (kv : Node * ptr) =>
                      o ← objs; delete_item (snd kv) o)
                   (map_to_list (item_map_ s)) (Some (objects s));
  let s := with_item_map ∅ (with_objects objs s) in
  (* qDeleteAll(edges_) *)
  objs ← fold_left (fun (objs : option (gmap ptr SceneObject)) (e : ptr) =>
                      o ← objs; delete_edge e o)
                   (scene_edges_ s) (Some (objects s));
  Some (with_scene_edges [] (with_objects objs s)).

(** An object with every selection flag cleared: two objects with the same
    image differ in selection flags only. *)
Definition unselect (g : QGraphicsItem) : QGraphicsItem :=
  mkGraphicsItem (ItemIsMovable g) (ItemIsSelectable g) (ItemSendsGeometryChanges g)
                 (isVisible g) (isEnabled g) false (in_scene g) (pos g).

Definition unselect_object (o : SceneObject) : SceneObject :=
  match o with
  | ONode it =>
      ONode (with_connectors
               (mkConnector (unselect (connector_item (input_connector_ it)))
                            (boundingRect (input_connector_ it)))
               (mkConnector (unselect (connector_item (output_connector_ it)))
                            (boundingRect (output_connector_ it)))
               (with_item (unselect (item it)) it))
  | OEdge e => OEdge (edge_with_item (unselect (edge_item e)) e)
  | OContext g => OContext (unselect g)
  end.

(** Every listed edge carries the scene's two edge settings. *)
Definition edge_settings_agree (s : NodeViewScene) : Prop :=
  forall e E, e ∈ scene_edges_ s -> edge_at (objects s) e = Some E ->
    edge_curved E = curved_edges_ s /\ edge_flow_dir E = direction_ s.

(** No two nodes share an item, and the items at the ends of the listed
    edges are items of registered nodes. *)
Definition items_distinct (s : NodeViewScene) : Prop :=
  forall n1 n2 p, item_map_ s !! n1 = Some p -> item_map_ s !! n2 = Some p -> n1 = n2.

Definition endpoints_registered (s : NodeViewScene) : Prop :=
  forall e E p, e ∈ scene_edges_ s -> edge_at (objects s) e = Some E ->
    from_item E = Some p \/ to_item E = Some p ->
    exists n, item_map_ s !! n = Some p.

(** The example scene with the edge from node 2 to input [tex_in] of node 1
    added. *)
Definition ExampleScene_with_edge : NodeViewScene :=
  match Scene_AddEdge ExampleScene.edge_item_new ExampleScene.scene
          2%positive ExampleScene.input_1_tex with
  | Some (_, s) => s
  | None => ExampleScene.scene
  end.

(** The example scene with node 2 mapped to the item of node 1 as well. *)
Definition ExampleScene_shared : NodeViewScene :=
  mkScene (objects ExampleScene.scene)
          (<[1%positive := 10%positive]> (<[2%positive := 10%positive]> ∅))
          [] kLeftToRight true.

(** ** [ColorSpaceChooser]: a box filled from empty *)

(** A new or cleared box after [addItem] of each text of a list. *)
Definition filled (l : list string) : QComboBox :=
  fold_left (fun cb s => addItem_text s cb) l QComboBox_new.

(** The example item with inputs, expanded with its title bar hidden. *)
Definition ExampleItem_expanded_no_titlebar : NodeViewItem :=
  fst (SetExpanded true true ExampleItems.with_inputs).

(** * Properties *)

Example DefaultItemHeight_16 : DefaultItemHeight amb16 = 24.
Proof. reflexivity. Qed.

Example NodeToScreenPoint_b2t :
  NodeToScreenPoint amb16 (mkPoint 1 2) kBottomToTop = mkPoint (2 * (160 * (5 # 4))) (- 1 * (24 * 2)).
Proof. reflexivity. Qed.

(** C2. In exact arithmetic and with non-zero paddings, the two coordinate
    maps are inverse to each other in every flow direction: mapping a node
    point to the screen and back, or a screen point to node space and back,
    returns the point. *)
Theorem ScreenToNode_NodeToScreen_inverse (amb : Ambient) (d : FlowDirection) (p : QPointF) :
  ~ (DefaultItemHorizontalPadding amb d == 0)%Q ->
  ~ (DefaultItemVerticalPadding amb d == 0)%Q ->
  point_eq (ScreenToNodePoint amb (NodeToScreenPoint amb p d) d) p /\
  point_eq (NodeToScreenPoint amb (ScreenToNodePoint amb p d) d) p.
Proof.
  intros Hh Hv.
  destruct p as [x y].
  destruct d; unfold point_eq, ScreenToNodePoint, NodeToScreenPoint; cbn;
    repeat split; field; assumption.
Qed.

Lemma ScreenToNode_NodeToScreen_inverse_witness :
  point_eq (ScreenToNodePoint amb16 (NodeToScreenPoint amb16 (mkPoint (3 # 2) (-4)) kBottomToTop) kBottomToTop)
           (mkPoint (3 # 2) (-4)) /\
  point_eq (NodeToScreenPoint amb16 (ScreenToNodePoint amb16 (mkPoint (3 # 2) (-4)) kBottomToTop) kBottomToTop)
           (mkPoint (3 # 2) (-4)).
Proof.
  apply (ScreenToNode_NodeToScreen_inverse amb16 kBottomToTop (mkPoint (3 # 2) (-4)));
    vm_compute; discriminate.
Defined.


(** ** The coordinate maps against their matrix reference *)

Lemma NodeToScreenPoint_ref (amb : Ambient) (d : FlowDirection) (p : QPointF) :
  point_eq (NodeToScreenPoint amb p d)
           (Ref.node_to_screen (DefaultItemHorizontalPadding amb d)
                               (DefaultItemVerticalPadding amb d) d p).
Proof.
  destruct p as [x y].
  destruct d; unfold point_eq, NodeToScreenPoint, Ref.node_to_screen; cbn;
    split; ring.
Qed.

Lemma ScreenToNodePoint_ref (amb : Ambient) (d : FlowDirection) (p : QPointF) :
  point_eq (ScreenToNodePoint amb p d)
           (Ref.screen_to_node (DefaultItemHorizontalPadding amb d)
                               (DefaultItemVerticalPadding amb d) d p).
Proof.
  destruct p as [x y].
  destruct d; unfold point_eq, ScreenToNodePoint, Ref.screen_to_node, Qdiv; cbn;
    split; ring.
Qed.

(** ** The weight recursion against the chain count *)

Section WeightFacts.

Variable deps : Node -> list Node.
Variable routes : Node -> Node -> Z.











End WeightFacts.

Example DetermineWeight_example :
  DetermineWeight ExampleGraph.deps ExampleGraph.routes 3 1 = Some 2.
Proof. reflexivity. Qed.

Example DetermineWeight_leaf :
  DetermineWeight ExampleGraph.deps ExampleGraph.routes 1 4 = Some 1.
Proof. reflexivity. Qed.

(** X24.  The positioning maps in closed form.  [NodeToScreenPoint] is the
    flow direction's signed permutation matrix followed by the diagonal
    scaling with the two paddings of that direction, so it carries sums of
    points to sums; with non-zero paddings, [ScreenToNodePoint] is the
    inverse scaling followed by the transposed matrix. *)
Theorem positioning_matrix_form (amb : Ambient) (d : FlowDirection) (p q : QPointF) :
  let hpad := DefaultItemHorizontalPadding amb d in
  let vpad := DefaultItemVerticalPadding amb d in
  point_eq (NodeToScreenPoint amb p d) (Ref.node_to_screen hpad vpad d p) /\
  point_eq (NodeToScreenPoint amb (point_add p q) d)
           (point_add (NodeToScreenPoint amb p d) (NodeToScreenPoint amb q d)) /\
  (~ (hpad == 0)%Q -> ~ (vpad == 0)%Q ->
   point_eq (ScreenToNodePoint amb p d) (Ref.screen_to_node hpad vpad d p)).
Proof.
  intros hpad vpad. split; [apply NodeToScreenPoint_ref|]. split.
  - destruct p as [x y], q as [x' y'].
    destruct d; unfold point_eq, point_add, NodeToScreenPoint; cbn; split; ring.
  - intros _ _. apply ScreenToNodePoint_ref.
Qed.

Lemma positioning_matrix_form_witness :
  point_eq (ScreenToNodePoint amb16 (mkPoint 3 4) kBottomToTop)
           (Ref.screen_to_node (DefaultItemHorizontalPadding amb16 kBottomToTop)
                               (DefaultItemVerticalPadding amb16 kBottomToTop)
                               kBottomToTop (mkPoint 3 4)).
Proof.
  refine (proj2 (proj2
    (positioning_matrix_form amb16 kBottomToTop (mkPoint 3 4) (mkPoint 0 0))) _ _).
  - vm_compute. discriminate.
  - vm_compute. discriminate.
Defined.



(** ** [NodeViewItem]: expanding and collapsing *)

Example with_inputs_inputs :
  node_inputs_ ExampleItems.with_inputs = ["tex_in"; "opacity_in"]%string.
Proof. reflexivity. Qed.

Example without_inputs_connector_hidden :
  isVisible (connector_item (input_connector_ ExampleItems.without_inputs)) = false.
Proof. reflexivity. Qed.

Example expand_with_inputs :
  rect (fst (SetExpanded true false ExampleItems.with_inputs))
  = mkRect (-80) (-12) 160 (24 * 3).
Proof. reflexivity. Qed.

Lemma UpdateConnectorPositions_rect (it : NodeViewItem) :
  rect (UpdateConnectorPositions it) = rect it /\
  expanded_ (UpdateConnectorPositions it) = expanded_ it /\
  hide_titlebar_ (UpdateConnectorPositions it) = hide_titlebar_ it /\
  node_inputs_ (UpdateConnectorPositions it) = node_inputs_ it /\
  title_bar_rect_ (UpdateConnectorPositions it) = title_bar_rect_ it.
Proof. unfold UpdateConnectorPositions. destruct (flow_dir_ it); repeat split. Qed.

(** What [SetExpanded] leaves behind when it does not return early. *)
Lemma SetExpanded_effective (e h : bool) (it : NodeViewItem) :
  node_inputs_ it <> [] ->
  (expanded_ it <> e \/ hide_titlebar_ it <> h) ->
  let it' := fst (SetExpanded e h it) in
  expanded_ it' = e /\ hide_titlebar_ it' = h /\
  node_inputs_ it' = node_inputs_ it /\
  title_bar_rect_ it' = title_bar_rect_ it /\
  rect it' =
    if e
    then setHeight (height (title_bar_rect_ it) *
                    inject_Z (if h then Z.of_nat (length (node_inputs_ it))
                              else Z.of_nat (length (node_inputs_ it)) + 1))%Q
                   (title_bar_rect_ it)
    else title_bar_rect_ it.
Proof.
  intros Hin Hch. unfold SetExpanded, UpdateConnectorPositions.
  destruct it as [g r pc nd ex ht hi fd pr lo bw tb ic oc ins es cp]. cbn in *.
  rewrite (bool_decide_eq_false_2 _ Hin).
  destruct ex, e, ht, h, fd; cbn;
    try (destruct Hch as [Hch|Hch]; exfalso; apply Hch; reflexivity);
    rewrite ?(bool_decide_eq_false_2 _ Hin); cbn; repeat split.
Qed.

Lemma NodeViewItem_new_rect_agrees (amb : Ambient) (sc : bool) (pc : option ptr) :
  rect_agrees (NodeViewItem_new amb sc pc).
Proof. reflexivity. Qed.

(** The constructor makes a node item selectable, and neither [SetNode] nor
    [SetExpanded] touches the item's own flags. *)
Lemma NodeViewItem_new_can_be_selected (amb : Ambient) (sc : bool) (pc : option ptr) :
  can_be_selected (item (NodeViewItem_new amb sc pc)) = true.
Proof. reflexivity. Qed.

Lemma SetNode_item (inputs : Node -> list string) (connectable : Node -> string -> bool)
    (n : option Node) (it : NodeViewItem) :
  item (fst (SetNode inputs connectable n it)) = item it.
Proof. destruct n; reflexivity. Qed.

Lemma SetExpanded_item (e h : bool) (it : NodeViewItem) :
  item (fst (SetExpanded e h it)) = item it.
Proof.
  unfold SetExpanded, UpdateConnectorPositions.
  destruct it as [g r pc nd ex ht hi fd pr lo bw tb ic oc ins es cp]. cbn.
  destruct (_ || _); [reflexivity|].
  destruct e, (bool_decide (ins = [])), h, fd; reflexivity.
Qed.

(** With at least one input and a rectangle that agrees with the flags,
    every call of [SetExpanded], effective or not, ends with the rectangle
    of the requested state. *)
Lemma SetExpanded_rect_agrees (e h : bool) (it : NodeViewItem) :
  rect_agrees it -> node_inputs_ it <> [] ->
  let it' := fst (SetExpanded e h it) in
  expanded_ it' = e /\ hide_titlebar_ it' = h /\ rect_agrees it' /\
  rect it' =
    if e
    then setHeight (height (title_bar_rect_ it) *
                    inject_Z (if h then Z.of_nat (length (node_inputs_ it))
                              else Z.of_nat (length (node_inputs_ it)) + 1))%Q
                   (title_bar_rect_ it)
    else title_bar_rect_ it.
Proof.
  intros Hag Hin it'.
  destruct (bool_decide (expanded_ it = e /\ hide_titlebar_ it = h)) eqn:Hsame.
  - apply bool_decide_eq_true in Hsame as [He Hh].
    assert (it' = it) as ->.
    { subst it'. unfold SetExpanded. rewrite He, Hh, !Bool.eqb_reflx.
      rewrite orb_true_r. reflexivity. }
    repeat split; try assumption.
    rewrite Hag. unfold expected_rect.
    rewrite (bool_decide_eq_false_2 _ Hin), He, Hh. destruct e; reflexivity.
  - apply bool_decide_eq_false in Hsame.
    destruct (SetExpanded_effective e h it Hin) as (He & Hh & Hi & Ht & Hr).
    { destruct (bool_decide (expanded_ it = e)) eqn:E1.
      - apply bool_decide_eq_true in E1. right. intros E2. apply Hsame. split; assumption.
      - apply bool_decide_eq_false in E1. left. exact E1. }
    fold it' in He, Hh, Hi, Ht, Hr.
    repeat split; try assumption.
    unfold rect_agrees, expected_rect. rewrite Hr, He, Hh, Hi, Ht.
    rewrite (bool_decide_eq_false_2 _ Hin). destruct e; reflexivity.
Qed.

(** C7. [SetExpanded] on an item without connectable inputs changes nothing
    (and calls nothing); on an item with [n >= 1] connectable inputs,
    expanding a collapsed item gives its rectangle the height [n + 1] times
    the title bar's when the title bar is shown and [n] times when it is
    hidden, the rest of the rectangle being the title bar's; collapsing an
    expanded item restores exactly the title-bar rectangle.  The same
    rectangles result from a call that repeats the current state, provided
    the item's rectangle agreed with its flags before. *)
Theorem SetExpanded_rect (e h : bool) (it : NodeViewItem) :
  (node_inputs_ it = [] -> SetExpanded e h it = (it, [])) /\
  (node_inputs_ it <> [] -> expanded_ it = false \/ rect_agrees it ->
   let n := inject_Z (Z.of_nat (length (node_inputs_ it))) in
   let it' := fst (SetExpanded true h it) in
   expanded_ it' = true /\
   (height (rect it') == (if h then n else n + 1) * height (title_bar_rect_ it))%Q /\
   rect it' = setHeight (height (rect it')) (title_bar_rect_ it)) /\
  (node_inputs_ it <> [] -> expanded_ it = true \/ rect_agrees it ->
   let it' := fst (SetExpanded false h it) in
   expanded_ it' = false /\ rect it' = title_bar_rect_ it).
Proof.
  split; [|split].
  - intros Hin. unfold SetExpanded. rewrite (bool_decide_eq_true_2 _ Hin). reflexivity.
  - intros Hin Hpre n it'.
    assert (expanded_ it' = true /\
            rect it' = setHeight (height (title_bar_rect_ it) *
                         inject_Z (if h then Z.of_nat (length (node_inputs_ it))
                                   else Z.of_nat (length (node_inputs_ it)) + 1))%Q
                        (title_bar_rect_ it)) as [He Hr].
    { destruct Hpre as [Hexp|Hag].
      - destruct (SetExpanded_effective true h it Hin) as (He & _ & _ & _ & Hr).
        { left. rewrite Hexp. discriminate. }
        split; assumption.
      - destruct (SetExpanded_rect_agrees true h it Hag Hin) as (He & _ & _ & Hr).
        split; assumption. }
    split; [exact He|]. rewrite Hr. cbn.
    split; [|reflexivity].
    subst n. destruct h; [ring|]. rewrite inject_Z_plus. ring.
  - intros Hin Hpre it'.
    destruct Hpre as [Hexp|Hag].
    + destruct (SetExpanded_effective false h it Hin) as (He & _ & _ & _ & Hr).
      { left. rewrite Hexp. discriminate. }
      split; assumption.
    + destruct (SetExpanded_rect_agrees false h it Hag Hin) as (He & _ & _ & Hr).
      split; assumption.
Qed.

Lemma SetExpanded_rect_witness :
  (height (rect (fst (SetExpanded true false ExampleItems.with_inputs)))
   == (inject_Z (Z.of_nat (length (node_inputs_ ExampleItems.with_inputs))) + 1)
      * height (title_bar_rect_ ExampleItems.with_inputs))%Q /\
  SetExpanded true false ExampleItems.without_inputs = (ExampleItems.without_inputs, []) /\
  rect (fst (SetExpanded false true (fst (SetExpanded true false ExampleItems.with_inputs))))
  = title_bar_rect_ (fst (SetExpanded true false ExampleItems.with_inputs)).
Proof.
  split; [|split].
  - refine (proj1 (proj2 (proj1 (proj2 (SetExpanded_rect true false ExampleItems.with_inputs)) _ _))).
    + vm_compute. discriminate.
    + left. reflexivity.
  - refine (proj1 (SetExpanded_rect true false ExampleItems.without_inputs) _).
    reflexivity.
  - refine (proj2 (proj2 (proj2 (SetExpanded_rect true true
             (fst (SetExpanded true false ExampleItems.with_inputs)))) _ _)).
    + vm_compute. discriminate.
    + left. reflexivity.
Defined.

(** ** Mouse events *)

Example flip_ctrl : FlipControlAndShiftModifiers Qt.ControlModifier = Qt.ShiftModifier.
Proof. reflexivity. Qed.

Example flip_shift_alt :
  FlipControlAndShiftModifiers (Z.lor Qt.ShiftModifier Qt.AltModifier)
  = Z.lor Qt.ControlModifier Qt.AltModifier.
Proof. reflexivity. Qed.

Example flip_both :
  FlipControlAndShiftModifiers (Z.lor Qt.ShiftModifier Qt.ControlModifier)
  = Z.lor Qt.ShiftModifier Qt.ControlModifier.
Proof. reflexivity. Qed.

Lemma land_pow2_eqb (e k : Z) :
  0 <= k -> (Z.land e (2 ^ k) =? 0) = negb (Z.testbit e k).
Proof.
  intros Hk. destruct (Z.testbit e k) eqn:Hb; cbn.
  - apply Z.eqb_neq. intros H0.
    assert (Z.testbit (Z.land e (2 ^ k)) k = true) as Ht.
    { rewrite Z.land_spec, Hb, Z.pow2_bits_eqb, Z.eqb_refl by lia. reflexivity. }
    rewrite H0, Z.bits_0 in Ht. discriminate.
  - apply Z.eqb_eq. apply Z.bits_inj'. intros n Hn.
    rewrite Z.land_spec, Z.bits_0, Z.pow2_bits_eqb by lia.
    destruct (Z.eqb_spec k n) as [->|_].
    + rewrite Hb. reflexivity.
    + apply andb_false_r.
Qed.

Lemma land_Shift (e : Z) : (Z.land e Qt.ShiftModifier =? 0) = negb (Z.testbit e 25).
Proof. change Qt.ShiftModifier with (2 ^ 25). apply land_pow2_eqb. lia. Qed.

Lemma land_Control (e : Z) : (Z.land e Qt.ControlModifier =? 0) = negb (Z.testbit e 26).
Proof. change Qt.ControlModifier with (2 ^ 26). apply land_pow2_eqb. lia. Qed.

(** The modelled [FlipControlAndShiftModifiers] exchanges bit 25 (Shift) and
    bit 26 (Control) and keeps every other bit. *)
Lemma Flip_testbit (e k : Z) :
  0 <= k ->
  Z.testbit (FlipControlAndShiftModifiers e) k =
    if k =? 25 then Z.testbit e 26
    else if k =? 26 then Z.testbit e 25
    else Z.testbit e k.
Proof.
  intros Hk. unfold FlipControlAndShiftModifiers.
  rewrite land_Shift, land_Control.
  rewrite !Z.lor_spec, Z.ldiff_spec, Z.lor_spec.
  change Qt.ShiftModifier with (2 ^ 25). change Qt.ControlModifier with (2 ^ 26).
  assert (forall b : bool, Z.testbit (if negb b then 0 else 2 ^ 26) k = b && (k =? 26)) as ->.
  { intros []; cbn [negb]; [rewrite Z.pow2_bits_eqb by lia|rewrite Z.bits_0];
      [rewrite (Z.eqb_sym 26 k)|]; reflexivity. }
  assert (forall b : bool, Z.testbit (if negb b then 0 else 2 ^ 25) k = b && (k =? 25)) as ->.
  { intros []; cbn [negb]; [rewrite Z.pow2_bits_eqb by lia|rewrite Z.bits_0];
      [rewrite (Z.eqb_sym 25 k)|]; reflexivity. }
  rewrite !Z.pow2_bits_eqb by lia.
  rewrite (Z.eqb_sym 25 k), (Z.eqb_sym 26 k).
  destruct (Z.eqb_spec k 25) as [->|H25];
    [generalize (Z.testbit e 25), (Z.testbit e 26); intros [] []; reflexivity|].
  destruct (Z.eqb_spec k 26) as [->|H26];
    [generalize (Z.testbit e 25), (Z.testbit e 26); intros [] []; reflexivity|].
  generalize (Z.testbit e 25), (Z.testbit e 26), (Z.testbit e k); intros [] [] []; reflexivity.
Qed.

(** The expanded flag after a double click, for any behaviour of the base
    class handler. *)
Lemma mouseDoubleClickEvent_expanded (amb : Ambient) (base : handler)
    (event : QGraphicsSceneMouseEvent) (it : NodeViewItem) :
  expanded_ (snd (fst (mouseDoubleClickEvent amb base event it))) =
    (let '(event1, it1, _) := base event it in
     if (Z.land (modifiers event1) Qt.ControlModifier =? 0)
        && negb (bool_decide (node_inputs_ it1 = []))
     then negb (expanded_ it1) else expanded_ it1).
Proof.
  unfold mouseDoubleClickEvent.
  destruct (base event it) as [[event1 it1] calls].
  destruct (Z.land (modifiers event1) Qt.ControlModifier =? 0); [|reflexivity].
  cbn [andb]. unfold IsExpanded.
  destruct (SetExpanded (negb (expanded_ it1)) (default_hide_titlebar amb) it1)
    as [it2 calls2] eqn:HS.
  cbn [fst snd].
  change it2 with (fst (it2, calls2)). rewrite <- HS.
  destruct (bool_decide (node_inputs_ it1 = [])) eqn:Hin.
  - apply bool_decide_eq_true in Hin. unfold SetExpanded.
    rewrite (bool_decide_eq_true_2 _ Hin). reflexivity.
  - apply bool_decide_eq_false in Hin.
    destruct (SetExpanded_effective (negb (expanded_ it1)) (default_hide_titlebar amb) it1 Hin)
      as (He & _); [|exact He].
    left. destruct (expanded_ it1); discriminate.
Qed.

Lemma Flip_Control (m : Z) :
  (Z.land (FlipControlAndShiftModifiers m) Qt.ControlModifier =? 0)
  = (Z.land m Qt.ShiftModifier =? 0).
Proof. rewrite land_Control, land_Shift, Flip_testbit by lia. reflexivity. Qed.

Lemma Flip_Shift (m : Z) :
  (Z.land (FlipControlAndShiftModifiers m) Qt.ShiftModifier =? 0)
  = (Z.land m Qt.ControlModifier =? 0).
Proof. rewrite land_Control, land_Shift, Flip_testbit by lia. reflexivity. Qed.

Lemma Flip_others (m : Z) :
  Z.ldiff (FlipControlAndShiftModifiers m) (Z.lor Qt.ShiftModifier Qt.ControlModifier)
  = Z.ldiff m (Z.lor Qt.ShiftModifier Qt.ControlModifier).
Proof.
  apply Z.bits_inj'. intros k Hk.
  rewrite !Z.ldiff_spec, Flip_testbit, Z.lor_spec by lia.
  change Qt.ShiftModifier with (2 ^ 25). change Qt.ControlModifier with (2 ^ 26).
  rewrite !Z.pow2_bits_eqb by lia.
  rewrite (Z.eqb_sym 25 k), (Z.eqb_sym 26 k).
  destruct (Z.eqb_spec k 25) as [->|H25]; [rewrite !andb_false_r; reflexivity|].
  destruct (Z.eqb_spec k 26) as [->|H26]; [rewrite !andb_false_r; reflexivity|].
  reflexivity.
Qed.

(** C8 (as amended).  A double click runs the base class handler and then
    toggles the expanded flag exactly when the item has a connectable input
    and the event, as the base handler leaves it, carries no Control
    modifier; an item without connectable inputs keeps its flag.  With the
    toolkit's default handler, which calls the overridden press handler, the
    event carries Control at that moment exactly when it arrived with Shift.
    Press, move and release events are forwarded to the base class handler
    with Control and Shift exchanged and every other modifier kept, and leave
    the item as it is. *)
Theorem mouse_events_toggle_and_forward (amb : Ambient) (base : handler)
    (event : QGraphicsSceneMouseEvent) (it : NodeViewItem) :
  (expanded_ (snd (fst (mouseDoubleClickEvent amb base event it))) =
     let '(event1, it1, _) := base event it in
     if (Z.land (modifiers event1) Qt.ControlModifier =? 0)
        && negb (bool_decide (node_inputs_ it1 = []))
     then negb (expanded_ it1) else expanded_ it1) /\
  (node_inputs_ it = [] ->
   expanded_ (snd (fst (mouseDoubleClickEvent amb default_mouseDoubleClickEvent event it)))
   = expanded_ it) /\
  (node_inputs_ it <> [] ->
   expanded_ (snd (fst (mouseDoubleClickEvent amb default_mouseDoubleClickEvent event it)))
   = if Z.land (modifiers event) Qt.ShiftModifier =? 0
     then negb (expanded_ it) else expanded_ it) /\
  (let event' := setModifiers (FlipControlAndShiftModifiers (modifiers event)) event in
   mousePressEvent event it = (event', it, [QGraphicsRectItem_mousePressEvent event']) /\
   mouseMoveEvent event it = (event', it, [QGraphicsRectItem_mouseMoveEvent event']) /\
   mouseReleaseEvent event it = (event', it, [QGraphicsRectItem_mouseReleaseEvent event']) /\
   (Z.land (modifiers event') Qt.ControlModifier =? 0)
     = (Z.land (modifiers event) Qt.ShiftModifier =? 0) /\
   (Z.land (modifiers event') Qt.ShiftModifier =? 0)
     = (Z.land (modifiers event) Qt.ControlModifier =? 0) /\
   Z.ldiff (modifiers event') (Z.lor Qt.ShiftModifier Qt.ControlModifier)
     = Z.ldiff (modifiers event) (Z.lor Qt.ShiftModifier Qt.ControlModifier)).
Proof.
  split; [apply mouseDoubleClickEvent_expanded|].
  split; [|split].
  - intros Hin. rewrite mouseDoubleClickEvent_expanded.
    unfold default_mouseDoubleClickEvent, mousePressEvent.
    rewrite (bool_decide_eq_true_2 _ Hin), andb_false_r. reflexivity.
  - intros Hin. rewrite mouseDoubleClickEvent_expanded.
    unfold default_mouseDoubleClickEvent, mousePressEvent.
    rewrite (bool_decide_eq_false_2 _ Hin), andb_true_r.
    cbn [modifiers setModifiers]. rewrite Flip_Control. reflexivity.
  - cbn zeta. cbn [modifiers setModifiers].
    repeat split; auto using Flip_Control, Flip_Shift, Flip_others.
Qed.

Lemma mouse_events_toggle_and_forward_witness :
  expanded_ (snd (fst (mouseDoubleClickEvent amb16 default_mouseDoubleClickEvent
                         ExampleItems.shift_click ExampleItems.with_inputs)))
  = expanded_ ExampleItems.with_inputs /\
  expanded_ (snd (fst (mouseDoubleClickEvent amb16 default_mouseDoubleClickEvent
                         ExampleItems.plain_click ExampleItems.without_inputs)))
  = expanded_ ExampleItems.without_inputs.
Proof.
  split.
  - refine (proj1 (proj2 (proj2 (mouse_events_toggle_and_forward amb16
             default_mouseDoubleClickEvent ExampleItems.shift_click ExampleItems.with_inputs))) _).
    vm_compute. discriminate.
  - refine (proj1 (proj2 (mouse_events_toggle_and_forward amb16
             default_mouseDoubleClickEvent ExampleItems.plain_click ExampleItems.without_inputs)) _).
    reflexivity.
Defined.

(** An item whose node has no connectable input does not toggle: a double
    click without any modifier leaves the collapsed item collapsed. *)
Lemma double_click_without_inputs_keeps_state :
  Z.land (modifiers ExampleItems.plain_click) Qt.ControlModifier = 0 /\
  expanded_ ExampleItems.without_inputs = false /\
  expanded_ (snd (fst (mouseDoubleClickEvent amb16 default_mouseDoubleClickEvent
                         ExampleItems.plain_click ExampleItems.without_inputs))) = false.
Proof. repeat split. Qed.

(** With the toolkit's default handler a Control double click does toggle an
    item that has inputs, and a Shift double click does not. *)
Example ctrl_double_click_toggles :
  expanded_ (snd (fst (mouseDoubleClickEvent amb16 default_mouseDoubleClickEvent
                         ExampleItems.ctrl_click ExampleItems.with_inputs))) = true.
Proof. reflexivity. Qed.

Example shift_double_click_keeps_state :
  expanded_ (snd (fst (mouseDoubleClickEvent amb16 default_mouseDoubleClickEvent
                         ExampleItems.shift_click ExampleItems.with_inputs))) = false.
Proof. reflexivity. Qed.

(** ** [NodeViewScene]: the heap of graphics items *)

Section SceneFacts.

Implicit Types (objs : gmap ptr SceneObject) (r : ItemRef) (p : ptr).

Lemma get_item_update (f : QGraphicsItem -> QGraphicsItem) objs r r' :
  get_item (update_item f r objs) r'
  = (if decide (r = r') then fmap f else id) (get_item objs r').
Proof.
  destruct r as [p|p|p], r' as [p'|p'|p']; cbn;
    destruct (objs !! p) as [[it|e|g]|] eqn:Hp;
    repeat case_decide; simplify_eq; cbn;
    rewrite ?lookup_insert_eq, ?Hp; cbn; try reflexivity;
    try (rewrite lookup_insert_ne by congruence; reflexivity);
    try (destruct (decide (p = p')) as [->|Hne];
         [rewrite lookup_insert_eq, ?Hp; reflexivity
         |rewrite lookup_insert_ne by congruence; reflexivity]).
Qed.

Lemma get_item_fold (f : QGraphicsItem -> QGraphicsItem) (l : list ItemRef) objs r :
  (forall g, f (f g) = f g) ->
  get_item (fold_left (fun objs i => update_item f i objs) l objs) r
  = (if decide (r ∈ l) then fmap f else id) (get_item objs r).
Proof.
  intros Hidem. revert objs. induction l as [|i l IH]; intros objs.
  - cbn. rewrite decide_False by apply not_elem_of_nil. reflexivity.
  - cbn [fold_left]. rewrite IH, get_item_update.
    destruct (decide (i = r)) as [->|Hne].
    + rewrite (decide_True (P := r ∈ r :: l)) by (apply elem_of_cons; left; reflexivity).
      case_decide; [|reflexivity].
      destruct (get_item objs r); cbn; [rewrite Hidem|]; reflexivity.
    + destruct (decide (r ∈ l)) as [Hin|Hnin].
      * rewrite decide_True by (apply elem_of_cons; right; exact Hin). reflexivity.
      * rewrite decide_False; [reflexivity|].
        intros [->|H]%elem_of_cons; [apply Hne; reflexivity|apply Hnin; exact H].
Qed.

Lemma node_at_get_item objs p it :
  node_at objs p = Some it -> get_item objs (RObject p) = Some (item it).
Proof.
  unfold node_at. cbn. destruct (objs !! p) as [[]|]; intros; simplify_eq. reflexivity.
Qed.

Lemma edge_at_get_item objs p e :
  edge_at objs p = Some e -> get_item objs (RObject p) = Some (edge_item e).
Proof.
  unfold edge_at. cbn. destruct (objs !! p) as [[]|]; intros; simplify_eq. reflexivity.
Qed.

(** Calling a [QGraphicsItem] member through a pointer changes no
    object's class. *)
Lemma node_at_update (f : QGraphicsItem -> QGraphicsItem) objs r p :
  is_Some (node_at objs p) -> is_Some (node_at (update_item f r objs) p).
Proof.
  unfold node_at. intros [it Hit].
  destruct (objs !! p) as [[it'| |]|] eqn:Hp; simplify_eq.
  destruct r as [q|q|q]; cbn; destruct (objs !! q) as [[]|] eqn:Hq;
    rewrite ?Hp; eauto;
    (destruct (decide (q = p)) as [->|Hne];
     [rewrite lookup_insert_eq; simplify_eq; cbn; eauto
     |rewrite lookup_insert_ne, Hp by congruence; eauto]).
Qed.

Lemma edge_at_update (f : QGraphicsItem -> QGraphicsItem) objs r p :
  is_Some (edge_at objs p) -> is_Some (edge_at (update_item f r objs) p).
Proof.
  unfold edge_at. intros [it Hit].
  destruct (objs !! p) as [[|e'|]|] eqn:Hp; simplify_eq.
  destruct r as [q|q|q]; cbn; destruct (objs !! q) as [[]|] eqn:Hq;
    rewrite ?Hp; eauto;
    (destruct (decide (q = p)) as [->|Hne];
     [rewrite lookup_insert_eq; simplify_eq; cbn; eauto
     |rewrite lookup_insert_ne, Hp by congruence; eauto]).
Qed.

Lemma node_at_fold (f : QGraphicsItem -> QGraphicsItem) (l : list ItemRef) objs p :
  is_Some (node_at objs p) ->
  is_Some (node_at (fold_left (fun objs i => update_item f i objs) l objs) p).
Proof.
  revert objs. induction l as [|i l IH]; intros objs H; [exact H|].
  cbn. apply IH, node_at_update, H.
Qed.

Lemma edge_at_fold (f : QGraphicsItem -> QGraphicsItem) (l : list ItemRef) objs p :
  is_Some (edge_at objs p) ->
  is_Some (edge_at (fold_left (fun objs i => update_item f i objs) l objs) p).
Proof.
  revert objs. induction l as [|i l IH]; intros objs H; [exact H|].
  cbn. apply IH, edge_at_update, H.
Qed.

(** The scene's item list holds exactly the pointers to items that are in
    the scene. *)
Lemma elem_of_items (s : NodeViewScene) r :
  r ∈ items s <-> is_in_scene (objects s) r = true.
Proof.
  unfold items. rewrite list_elem_of_filter.
  split; [intros [H _]; exact H|]. intros H. split; [exact H|].
  unfold is_in_scene in H.
  destruct (get_item (objects s) r) as [g|] eqn:Hg; [|discriminate].
  apply list_elem_of_In, in_flat_map.
  destruct r as [p|p|p]; cbn in Hg;
    destruct (objects s !! p) as [o|] eqn:Hp; try discriminate;
    exists (p, o); (split; [apply list_elem_of_In, elem_of_map_to_list; exact Hp|]);
    destruct o; cbn; simplify_eq; auto.
Qed.

End SceneFacts.

(** ** Selection *)

Section Selection.

Implicit Types (objs : gmap ptr SceneObject) (r : ItemRef) (p : ptr).

Lemma setSelected_idem (b : bool) (g : QGraphicsItem) :
  setSelected b (setSelected b g) = setSelected b g.
Proof.
  destruct g as [mv sl sg vi en se sc ps], b, sl, en, vi; reflexivity.
Qed.

Lemma is_in_scene_fold (b : bool) (l : list ItemRef) objs r :
  is_in_scene (fold_left (fun objs i => update_item (setSelected b) i objs) l objs) r
  = is_in_scene objs r.
Proof.
  unfold is_in_scene. rewrite get_item_fold by apply setSelected_idem.
  case_decide; [|reflexivity]. destruct (get_item objs r); reflexivity.
Qed.

Lemma items_fold (b : bool) (l : list ItemRef) (s : NodeViewScene) r :
  r ∈ items (with_objects
               (fold_left (fun objs i => update_item (setSelected b) i objs) l (objects s)) s)
  <-> r ∈ items s.
Proof. rewrite !elem_of_items. cbn. rewrite is_in_scene_fold. reflexivity. Qed.

(** After [DeselectAll] no item of the scene is selected. *)
Lemma DeselectAll_none_selected (s : NodeViewScene) r :
  r ∈ items (DeselectAll s) -> is_selected (objects (DeselectAll s)) r = false.
Proof.
  unfold DeselectAll. intros Hr. apply items_fold in Hr. cbn.
  unfold is_selected. rewrite get_item_fold by apply setSelected_idem.
  case_decide as Hsel.
  - destruct (get_item (objects s) r); reflexivity.
  - cbn. apply not_true_is_false. intros Hs. apply Hsel.
    unfold selectedItems. apply list_elem_of_filter. split; assumption.
Qed.

(** After [SelectAll] an item of the scene is selected exactly when it can
    be: when it is selectable, enabled and visible. *)
Lemma SelectAll_selected (s : NodeViewScene) r g :
  r ∈ items (SelectAll s) -> get_item (objects (SelectAll s)) r = Some g ->
  isSelected g = can_be_selected g.
Proof.
  unfold SelectAll. intros Hr. apply items_fold in Hr. cbn.
  rewrite get_item_fold by apply setSelected_idem.
  rewrite decide_True by exact Hr.
  destruct (get_item (objects s) r) as [g0|]; [|discriminate].
  cbn. intros [= <-]. destruct g0 as [mv sl sg vi en se sc ps]. reflexivity.
Qed.

(** The loops of the three getters, over items whose selection flag is
    known. *)
Lemma fold_selected_nodes {A : Type} (h : Node * ptr -> A) (b : bool) objs
    (l : list (Node * ptr)) (acc : list A) :
  (forall kv, kv ∈ l -> exists it, node_at objs (snd kv) = Some it /\ isSelected (item it) = b) ->
  fold_left
    (fun (selected : option (list A)) (kv : Node * ptr) =>
       sel ← selected;
       it ← node_at objs (snd kv);
       Some (if isSelected (item it) then sel ++ [h kv] else sel))
    l (Some acc)
  = Some (if b then acc ++ map h l else acc).
Proof.
  revert acc. induction l as [|kv l IH]; intros acc H.
  - cbn. destruct b; [rewrite app_nil_r|]; reflexivity.
  - cbn [fold_left]. destruct (H kv) as (it & Hit & Hb); [apply elem_of_cons; auto|].
    cbn. rewrite Hit. cbn. rewrite Hb.
    rewrite IH by (intros kv' Hkv'; apply H, elem_of_cons; auto).
    destruct b; [|reflexivity]. cbn. rewrite <- app_assoc. reflexivity.
Qed.

Lemma fold_selected_edges objs (l : list ptr) (acc : list ptr) :
  (forall e, e ∈ l -> exists E, edge_at objs e = Some E /\ isSelected (edge_item E) = false) ->
  fold_left
    (fun (edges : option (list ptr)) (e : ptr) =>
       sel ← edges;
       edge ← edge_at objs e;
       Some (if isSelected (edge_item edge) then sel ++ [e] else sel))
    l (Some acc)
  = Some acc.
Proof.
  revert acc. induction l as [|e l IH]; intros acc H; [reflexivity|].
  cbn [fold_left]. destruct (H e) as (E & HE & Hb); [apply elem_of_cons; auto|].
  cbn. rewrite HE. cbn. rewrite Hb.
  apply IH. intros e' He'. apply H, elem_of_cons. auto.
Qed.

(** A registered node item after a pass of [setSelected] over any items. *)
Lemma registered_node_fold (b : bool) (l : list ItemRef) (s : NodeViewScene) n p :
  registered s -> item_map_ s !! n = Some p ->
  exists it it',
    node_at (objects s) p = Some it /\
    node_at (fold_left (fun objs i => update_item (setSelected b) i objs) l (objects s)) p
      = Some it' /\
    RObject p ∈ items s /\
    get_item (fold_left (fun objs i => update_item (setSelected b) i objs) l (objects s))
             (RObject p) = Some (item it').
Proof.
  intros [Hreg _] Hn. destruct (Hreg n p Hn) as (it & Hit & Hsc).
  destruct (node_at_fold (setSelected b) l (objects s) p) as [it' Hit']; [eauto|].
  exists it, it'. repeat split; try assumption.
  - apply elem_of_items. unfold is_in_scene.
    rewrite (node_at_get_item _ _ _ Hit). exact Hsc.
  - apply node_at_get_item, Hit'.
Qed.

Lemma registered_edge_fold (b : bool) (l : list ItemRef) (s : NodeViewScene) e :
  registered s -> e ∈ scene_edges_ s ->
  exists E E',
    edge_at (objects s) e = Some E /\
    edge_at (fold_left (fun objs i => update_item (setSelected b) i objs) l (objects s)) e
      = Some E' /\
    RObject e ∈ items s /\
    get_item (fold_left (fun objs i => update_item (setSelected b) i objs) l (objects s))
             (RObject e) = Some (edge_item E').
Proof.
  intros [_ Hreg] He. destruct (Hreg e He) as (E & HE & Hsc).
  destruct (edge_at_fold (setSelected b) l (objects s) e) as [E' HE']; [eauto|].
  exists E, E'. repeat split; try assumption.
  - apply elem_of_items. unfold is_in_scene.
    rewrite (edge_at_get_item _ _ _ HE). exact Hsc.
  - apply edge_at_get_item, HE'.
Qed.

Lemma DeselectAll_getters (s : NodeViewScene) :
  registered s ->
  GetSelectedNodes (DeselectAll s) = Some [] /\
  GetSelectedItems (DeselectAll s) = Some [] /\
  GetSelectedEdges (DeselectAll s) = Some [].
Proof.
  intros Hreg.
  assert (forall kv, kv ∈ map_to_list (item_map_ s) ->
            exists it, node_at (objects (DeselectAll s)) (snd kv) = Some it /\
                       isSelected (item it) = false) as Hnodes.
  { intros [n p] Hkv. apply elem_of_map_to_list in Hkv.
    destruct (registered_node_fold false (selectedItems s) s n p Hreg Hkv)
      as (it & it' & Hit & Hit' & Hin & Hget).
    exists it'. split; [exact Hit'|].
    assert (is_selected (objects (DeselectAll s)) (RObject p) = false) as Hsel.
    { apply DeselectAll_none_selected. unfold DeselectAll. apply items_fold, Hin. }
    unfold is_selected, DeselectAll in Hsel. cbn [objects with_objects] in Hsel.
    rewrite Hget in Hsel. exact Hsel. }
  repeat split.
  - unfold GetSelectedNodes. cbn [item_map_ DeselectAll with_objects].
    rewrite (fold_selected_nodes fst false) by exact Hnodes. reflexivity.
  - unfold GetSelectedItems. cbn [item_map_ DeselectAll with_objects].
    rewrite (fold_selected_nodes snd false) by exact Hnodes. reflexivity.
  - unfold GetSelectedEdges. cbn [scene_edges_ DeselectAll with_objects].
    apply fold_selected_edges. intros e He.
    destruct (registered_edge_fold false (selectedItems s) s e Hreg He)
      as (E & E' & HE & HE' & Hin & Hget).
    exists E'. split; [exact HE'|].
    assert (is_selected (objects (DeselectAll s)) (RObject e) = false) as Hsel.
    { apply DeselectAll_none_selected. unfold DeselectAll. apply items_fold, Hin. }
    unfold is_selected, DeselectAll in Hsel. cbn [objects with_objects] in Hsel.
    rewrite Hget in Hsel. exact Hsel.
Qed.

Lemma SelectAll_nodes (s : NodeViewScene) :
  registered s ->
  (forall n p it, item_map_ s !! n = Some p -> node_at (objects s) p = Some it ->
     can_be_selected (item it) = true) ->
  GetSelectedNodes (SelectAll s) = Some (map fst (map_to_list (item_map_ s))).
Proof.
  intros Hreg Hcan.
  unfold GetSelectedNodes. cbn [item_map_ SelectAll with_objects].
  rewrite (fold_selected_nodes fst true); [reflexivity|].
  intros [n p] Hkv. apply elem_of_map_to_list in Hkv.
  destruct (registered_node_fold true (items s) s n p Hreg Hkv)
    as (it & it' & Hit & Hit' & Hin & Hget).
  exists it'. split; [exact Hit'|].
  pose proof Hget as Hget0.
  rewrite get_item_fold in Hget0 by apply setSelected_idem.
  rewrite decide_True in Hget0 by exact Hin.
  rewrite (node_at_get_item _ _ _ Hit) in Hget0. cbn in Hget0.
  injection Hget0 as Hg. rewrite <- Hg. cbn.
  apply (Hcan n p it Hkv Hit).
Qed.

End Selection.

Lemma ExampleScene_registered : registered ExampleScene.scene.
Proof.
  split.
  - intros n p H. unfold ExampleScene.scene in *. cbn [item_map_ objects] in *.
    destruct (decide (n = 1%positive)) as [->|H1].
    { rewrite lookup_insert_eq in H. injection H as <-. eexists. split; reflexivity. }
    rewrite lookup_insert_ne in H by congruence.
    destruct (decide (n = 2%positive)) as [->|H2].
    { rewrite lookup_insert_eq in H. injection H as <-. eexists. split; reflexivity. }
    rewrite lookup_insert_ne, lookup_empty in H by congruence. discriminate.
  - intros e He. cbn in He. apply elem_of_nil in He. destruct He.
Defined.

Example SelectAll_example_nodes :
  GetSelectedNodes (SelectAll ExampleScene.scene) = Some [2%positive; 1%positive].
Proof. vm_compute. reflexivity. Qed.

Example DeselectAll_example_nodes :
  GetSelectedNodes (DeselectAll (SelectAll ExampleScene.scene)) = Some [].
Proof. vm_compute. reflexivity. Qed.

(** C3 (as amended).  After [DeselectAll] no item of the scene is selected,
    and the three getters return empty collections for a scene whose
    registered node items and edges lie in it.  After [SelectAll] an item of
    the scene is selected exactly when it is selectable, enabled and visible;
    when every registered node item is, [GetSelectedNodes] returns the keys
    of the node-to-item map, each once. *)
Theorem DeselectAll_SelectAll_selection (s : NodeViewScene) :
  (forall r, r ∈ items (DeselectAll s) -> is_selected (objects (DeselectAll s)) r = false) /\
  (registered s ->
     GetSelectedNodes (DeselectAll s) = Some [] /\
     GetSelectedItems (DeselectAll s) = Some [] /\
     GetSelectedEdges (DeselectAll s) = Some []) /\
  (forall r g, r ∈ items (SelectAll s) -> get_item (objects (SelectAll s)) r = Some g ->
     isSelected g = can_be_selected g) /\
  (registered s ->
   (forall n p it, item_map_ s !! n = Some p -> node_at (objects s) p = Some it ->
      can_be_selected (item it) = true) ->
   exists l, GetSelectedNodes (SelectAll s) = Some l /\ NoDup l /\
             forall n, n ∈ l <-> is_Some (item_map_ s !! n)).
Proof.
  split; [apply DeselectAll_none_selected|].
  split; [apply DeselectAll_getters|].
  split; [apply SelectAll_selected|].
  intros Hreg Hcan. exists (map fst (map_to_list (item_map_ s))).
  split; [apply SelectAll_nodes; assumption|].
  split; [apply NoDup_fst_map_to_list|].
  intros n. change (map fst (map_to_list (item_map_ s))) with ((map_to_list (item_map_ s)).*1).
  rewrite list_elem_of_fmap. split.
  - intros ([n' p] & -> & H). apply elem_of_map_to_list in H. eauto.
  - intros [p H]. exists (n, p). split; [reflexivity|]. apply elem_of_map_to_list, H.
Qed.

Lemma DeselectAll_SelectAll_selection_witness :
  (GetSelectedNodes (DeselectAll (SelectAll ExampleScene.scene)) = Some [] /\
   GetSelectedItems (DeselectAll (SelectAll ExampleScene.scene)) = Some [] /\
   GetSelectedEdges (DeselectAll (SelectAll ExampleScene.scene)) = Some []) /\
  (exists l, GetSelectedNodes (SelectAll ExampleScene.scene) = Some l /\ NoDup l /\
             forall n, n ∈ l <-> is_Some (item_map_ ExampleScene.scene !! n)).
Proof.
  split.
  - refine (proj1 (proj2 (DeselectAll_SelectAll_selection (SelectAll ExampleScene.scene))) _).
    split.
    + intros n p H. vm_compute in H.
      destruct n as [[n|n|]|[n|n|]|]; try discriminate H;
        injection H as <-; eexists; split; vm_compute; reflexivity.
    + intros e He. cbn in He. apply elem_of_nil in He. destruct He.
  - refine (proj2 (proj2 (proj2 (DeselectAll_SelectAll_selection ExampleScene.scene)))
              ExampleScene_registered _).
    intros n p it Hn Hp. unfold ExampleScene.scene in Hn, Hp. cbn [item_map_ objects] in Hn, Hp.
    unfold node_at in Hp.
    rewrite lookup_insert in Hn. case_decide.
    + injection Hn as <-. rewrite lookup_insert_eq in Hp. injection Hp as <-. reflexivity.
    + rewrite lookup_insert in Hn. case_decide; [|rewrite lookup_empty in Hn; discriminate].
      injection Hn as <-. rewrite lookup_insert_ne, lookup_insert_eq in Hp by discriminate.
      injection Hp as <-. reflexivity.
Defined.

(** In the example scene the node without connectable inputs has hidden its
    input connector; that connector is an item of the scene and stays
    unselected through [SelectAll]. *)
Lemma SelectAll_leaves_hidden_connector :
  RInputConnector 11%positive ∈ items (SelectAll ExampleScene.scene) /\
  is_selected (objects (SelectAll ExampleScene.scene)) (RInputConnector 11%positive) = false.
Proof.
  split.
  - apply elem_of_items. vm_compute. reflexivity.
  - vm_compute. reflexivity.
Qed.

(** ** Edges *)

Section EdgeLists.

Implicit Types (e x : ptr) (l : list ptr).

Lemma edge_count_removeOne e x l :
  edge_count x (removeOne e l)
  = if decide (x = e) then Nat.pred (edge_count e l) else edge_count x l.
Proof.
  unfold edge_count. induction l as [|y l IH]; [case_decide; reflexivity|].
  cbn [removeOne]. destruct (Pos.eqb_spec y e) as [->|Hne].
  - case_decide as Hx.
    + subst x. rewrite count_occ_cons_eq by reflexivity. reflexivity.
    + rewrite count_occ_cons_neq by congruence. reflexivity.
  - destruct (decide (x = y)) as [->|Hxy].
    + rewrite decide_False by congruence.
      rewrite !count_occ_cons_eq by reflexivity. rewrite IH.
      rewrite decide_False by congruence. reflexivity.
    + rewrite (count_occ_cons_neq _ (removeOne e l)) by congruence. rewrite IH.
      case_decide as Hx.
      * subst x. rewrite count_occ_cons_neq by congruence. reflexivity.
      * rewrite count_occ_cons_neq by congruence. reflexivity.
Qed.

Lemma edge_count_app x l1 l2 :
  edge_count x (l1 ++ l2) = (edge_count x l1 + edge_count x l2)%nat.
Proof. apply count_occ_app. Qed.

Lemma edge_count_elem_of x l : x ∈ l <-> (0 < edge_count x l)%nat.
Proof. rewrite list_elem_of_In. apply count_occ_In. Qed.

Lemma edge_count_not_elem_of x l : x ∉ l <-> edge_count x l = 0%nat.
Proof. rewrite edge_count_elem_of. lia. Qed.

Lemma edge_count_NoDup x l : NoDup l -> (edge_count x l <= 1)%nat.
Proof.
  intros H. apply NoDup_ListNoDup in H.
  apply (proj1 (NoDup_count_occ Pos.eq_dec l) H).
Qed.

Lemma edge_count_singleton x e :
  edge_count x [e] = if decide (x = e) then 1%nat else 0%nat.
Proof.
  unfold edge_count. cbn. destruct (Pos.eq_dec e x); case_decide; congruence.
Qed.

Lemma elem_of_removeOne e x l :
  NoDup l -> x ∈ removeOne e l <-> x ∈ l /\ x <> e.
Proof.
  intros Hnd. rewrite !edge_count_elem_of, edge_count_removeOne.
  pose proof (edge_count_NoDup e l Hnd).
  case_decide as Hx; [subst x|]; split; lia.
Qed.


End EdgeLists.

Section FindEdge.

Implicit Types (objs : gmap ptr SceneObject) (l : list ptr).

Lemma find_edge_total objs out inp l :
  (forall e, e ∈ l -> is_Some (edge_at objs e)) ->
  is_Some (find_edge objs out inp l).
Proof.
  induction l as [|e l IH]; intros H; cbn; [eauto|].
  destruct (H e) as [E ->]; [apply elem_of_cons; auto|]. cbn.
  destruct (_ && _); [eauto|]. apply IH. intros e' He'. apply H, elem_of_cons. auto.
Qed.

Lemma find_edge_Some objs out inp l e :
  find_edge objs out inp l = Some (Some e) ->
  e ∈ l /\ exists E, edge_at objs e = Some E /\ output E = out /\ input E = inp.
Proof.
  induction l as [|e' l IH]; cbn; [discriminate|].
  destruct (edge_at objs e') as [E'|] eqn:HE'; cbn; [|discriminate].
  destruct (bool_decide (output E' = out) && bool_decide (input E' = inp)) eqn:Hm.
  - intros [= <-]. apply andb_true_iff in Hm as [Ho Hi].
    apply bool_decide_eq_true in Ho, Hi.
    split; [apply elem_of_cons; auto|]. eauto.
  - intros H. destruct (IH H) as [Hin Hex]. split; [apply elem_of_cons; auto|exact Hex].
Qed.

Lemma find_edge_None objs out inp l :
  find_edge objs out inp l = Some None ->
  forall e E, e ∈ l -> edge_at objs e = Some E -> ~ (output E = out /\ input E = inp).
Proof.
  induction l as [|e' l IH]; cbn; intros H e E He HE.
  - apply elem_of_nil in He. destruct He.
  - destruct (edge_at objs e') as [E'|] eqn:HE'; cbn in H; [|discriminate].
    destruct (bool_decide (output E' = out) && bool_decide (input E' = inp)) eqn:Hm;
      [discriminate|].
    apply elem_of_cons in He as [->|He].
    + rewrite HE' in HE. injection HE as <-. intros [Ho Hi].
      rewrite (bool_decide_eq_true_2 _ Ho), (bool_decide_eq_true_2 _ Hi) in Hm. discriminate.
    + apply (IH H e E He HE).
Qed.


End FindEdge.

Section EdgeOperations.

Variable NodeViewEdge_item_new : QGraphicsItem.

Lemma node_at_not_edge (objs : gmap ptr SceneObject) (p : ptr) (it : NodeViewItem) :
  node_at objs p = Some it -> edge_at objs p = None /\ objs !! p = Some (ONode it).
Proof.
  unfold node_at, edge_at. destruct (objs !! p) as [[]|]; intros; simplify_eq; auto.
Qed.

(** What [AddEdgeInternal] does to the heap and the edge list when both
    endpoint items are live node items. *)
Lemma AddEdgeInternal_spec (s : NodeViewScene) (out : Node) (inp : NodeInput)
    (f t : ptr) (fi ti : NodeViewItem) :
  node_at (objects s) f = Some fi -> node_at (objects s) t = Some ti ->
  let e := fresh (dom (objects s)) in
  exists s',
    AddEdgeInternal NodeViewEdge_item_new s out inp (Some f) (Some t) = Some (e, s') /\
    objects s !! e = None /\
    item_map_ s' = item_map_ s /\
    scene_edges_ s' = scene_edges_ s ++ [e] /\
    (forall x, edge_at (objects s') x =
       if decide (x = e)
       then Some (mkNodeViewEdge (addItem NodeViewEdge_item_new) out inp (Some f) (Some t)
                                 (direction_ s) (curved_edges_ s))
       else edge_at (objects s) x) /\
    (forall p,
       match node_at (objects s) p with
       | Some it =>
           exists it', node_at (objects s') p = Some it' /\
                       edges_ it' = edges_ it ++ (if decide (f = p) then [e] else [])
                                              ++ (if decide (t = p) then [e] else [])
       | None => node_at (objects s') p = None
       end).
Proof.
  intros Hf Ht e.
  assert (objects s !! e = None) as He.
  { apply not_elem_of_dom. apply is_fresh. }
  destruct (node_at_not_edge _ _ _ Hf) as [Hfe Hfo].
  destruct (node_at_not_edge _ _ _ Ht) as [Hte Hto].
  unfold AddEdgeInternal. fold e. clearbody e.
  assert (f <> e) as Hfne by congruence.
  assert (t <> e) as Htne by congruence.
  cbn [mbind option_bind edge_item output input from_item to_item].
  assert (node_at (<[e:=OEdge (mkNodeViewEdge NodeViewEdge_item_new out inp (Some f) (Some t)
                                 (direction_ s) (curved_edges_ s))]> (objects s)) f = Some fi) as ->.
  { unfold node_at. rewrite lookup_insert_ne by congruence. rewrite Hfo. reflexivity. }
  cbn [mbind option_bind].
  set (objs2 := <[f:=ONode (AddEdge e fi)]> _).
  assert (node_at objs2 t = Some (if decide (f = t) then AddEdge e fi else ti)) as ->.
  { unfold node_at, objs2. rewrite lookup_insert. case_decide; [reflexivity|].
    rewrite lookup_insert_ne by congruence. rewrite Hto. reflexivity. }
  cbn [mbind option_bind].
  eexists. split; [reflexivity|].
  split; [exact He|]. split; [reflexivity|]. split; [reflexivity|].
  cbn [objects with_objects with_scene_edges]. split.
  - intros x. unfold edge_at, objs2. rewrite !lookup_insert.
    case_decide; [subst x; rewrite decide_True by reflexivity; reflexivity|].
    rewrite (decide_False (P := x = e)) by congruence.
    case_decide; [subst x; fold (edge_at (objects s) t); rewrite Hte; reflexivity|].
    case_decide; [subst x; fold (edge_at (objects s) f); rewrite Hfe; reflexivity|].
    reflexivity.
  - intros p. unfold node_at at 1.
    destruct (decide (p = e)) as [->|Hpe].
    { rewrite He. unfold node_at. rewrite lookup_insert_eq. reflexivity. }
    assert (forall o, node_at (<[e:=o]> (<[t:=ONode (AddEdge e
               (if decide (f = t) then AddEdge e fi else ti))]> objs2)) p
            = node_at (<[t:=ONode (AddEdge e
               (if decide (f = t) then AddEdge e fi else ti))]> objs2) p) as ->.
    { intros o. unfold node_at. rewrite lookup_insert_ne by congruence. reflexivity. }
    unfold node_at, objs2. rewrite !lookup_insert.
    destruct (decide (t = p)) as [->|Htp].
    + rewrite Hto. eexists. split; [reflexivity|].
      destruct (decide (f = p)) as [->|Hfp]; cbn.
      * rewrite Hfo in Hto. injection Hto as ->. rewrite <- app_assoc. reflexivity.
      * reflexivity.
    + destruct (decide (f = p)) as [->|Hfp].
      * rewrite Hfo. eexists. split; [reflexivity|]. cbn. rewrite ?app_nil_r. reflexivity.
      * rewrite decide_False by congruence.
        destruct (objects s !! p) as [[it| |]|]; try reflexivity.
        eexists. split; [reflexivity|]. cbn. rewrite ?app_nil_r. reflexivity.
Qed.

Lemma endpoint_count_Some (E : NodeViewEdge) (f t p : ptr) :
  from_item E = Some f -> to_item E = Some t ->
  endpoint_count E p
  = ((if decide (f = p) then 1 else 0) + (if decide (t = p) then 1 else 0))%nat.
Proof.
  intros Hf Ht. unfold endpoint_count. rewrite Hf, Ht.
  repeat case_decide; simplify_eq; reflexivity.
Qed.

Lemma listed_edge_live (s : NodeViewScene) (e : ptr) :
  scene_ok s -> objects s !! e = None -> e ∉ scene_edges_ s.
Proof.
  intros Hok He Hin. destruct (ok_edges s Hok e Hin) as (E & _ & _ & HE & _).
  unfold edge_at in HE. rewrite He in HE. discriminate.
Qed.

(** [AddEdge] when no edge joins the two endpoints yet and both have an
    item: a new edge is made and registered, and the invariant holds
    again. *)
Lemma AddEdge_new_ok (s : NodeViewScene) (out : Node) (inp : NodeInput) (f t : ptr) :
  scene_ok s ->
  EdgeToUIObject s out inp = Some None ->
  item_map_ s !! out = Some f -> item_map_ s !! input_node inp = Some t ->
  exists e s' E,
    Scene_AddEdge NodeViewEdge_item_new s out inp = Some (e, s') /\
    scene_ok s' /\
    (e ∉ scene_edges_ s) /\
    scene_edges_ s' = scene_edges_ s ++ [e] /\
    item_map_ s' = item_map_ s /\
    edge_at (objects s') e = Some E /\
    output E = out /\ input E = inp /\
    from_item E = Some f /\ to_item E = Some t /\
    in_scene (edge_item E) = true /\
    (exists fi, node_at (objects s') f = Some fi /\ e ∈ edges_ fi) /\
    (exists ti, node_at (objects s') t = Some ti /\ e ∈ edges_ ti).
Proof.
  intros Hok Hfind Hf Ht.
  destruct (ok_map s Hok _ _ Hf) as [fi Hfi].
  destruct (ok_map s Hok _ _ Ht) as [ti Hti].
  destruct (AddEdgeInternal_spec s out inp f t fi ti Hfi Hti)
    as (s' & Hrun & Hfresh & Hmap & Hedges & Hedge & Hnode).
  set (e := fresh (dom (objects s))) in *. clearbody e.
  set (E := mkNodeViewEdge (addItem NodeViewEdge_item_new) out inp (Some f) (Some t)
                           (direction_ s) (curved_edges_ s)) in *.
  pose proof (listed_edge_live s e Hok Hfresh) as Hnew.
  assert (forall p, is_Some (node_at (objects s) p) -> is_Some (node_at (objects s') p))
    as Hlive.
  { intros p [it Hit]. specialize (Hnode p). rewrite Hit in Hnode.
    destruct Hnode as (it' & -> & _). eauto. }
  assert (forall p it', node_at (objects s') p = Some it' ->
            exists it, node_at (objects s) p = Some it /\
              edges_ it' = edges_ it ++ (if decide (f = p) then [e] else [])
                                     ++ (if decide (t = p) then [e] else [])) as Hback.
  { intros p it' Hit'. specialize (Hnode p).
    destruct (node_at (objects s) p) as [it|]; [|congruence].
    destruct Hnode as (it'' & Hit'' & Hed). exists it. split; [reflexivity|]. congruence. }
  exists e, s', E.
  split.
  { unfold Scene_AddEdge. rewrite Hfind. cbn. unfold NodeToUIObject. rewrite Hf, Ht.
    exact Hrun. }
  assert (edge_at (objects s') e = Some E) as HeE.
  { rewrite Hedge, decide_True by reflexivity. reflexivity. }
  split.
  { constructor.
    - rewrite Hedges. apply NoDup_app. split; [apply (ok_nodup s Hok)|].
      split; [|apply NoDup_singleton].
      intros x Hx ->%list_elem_of_singleton. apply Hnew, Hx.
    - intros x Hx. rewrite Hedges in Hx. apply elem_of_app in Hx as [Hx|Hx].
      + destruct (ok_edges s Hok x Hx) as (Ex & fx & tx & H1 & H2 & H3 & H4 & H5 & H6).
        exists Ex, fx, tx. rewrite Hedge.
        rewrite decide_False by (intros ->; apply Hnew, Hx). auto 10.
      + apply list_elem_of_singleton in Hx as ->.
        exists E, f, t. repeat split; eauto.
    - intros e1 e2 E1 E2 H1 H2 HE1 HE2 Ho Hi.
      rewrite Hedges in H1, H2. rewrite Hedge in HE1, HE2.
      apply elem_of_app in H1 as [H1|H1], H2 as [H2|H2];
        try apply list_elem_of_singleton in H1; try apply list_elem_of_singleton in H2.
      + rewrite decide_False in HE1 by (intros ->; apply Hnew, H1).
        rewrite decide_False in HE2 by (intros ->; apply Hnew, H2).
        apply (ok_unique s Hok e1 e2 E1 E2); assumption.
      + subst e2. rewrite decide_True in HE2 by reflexivity. injection HE2 as <-.
        rewrite decide_False in HE1 by (intros ->; apply Hnew, H1).
        exfalso. apply (find_edge_None _ _ _ _ Hfind e1 E1 H1 HE1). split; assumption.
      + subst e1. rewrite decide_True in HE1 by reflexivity. injection HE1 as <-.
        rewrite decide_False in HE2 by (intros ->; apply Hnew, H2).
        exfalso. apply (find_edge_None _ _ _ _ Hfind e2 E2 H2 HE2). split; symmetry; assumption.
      + congruence.
    - intros p it' x Hit'. destruct (Hback p it' Hit') as (it & Hit & ->).
      rewrite !edge_count_app, (ok_items s Hok p it x Hit), Hedge, Hedges.
      destruct (decide (x = e)) as [->|Hxe].
      + rewrite (decide_False (P := e ∈ scene_edges_ s)) by exact Hnew.
        rewrite (decide_True (P := e ∈ scene_edges_ s ++ [e]))
          by (apply elem_of_app; right; apply list_elem_of_singleton; reflexivity).
        rewrite (endpoint_count_Some E f t p) by reflexivity.
        repeat case_decide; rewrite ?edge_count_singleton, ?decide_True by reflexivity;
          reflexivity.
      + assert (forall b : bool, edge_count x (if b then [e] else []) = 0%nat) as Hz.
        { intros []; [rewrite edge_count_singleton, decide_False by exact Hxe|]; reflexivity. }
        assert (edge_count x (if decide (f = p) then [e] else []) = 0%nat) as ->.
        { case_decide; [apply (Hz true)|apply (Hz false)]. }
        assert (edge_count x (if decide (t = p) then [e] else []) = 0%nat) as ->.
        { case_decide; [apply (Hz true)|apply (Hz false)]. }
        rewrite !Nat.add_0_r.
        destruct (decide (x ∈ scene_edges_ s)) as [Hx|Hx].
        * rewrite decide_True by (apply elem_of_app; left; exact Hx). reflexivity.
        * rewrite decide_False; [reflexivity|].
          intros [H|H%list_elem_of_singleton]%elem_of_app; [apply Hx, H|apply Hxe, H].
    - intros n p Hn. rewrite Hmap in Hn. apply Hlive, (ok_map s Hok n p Hn). }
  split; [exact Hnew|]. split; [exact Hedges|]. split; [exact Hmap|].
  split; [exact HeE|]. repeat (split; [reflexivity|]).
  split.
  - pose proof (Hnode f) as Hn. rewrite Hfi in Hn. destruct Hn as (it' & Hit' & Hed).
    exists it'. split; [exact Hit'|]. rewrite Hed, decide_True by reflexivity.
    rewrite !elem_of_app. right. left. apply list_elem_of_singleton. reflexivity.
  - pose proof (Hnode t) as Hn. rewrite Hti in Hn. destruct Hn as (it' & Hit' & Hed).
    exists it'. split; [exact Hit'|]. rewrite Hed, (decide_True (P := t = t)) by reflexivity.
    rewrite !elem_of_app. right. right. apply list_elem_of_singleton. reflexivity.
Qed.



End EdgeOperations.

Lemma NodeViewScene_new_ok : scene_ok NodeViewScene_new.
Proof.
  constructor; cbn.
  - apply NoDup_nil_2.
  - intros e He. apply elem_of_nil in He. destruct He.
  - intros e1 e2 E1 E2 He. apply elem_of_nil in He. destruct He.
  - intros p it e H. unfold node_at in H. rewrite lookup_empty in H. discriminate.
  - intros n p H. rewrite lookup_empty in H. discriminate.
Qed.

Lemma ExampleScene_ok : scene_ok ExampleScene.scene.
Proof.
  assert (forall p it, node_at (objects ExampleScene.scene) p = Some it ->
            (p = 10%positive \/ p = 11%positive) /\ edges_ it = []) as Hnodes.
  { intros p it H. unfold node_at, ExampleScene.scene in H. cbn [objects] in H.
    rewrite lookup_insert in H. case_decide as H10.
    - subst p. injection H as <-. auto.
    - rewrite lookup_insert in H. case_decide as H11.
      + subst p. injection H as <-. auto.
      + rewrite lookup_empty in H. discriminate. }
  constructor.
  - apply NoDup_nil_2.
  - intros e He. apply elem_of_nil in He. destruct He.
  - intros e1 e2 E1 E2 He. apply elem_of_nil in He. destruct He.
  - intros p it e H. destruct (Hnodes p it H) as [_ ->].
    rewrite decide_False by apply not_elem_of_nil. reflexivity.
  - intros n p H. destruct (proj1 ExampleScene_registered n p H) as (it & -> & _). eauto.
Defined.

Example AddEdge_example :
  fst <$> Scene_AddEdge ExampleScene.edge_item_new ExampleScene.scene
            2%positive ExampleScene.input_1_tex
  = Some 12%positive.
Proof. vm_compute. reflexivity. Qed.

Example AddEdge_twice_example :
  (Scene_AddEdge ExampleScene.edge_item_new ExampleScene.scene
     2%positive ExampleScene.input_1_tex
   ≫= fun es => fst <$> Scene_AddEdge ExampleScene.edge_item_new (snd es)
                          2%positive ExampleScene.input_1_tex)
  = Some 12%positive.
Proof. vm_compute. reflexivity. Qed.

Example RemoveEdge_after_AddEdge :
  (Scene_AddEdge ExampleScene.edge_item_new ExampleScene.scene
     2%positive ExampleScene.input_1_tex
   ≫= fun es => Scene_RemoveEdge (snd es) 2%positive ExampleScene.input_1_tex
   ≫= fun s' => Some (scene_edges_ s',
                      edges_ <$> node_at (objects s') 10%positive,
                      edges_ <$> node_at (objects s') 11%positive,
                      objects s' !! 12%positive))
  = Some ([], Some [], Some [], None).
Proof. vm_compute. reflexivity. Qed.

Example AddEdge_unregistered_node :
  Scene_AddEdge ExampleScene.edge_item_new ExampleScene.scene
    7%positive ExampleScene.input_1_tex = None.
Proof. vm_compute. reflexivity. Qed.



(** ** The colour-space chooser *)

Example chooser_initial_view : view ExampleColor.with_input_field = "Film"%string.
Proof. reflexivity. Qed.

Example chooser_initial_input : chooser_input ExampleColor.with_input_field = "sRGB"%string.
Proof. reflexivity. Qed.

Example chooser_switch_display_default :
  view (UpdateViews "ACES" ExampleColor.with_input_field) = "sRGB"%string.
Proof. reflexivity. Qed.

Example chooser_switch_display_keep :
  view (UpdateViews "ACES"
          (with_view (setCurrentText "Raw" (view_combobox_ ExampleColor.with_input_field))
                     ExampleColor.with_input_field)) = "Raw"%string.
Proof. reflexivity. Qed.

Section ComboBoxFacts.

Lemma fold_addItem (l : list string) (c : QComboBox) :
  fold_left (fun cb s => addItem_text s cb) l c
  = mkComboBox (itemTexts c ++ l)
               (if bool_decide (itemTexts c = []) && negb (bool_decide (l = []))
                then 0 else currentIndex c).
Proof.
  revert c. induction l as [|s l IH]; intros c.
  - cbn. rewrite app_nil_r, andb_false_r. destruct c; reflexivity.
  - cbn [fold_left]. rewrite IH. cbn. rewrite <- app_assoc. cbn. f_equal.
    destruct (itemTexts c) as [|x xs]; cbn; [|reflexivity].
    destruct l; reflexivity.
Qed.

Lemma contains_In (l : list string) (s : string) : contains l s = true <-> In s l.
Proof.
  unfold contains. rewrite existsb_exists. split.
  - intros (x & Hx & ->%String.eqb_eq). exact Hx.
  - intros H. exists s. split; [exact H|apply String.eqb_refl].
Qed.

Lemma findText_from_In (i : Z) (text : string) (l : list string) :
  In text l ->
  let r := findText_from i text l in
  i <= r < i + Z.of_nat (length l) /\ nth (Z.to_nat (r - i)) l ""%string = text.
Proof.
  revert i. induction l as [|s l IH]; intros i Hin; [destruct Hin|].
  cbn [findText_from]. destruct (String.eqb_spec s text) as [->|Hne].
  - cbn [length]. split; [lia|]. rewrite Z.sub_diag. reflexivity.
  - destruct Hin as [Heq|Hin]; [congruence|].
    destruct (IH (i + 1) Hin) as [Hr Hn]. cbn zeta in *. cbn [length].
    split; [lia|].
    replace (Z.to_nat (findText_from (i + 1) text l - i))
      with (S (Z.to_nat (findText_from (i + 1) text l - (i + 1)))) by lia.
    exact Hn.
Qed.

Lemma findText_from_not_In (i : Z) (text : string) (l : list string) :
  ~ In text l -> findText_from i text l = -1.
Proof.
  revert i. induction l as [|s l IH]; intros i Hnin; [reflexivity|].
  cbn [findText_from]. destruct (String.eqb_spec s text) as [->|Hne].
  - destruct Hnin. left. reflexivity.
  - apply IH. intros H. apply Hnin. right. exact H.
Qed.

(** [setCurrentText] selects the text when the box has it and does nothing
    otherwise; it never changes the items. *)
Lemma setCurrentText_In (text : string) (c : QComboBox) :
  In text (itemTexts c) ->
  currentText (setCurrentText text c) = text /\
  itemTexts (setCurrentText text c) = itemTexts c.
Proof.
  intros Hin. unfold setCurrentText, findText.
  destruct (findText_from_In 0 text (itemTexts c) Hin) as [Hr Hn]. cbn zeta in *.
  destruct (Z.ltb_spec (-1) (findText_from 0 text (itemTexts c))) as [_|Hlt]; [|lia].
  split; [|reflexivity].
  unfold currentText, itemText. cbn [currentIndex setCurrentIndex itemTexts].
  destruct (Z.leb_spec 0 (findText_from 0 text (itemTexts c))) as [_|Hlt]; [|lia].
  destruct (Z.ltb_spec (findText_from 0 text (itemTexts c))
                       (Z.of_nat (length (itemTexts c)))) as [_|Hge]; [|lia].
  cbn [andb]. rewrite Z.sub_0_r in Hn. exact Hn.
Qed.

Lemma setCurrentText_not_In (text : string) (c : QComboBox) :
  ~ In text (itemTexts c) -> setCurrentText text c = c.
Proof.
  intros Hnin. unfold setCurrentText, findText.
  rewrite (findText_from_not_In 0 text _ Hnin). reflexivity.
Qed.

(** A box filled from empty shows its first item, or nothing. *)
Lemma currentText_filled (l : list string) :
  currentText (fold_left (fun cb s => addItem_text s cb) l (clear QComboBox_new))
  = hd ""%string l.
Proof.
  rewrite fold_addItem. cbn. destruct l as [|s l]; reflexivity.
Qed.

End ComboBoxFacts.

(** C4.  [UpdateViews] with a display name refills the view box with exactly
    the views the colour manager lists for that display and leaves the other
    boxes alone.  If the view selected before is among them it stays the
    selected view.  Otherwise the display's default view becomes the
    selected view, given that the default view is one of the listed views
    (or that there is no view and the default is the empty string); were
    the default view not listed, the first listed view would be selected. *)
Theorem UpdateViews_repopulates (s : string) (c : ColorSpaceChooser) :
  let cm := color_manager_ c in
  let v := view c in
  let c' := UpdateViews s c in
  itemTexts (view_combobox_ c') = ListAvailableViews cm s /\
  input_combobox_ c' = input_combobox_ c /\
  display_combobox_ c' = display_combobox_ c /\
  look_combobox_ c' = look_combobox_ c /\
  (In v (ListAvailableViews cm s) -> view c' = v) /\
  (~ In v (ListAvailableViews cm s) ->
   In (GetDefaultView cm s) (ListAvailableViews cm s)
   \/ (ListAvailableViews cm s = [] /\ GetDefaultView cm s = ""%string) ->
   view c' = GetDefaultView cm s) /\
  (~ In v (ListAvailableViews cm s) ->
   ~ In (GetDefaultView cm s) (ListAvailableViews cm s) ->
   view c' = hd ""%string (ListAvailableViews cm s)).
Proof.
  intros cm v c'.
  set (views := ListAvailableViews cm s).
  set (filled := fold_left (fun cb s => addItem_text s cb) views (clear (view_combobox_ c))).
  assert (itemTexts filled = views) as Hitems.
  { unfold filled. rewrite fold_addItem. reflexivity. }
  assert (currentText filled = hd ""%string views) as Hcur.
  { apply currentText_filled. }
  assert (forall t, c' = with_view (setCurrentText t filled) c ->
            itemTexts (view_combobox_ c') = views /\
            input_combobox_ c' = input_combobox_ c /\
            display_combobox_ c' = display_combobox_ c /\
            look_combobox_ c' = look_combobox_ c) as Hframe.
  { intros t ->. cbn. repeat split.
    destruct (in_dec String.string_dec t (itemTexts filled)) as [Hin|Hnin].
    - rewrite (proj2 (setCurrentText_In t filled Hin)). exact Hitems.
    - rewrite (setCurrentText_not_In t filled Hnin). exact Hitems. }
  assert (c' = if contains views v
               then with_view (setCurrentText v filled) c
               else with_view (setCurrentText (GetDefaultView cm s) filled) c) as Hc'
    by reflexivity.
  destruct (contains views v) eqn:Hcont.
  - apply contains_In in Hcont.
    destruct (Hframe v Hc') as (H1 & H2 & H3 & H4).
    repeat (split; [assumption|]).
    split; [|split]; intros; try contradiction.
    rewrite Hc'. unfold view. cbn.
    apply setCurrentText_In. rewrite Hitems. exact Hcont.
  - assert (~ In v views) as Hnin.
    { intros H. apply contains_In in H. congruence. }
    destruct (Hframe _ Hc') as (H1 & H2 & H3 & H4).
    repeat (split; [assumption|]).
    split; [intros; contradiction|]. split.
    + intros _ [Hdef|[Hnil Hdef]]; rewrite Hc'; unfold view; cbn.
      * apply setCurrentText_In. rewrite Hitems. exact Hdef.
      * rewrite setCurrentText_not_In by (rewrite Hitems; fold views in Hnil; rewrite Hnil; auto).
        rewrite Hcur. fold views in Hnil. rewrite Hnil, Hdef. reflexivity.
    + intros _ Hdef. rewrite Hc'. unfold view. cbn.
      rewrite setCurrentText_not_In by (rewrite Hitems; exact Hdef).
      exact Hcur.
Qed.

Lemma UpdateViews_repopulates_witness :
  view (UpdateViews "ACES" ExampleColor.with_input_field)
  = GetDefaultView ExampleColor.manager "ACES" /\
  view (UpdateViews "sRGB" (UpdateViews "ACES" ExampleColor.with_input_field))
  = GetDefaultView ExampleColor.manager "sRGB".
Proof.
  split.
  - refine (proj1 (proj2 (proj2 (proj2 (proj2 (proj2
      (UpdateViews_repopulates "ACES" ExampleColor.with_input_field)))))) _ _).
    + vm_compute. intros [H|[H|[]]]; discriminate H.
    + left. vm_compute. auto.
  - refine (proj1 (proj2 (proj2 (proj2 (proj2 (proj2
      (UpdateViews_repopulates "sRGB" (UpdateViews "ACES" ExampleColor.with_input_field))))))) _ _).
    + vm_compute. intros [H|[H|[H|[]]]]; discriminate H.
    + left. vm_compute. auto.
Defined.

(** C6 at its failing input.  A chooser made without the input field holds a
    null input box: [input()] tests the pointer and answers the empty
    string, [ComboBoxChanged] tests it too, but [set_input] dereferences
    it. *)
Theorem set_input_without_input_field (cm : ColorManager) (s : string) :
  input_combobox_ (ColorSpaceChooser_new cm false) = None /\
  chooser_input (ColorSpaceChooser_new cm false) = ""%string /\
  set_input s (ColorSpaceChooser_new cm false) = None.
Proof.
  assert (input_combobox_ (ColorSpaceChooser_new cm false) = None) as H.
  { unfold ColorSpaceChooser_new, UpdateViews. cbn [input_combobox_].
    destruct (contains _ _); reflexivity. }
  split; [exact H|]. split.
  - unfold chooser_input. rewrite H. reflexivity.
  - unfold set_input. rewrite H. reflexivity.
Qed.

Example set_input_with_input_field :
  chooser_input <$> (fst <$> set_input "Rec.709" ExampleColor.with_input_field)
  = Some "Rec.709"%string.
Proof. reflexivity. Qed.

(** * Further properties *)

(** ** [NodeViewItem]: node position and screen position *)

Lemma point_eq_refl (p : QPointF) : point_eq p p.
Proof. split; reflexivity. Qed.

Lemma point_eq_trans (p q r : QPointF) : point_eq p q -> point_eq q r -> point_eq p r.
Proof. intros [H1 H2] [H3 H4]. split; etransitivity; eassumption. Qed.

Lemma ScreenToNodePoint_point_eq (amb : Ambient) (d : FlowDirection) (p q : QPointF) :
  point_eq p q -> point_eq (ScreenToNodePoint amb p d) (ScreenToNodePoint amb q d).
Proof.
  intros [Hx Hy]. destruct d; unfold point_eq, ScreenToNodePoint; cbn;
    rewrite Hx, Hy; split; reflexivity.
Qed.

Lemma screen_of_node_back (amb : Ambient) (d : FlowDirection) (p : QPointF) :
  ~ (DefaultItemHorizontalPadding amb d == 0)%Q ->
  ~ (DefaultItemVerticalPadding amb d == 0)%Q ->
  point_eq (ScreenToNodePoint amb (NodeToScreenPoint amb p d) d) p.
Proof.
  intros Hh Hv. destruct p as [x y].
  destruct d; unfold point_eq, ScreenToNodePoint, NodeToScreenPoint; cbn;
    split; field; assumption.
Qed.

(** [setPos] on the item moves it to the given point and touches nothing
    but the position. *)
Lemma NodeViewItem_setPos_state (p : QPointF) (it : NodeViewItem) :
  let it' := fst (NodeViewItem_setPos p it) in
  point_eq (pos (item it')) p /\
  flow_dir_ it' = flow_dir_ it /\
  cached_node_pos_ it' = cached_node_pos_ it /\
  rect it' = rect it /\
  expanded_ it' = expanded_ it /\
  hide_titlebar_ it' = hide_titlebar_ it /\
  node_inputs_ it' = node_inputs_ it /\
  input_connector_ it' = input_connector_ it /\
  output_connector_ it' = output_connector_ it /\
  edges_ it' = edges_ it.
Proof.
  unfold NodeViewItem_setPos.
  destruct (Qeq_bool (px (pos (item it))) (px p) && Qeq_bool (py (pos (item it))) (py p))
    eqn:Hsame.
  - apply andb_true_iff in Hsame as [Hx Hy]. apply Qeq_bool_iff in Hx, Hy.
    cbn. repeat split; assumption.
  - destruct (ItemSendsGeometryChanges (item it)).
    + unfold itemChange. cbn.
      destruct (node_ it); cbn; repeat split; reflexivity.
    + cbn. repeat split; reflexivity.
Qed.

(** X1.  [SetNodePosition] and [GetNodePosition] are inverse: with non-zero
    paddings for the item's flow direction, the node position read back is
    the one that was set (in exact arithmetic), the item sits at the screen
    point of that position, and nothing else about the item changes. *)
Theorem SetNodePosition_GetNodePosition (amb : Ambient) (p : QPointF) (it : NodeViewItem) :
  ~ (DefaultItemHorizontalPadding amb (flow_dir_ it) == 0)%Q ->
  ~ (DefaultItemVerticalPadding amb (flow_dir_ it) == 0)%Q ->
  let it' := fst (SetNodePosition amb p it) in
  point_eq (GetNodePosition amb it') p /\
  cached_node_pos_ it' = p /\
  point_eq (pos (item it')) (NodeToScreenPoint amb p (flow_dir_ it)) /\
  flow_dir_ it' = flow_dir_ it /\ rect it' = rect it /\
  expanded_ it' = expanded_ it /\ node_inputs_ it' = node_inputs_ it.
Proof.
  intros Hh Hv it'.
  destruct (NodeViewItem_setPos_state
              (NodeToScreenPoint amb (cached_node_pos_ (with_cached_node_pos p it))
                                 (flow_dir_ (with_cached_node_pos p it)))
              (with_cached_node_pos p it))
    as (Hpos & Hdir & Hcache & Hrect & Hexp & _ & Hin & _).
  change (fst (NodeViewItem_setPos _ (with_cached_node_pos p it))) with it' in *.
  cbn in Hpos, Hdir, Hcache, Hrect, Hexp, Hin.
  assert (point_eq (GetNodePosition amb it') p) as Hget.
  { unfold GetNodePosition. rewrite Hdir.
    eapply point_eq_trans; [apply ScreenToNodePoint_point_eq, Hpos|].
    apply screen_of_node_back; assumption. }
  repeat (split; [assumption|]). assumption.
Qed.

Lemma SetNodePosition_GetNodePosition_witness :
  point_eq (GetNodePosition amb16 (fst (SetNodePosition amb16 (mkPoint (5 # 2) (-3))
                                          ExampleItems.with_inputs)))
           (mkPoint (5 # 2) (-3)).
Proof.
  refine (proj1 (SetNodePosition_GetNodePosition amb16 (mkPoint (5 # 2) (-3))
                   ExampleItems.with_inputs _ _)); vm_compute; discriminate.
Defined.

(** X2.  [SetFlowDirection] recomputes the screen position from the cached
    node position: whatever the item's position was, afterwards the item has
    the new direction, the same cached node position, the same rectangle and
    expansion state, and (with non-zero paddings for the new direction)
    [GetNodePosition] returns the cached node position. *)
Theorem SetFlowDirection_keeps_node_position (amb : Ambient)
    (connector_SetFlowDirection : FlowDirection -> NodeViewItemConnector -> NodeViewItemConnector)
    (dir : FlowDirection) (it : NodeViewItem) :
  ~ (DefaultItemHorizontalPadding amb dir == 0)%Q ->
  ~ (DefaultItemVerticalPadding amb dir == 0)%Q ->
  let it' := fst (SetFlowDirection amb connector_SetFlowDirection dir it) in
  flow_dir_ it' = dir /\
  cached_node_pos_ it' = cached_node_pos_ it /\
  point_eq (pos (item it')) (NodeToScreenPoint amb (cached_node_pos_ it) dir) /\
  point_eq (GetNodePosition amb it') (cached_node_pos_ it) /\
  rect it' = rect it /\ expanded_ it' = expanded_ it /\
  hide_titlebar_ it' = hide_titlebar_ it /\ node_inputs_ it' = node_inputs_ it.
Proof.
  intros Hh Hv it'. unfold SetFlowDirection, UpdateNodePosition in it'.
  set (it1 := UpdateConnectorPositions _) in it'.
  assert (flow_dir_ it1 = dir /\ cached_node_pos_ it1 = cached_node_pos_ it /\
          rect it1 = rect it /\ expanded_ it1 = expanded_ it /\
          hide_titlebar_ it1 = hide_titlebar_ it /\ node_inputs_ it1 = node_inputs_ it)
    as (Hd1 & Hc1 & Hr1 & He1 & Hh1 & Hi1).
  { subst it1. unfold UpdateConnectorPositions. cbn. destruct dir; repeat split. }
  destruct (NodeViewItem_setPos_state
              (NodeToScreenPoint amb (cached_node_pos_ it1) (flow_dir_ it1)) it1)
    as (Hpos & Hdir & Hcache & Hrect & Hexp & Hhide & Hin & _).
  fold it' in Hpos, Hdir, Hcache, Hrect, Hexp, Hhide, Hin.
  rewrite Hd1, Hc1 in Hpos.
  assert (point_eq (GetNodePosition amb it') (cached_node_pos_ it)) as Hget.
  { unfold GetNodePosition. rewrite Hdir, Hd1.
    eapply point_eq_trans; [apply ScreenToNodePoint_point_eq, Hpos|].
    apply screen_of_node_back; assumption. }
  repeat (split; [assumption || congruence|]). congruence.
Qed.

Lemma SetFlowDirection_keeps_node_position_witness :
  point_eq (GetNodePosition amb16
              (fst (SetFlowDirection amb16 (fun _ c => c) kBottomToTop
                      (fst (SetNodePosition amb16 (mkPoint (5 # 2) (-3))
                              ExampleItems.with_inputs)))))
           (mkPoint (5 # 2) (-3)).
Proof.
  refine (proj1 (proj2 (proj2 (proj2 (SetFlowDirection_keeps_node_position amb16 (fun _ c => c)
            kBottomToTop (fst (SetNodePosition amb16 (mkPoint (5 # 2) (-3))
                                 ExampleItems.with_inputs)) _ _)))));
    vm_compute; discriminate.
Defined.

(** ** [NodeViewItem]: input rows *)


Lemma GetInputRect_expanded (i : Z) (it : NodeViewItem) :
  expanded_ it = true ->
  GetInputRect i it
  = QRectF_translate 0 (height (title_bar_rect_ it) *
                        inject_Z (if hide_titlebar_ it then i else i + 1))%Q
                     (title_bar_rect_ it).
Proof.
  intros He. unfold GetInputRect, IsExpanded. rewrite He.
  destruct (hide_titlebar_ it); reflexivity.
Qed.




(** ** [NodeViewItem::GetIndexAt] *)

Lemma GetIndexAt_from_spec (rest : list string) (i : Z) (pt : QPointF) (it : NodeViewItem) :
  let r := GetIndexAt_from i rest pt it in
  let n := Z.of_nat (length rest) in
  (r = -1 /\ forall k, i <= k < i + n -> QRectF_contains (GetInputRect k it) pt = false) \/
  (i <= r < i + n /\ QRectF_contains (GetInputRect r it) pt = true /\
   forall k, i <= k < r -> QRectF_contains (GetInputRect k it) pt = false).
Proof.
  revert i. induction rest as [|s rest IH]; intros i; cbn zeta.
  - left. split; [reflexivity|]. cbn. intros k Hk. lia.
  - cbn [GetIndexAt_from length].
    destruct (QRectF_contains (GetInputRect i it) pt) eqn:Hc.
    + right. split; [lia|]. split; [exact Hc|]. intros k Hk. lia.
    + destruct (IH (i + 1)) as [[Hr Hall]|(Hr & Hcr & Hall)].
      * left. split; [exact Hr|]. intros k Hk.
        destruct (Z.eq_dec k i) as [->|Hne]; [exact Hc|]. apply Hall. lia.
      * right. split; [lia|]. split; [exact Hcr|]. intros k Hk.
        destruct (Z.eq_dec k i) as [->|Hne]; [exact Hc|]. apply Hall. lia.
Qed.

(** X4.  [GetIndexAt] answers either [-1] or the index of one of the item's
    inputs.  It answers [-1] exactly when no input row contains the point
    (taken relative to the item's position), and otherwise the first row
    that contains it. *)
Theorem GetIndexAt_first_row (pt : QPointF) (it : NodeViewItem) :
  let p := point_sub pt (pos (item it)) in
  let r := GetIndexAt pt it in
  let n := Z.of_nat (length (node_inputs_ it)) in
  (r = -1 \/ 0 <= r < n) /\
  (r = -1 <-> forall k, 0 <= k < n -> QRectF_contains (GetInputRect k it) p = false) /\
  (0 <= r ->
   QRectF_contains (GetInputRect r it) p = true /\
   forall k, 0 <= k < r -> QRectF_contains (GetInputRect k it) p = false).
Proof.
  intros p r n.
  assert (r = GetIndexAt_from 0 (node_inputs_ it) p it) as Hdef by reflexivity.
  clearbody r. subst n.
  destruct (GetIndexAt_from_spec (node_inputs_ it) 0 p it) as [[Hr Hall]|(Hr & Hc & Hall)];
    cbn zeta in *; rewrite <- Hdef in *.
  - split; [left; exact Hr|]. split.
    + split; [intros _ k Hk; apply Hall; lia|intros _; exact Hr].
    + intros H0. lia.
  - split; [right; lia|]. split.
    + split; [intros Hm; lia|].
      intros Hnone. rewrite Hnone in Hc by lia. discriminate.
    + intros _. split; [exact Hc|]. intros k Hk. apply Hall. lia.
Qed.

Lemma Qlt_bool_iff (a b : Q) : Qlt_bool a b = true <-> (a < b)%Q.
Proof.
  unfold Qlt_bool. rewrite negb_true_iff. split.
  - intros H. apply Qnot_le_lt. intros Hle. apply Qle_bool_iff in Hle. congruence.
  - intros H. apply not_true_is_false. intros Hle. apply Qle_bool_iff in Hle.
    apply (Qlt_not_le _ _ H Hle).
Qed.

Lemma Qlt_bool_false_iff (a b : Q) : Qlt_bool a b = false <-> (b <= a)%Q.
Proof.
  unfold Qlt_bool. rewrite negb_false_iff. apply Qle_bool_iff.
Qed.

(** A rectangle of positive width and height contains the points between
    its edges, the edges included. *)
Lemma QRectF_contains_positive (r : QRectF) (p : QPointF) :
  (0 < rw r)%Q -> (0 < rh r)%Q ->
  QRectF_contains r p = true <->
  (rx r <= px p /\ px p <= rx r + rw r /\ ry r <= py p /\ py p <= ry r + rh r)%Q.
Proof.
  intros Hw Hh. unfold QRectF_contains.
  assert (Qlt_bool (rw r) 0 = false) as -> by (apply Qlt_bool_false_iff; lra).
  assert (Qlt_bool (rh r) 0 = false) as -> by (apply Qlt_bool_false_iff; lra).
  assert (Qeq_bool (rx r) (rx r + rw r) = false) as ->.
  { apply not_true_is_false. intros H. apply Qeq_bool_iff in H. lra. }
  assert (Qeq_bool (ry r) (ry r + rh r) = false) as ->.
  { apply not_true_is_false. intros H. apply Qeq_bool_iff in H. lra. }
  destruct (Qlt_bool (px p) (rx r)) eqn:H1; cbn [orb].
  { apply Qlt_bool_iff in H1. split; [discriminate|]. intros (? & _). lra. }
  apply Qlt_bool_false_iff in H1.
  destruct (Qlt_bool (rx r + rw r) (px p)) eqn:H2; cbn [orb].
  { apply Qlt_bool_iff in H2. split; [discriminate|]. intros (? & ? & _). lra. }
  apply Qlt_bool_false_iff in H2.
  destruct (Qlt_bool (py p) (ry r)) eqn:H3; cbn [orb].
  { apply Qlt_bool_iff in H3. split; [discriminate|]. intros (? & ? & ? & _). lra. }
  apply Qlt_bool_false_iff in H3.
  destruct (Qlt_bool (ry r + rh r) (py p)) eqn:H4; cbn [orb].
  { apply Qlt_bool_iff in H4. split; [discriminate|]. intros (? & ? & ? & ?). lra. }
  apply Qlt_bool_false_iff in H4.
  split; [intros _; repeat split; assumption|reflexivity].
Qed.

(** X5.  Centre of a row, there and back: on an expanded item whose title
    bar has positive width and height, [GetIndexAt] at the scene position of
    the centre of input row [i] answers [i], for every input index [i]. *)
Theorem GetIndexAt_row_center (i : Z) (it : NodeViewItem) :
  expanded_ it = true ->
  (0 < width (title_bar_rect_ it))%Q -> (0 < height (title_bar_rect_ it))%Q ->
  0 <= i < Z.of_nat (length (node_inputs_ it)) ->
  GetIndexAt (point_add (pos (item it)) (center (GetInputRect i it))) it = i.
Proof.
  intros He Hw Hh Hi.
  set (pt := point_add (pos (item it)) (center (GetInputRect i it))).
  set (p := point_sub pt (pos (item it))).
  assert (forall k, QRectF_contains (GetInputRect k it) p = true <-> k = i) as Hrow.
  { intros k. rewrite QRectF_contains_positive;
      [|rewrite GetInputRect_expanded by exact He; exact Hw
       |rewrite GetInputRect_expanded by exact He; exact Hh].
    subst p pt. rewrite !GetInputRect_expanded by exact He.
    unfold point_sub, point_add, center, QRectF_translate, width, height in *.
    cbn [px py rx ry rw rh].
    set (h := rh (title_bar_rect_ it)) in *. set (w := rw (title_bar_rect_ it)) in *.
    set (K := inject_Z (if hide_titlebar_ it then k else k + 1)).
    set (I := inject_Z (if hide_titlebar_ it then i else i + 1)).
    split.
    - intros (_ & _ & Hy1 & Hy2).
      destruct (Z.lt_trichotomy k i) as [Hlt|[Heq|Hgt]]; [exfalso|exact Heq|exfalso].
      + assert (K + 1 <= I)%Q as HKI.
        { subst K I. change 1%Q with (inject_Z 1). rewrite <- inject_Z_plus.
          rewrite <- Zle_Qle. destruct (hide_titlebar_ it); lia. }
        clearbody K I h w.
        assert (h / 2 == h * (1 # 2))%Q as E by field. rewrite E in Hy1, Hy2.
        assert (0 <= h * (I - K - 1))%Q by (apply Qmult_le_0_compat; lra). lra.
      + assert (I + 1 <= K)%Q as HKI.
        { subst K I. change 1%Q with (inject_Z 1). rewrite <- inject_Z_plus.
          rewrite <- Zle_Qle. destruct (hide_titlebar_ it); lia. }
        clearbody K I h w.
        assert (h / 2 == h * (1 # 2))%Q as E by field. rewrite E in Hy1, Hy2.
        assert (0 <= h * (K - I - 1))%Q by (apply Qmult_le_0_compat; lra). lra.
    - intros ->. change K with I. clearbody I h w.
      assert (h / 2 == h * (1 # 2))%Q as E1 by field.
      assert (w / 2 == w * (1 # 2))%Q as E2 by field.
      rewrite E1, E2. repeat split; lra. }
  destruct (GetIndexAt_from_spec (node_inputs_ it) 0 p it) as [[Hr Hall]|(Hr & Hc & Hall)];
    cbn zeta in *.
  - specialize (Hall i). rewrite (proj2 (Hrow i) eq_refl) in Hall.
    discriminate Hall. lia.
  - apply Hrow in Hc. exact Hc.
Qed.

Lemma GetIndexAt_row_center_witness :
  GetIndexAt (point_add (pos (item (fst (SetExpanded true false ExampleItems.with_inputs))))
                (center (GetInputRect 1 (fst (SetExpanded true false ExampleItems.with_inputs)))))
             (fst (SetExpanded true false ExampleItems.with_inputs)) = 1.
Proof.
  apply (GetIndexAt_row_center 1 (fst (SetExpanded true false ExampleItems.with_inputs))).
  - reflexivity.
  - reflexivity.
  - reflexivity.
  - vm_compute. split; [discriminate|reflexivity].
Defined.

Lemma GetInputRect_collapsed (i : Z) (it : NodeViewItem) :
  expanded_ it = false -> GetInputRect i it = title_bar_rect_ it.
Proof. intros He. unfold GetInputRect, IsExpanded. rewrite He. reflexivity. Qed.

(** X6.  On a collapsed item all input rows are the title bar, so
    [GetIndexAt] cannot tell the inputs apart: it answers 0 for every point
    on the title bar of an item that has inputs, and [-1] otherwise. *)
Theorem GetIndexAt_collapsed (pt : QPointF) (it : NodeViewItem) :
  expanded_ it = false ->
  GetIndexAt pt it =
    if QRectF_contains (title_bar_rect_ it) (point_sub pt (pos (item it)))
       && negb (bool_decide (node_inputs_ it = []))
    then 0 else -1.
Proof.
  intros He. unfold GetIndexAt.
  destruct (node_inputs_ it) as [|s rest]; [rewrite andb_false_r; reflexivity|].
  cbn [GetIndexAt_from]. rewrite GetInputRect_collapsed by exact He.
  destruct (QRectF_contains _ _) eqn:Hc; [reflexivity|]. cbn.
  generalize (0 + 1). induction rest as [|s' rest IH]; intros j; [reflexivity|].
  cbn [GetIndexAt_from]. rewrite GetInputRect_collapsed, Hc by exact He. apply IH.
Qed.

Lemma GetIndexAt_collapsed_witness :
  GetIndexAt (mkPoint 70 5) ExampleItems.with_inputs = 0.
Proof.
  rewrite (GetIndexAt_collapsed (mkPoint 70 5) ExampleItems.with_inputs); reflexivity.
Defined.

(** ** [NodeViewItem]: connection points *)

Lemma indexOf_from_In (i : Z) (s : string) (l : list string) :
  In s l ->
  let r := indexOf_from i s l in
  i <= r < i + Z.of_nat (length l) /\ nth (Z.to_nat (r - i)) l ""%string = s.
Proof.
  revert i. induction l as [|x l IH]; intros i Hin; [destruct Hin|].
  cbn [indexOf_from]. destruct (String.eqb_spec x s) as [->|Hne].
  - cbn [length]. split; [lia|]. rewrite Z.sub_diag. reflexivity.
  - destruct Hin as [Heq|Hin]; [congruence|].
    destruct (IH (i + 1) Hin) as [Hr Hn]. cbn zeta in *. cbn [length].
    split; [lia|].
    replace (Z.to_nat (indexOf_from (i + 1) s l - i))
      with (S (Z.to_nat (indexOf_from (i + 1) s l - (i + 1)))) by lia.
    exact Hn.
Qed.

Lemma indexOf_from_not_In (i : Z) (s : string) (l : list string) :
  ~ In s l -> indexOf_from i s l = -1.
Proof.
  revert i. induction l as [|x l IH]; intros i Hnin; [reflexivity|].
  cbn [indexOf_from]. destruct (String.eqb_spec x s) as [->|Hne].
  - destruct Hnin. left. reflexivity.
  - apply IH. intros H. apply Hnin. right. exact H.
Qed.

(** X7.  On an expanded item an input's connection point always lies on the
    left or the right edge of a row, at the row's mid-height, in every flow
    direction; the row is that of the first input with the given name.  For
    a name the item does not list the row index is [-1]: with the title bar
    shown that is the title bar itself, with the title bar hidden it is the
    row above the item. *)
Theorem GetInputPoint_expanded (amb : Ambient) (input : string) (element : Z)
    (source_pos : QPointF) (it : NodeViewItem) :
  expanded_ it = true ->
  let i := indexOf input (node_inputs_ it) in
  let row := GetInputRect i it in
  let p := GetInputPoint amb input element source_pos it in
  py p = (py (pos (item it)) + py (center row))%Q /\
  (px p = (px (pos (item it)) + left row)%Q \/ px p = (px (pos (item it)) + right row)%Q) /\
  (In input (node_inputs_ it) ->
   0 <= i < Z.of_nat (length (node_inputs_ it)) /\
   nth (Z.to_nat i) (node_inputs_ it) ""%string = input) /\
  (~ In input (node_inputs_ it) ->
   i = -1 /\
   if hide_titlebar_ it
   then (bottom row == top (title_bar_rect_ it))%Q
   else (top row == top (title_bar_rect_ it))%Q).
Proof.
  intros He i row p.
  assert (p = point_add (pos (item it)) (GetInputPointInternal amb i source_pos it)) as Hp.
  { subst p. unfold GetInputPoint. rewrite He. reflexivity. }
  split; [|split; [|split]].
  - rewrite Hp. unfold GetInputPointInternal, IsExpanded. rewrite He, orb_true_r.
    fold row. destruct (_ || _); reflexivity.
  - rewrite Hp. unfold GetInputPointInternal, IsExpanded. rewrite He, orb_true_r.
    fold row. destruct (_ || _); [left|right]; reflexivity.
  - intros Hin. destruct (indexOf_from_In 0 input _ Hin) as [Hr Hn]. cbn zeta in *.
    fold (indexOf input (node_inputs_ it)) in Hr, Hn. fold i in Hr, Hn.
    rewrite Z.sub_0_r in Hn. split; [lia|exact Hn].
  - intros Hnin. assert (i = -1) as Hi by (apply indexOf_from_not_In, Hnin).
    split; [exact Hi|]. subst row. rewrite Hi, GetInputRect_expanded by exact He.
    unfold top, bottom, QRectF_translate, height. cbn [rx ry rw rh].
    destruct (hide_titlebar_ it).
    + change (inject_Z (-1)) with (-1 # 1). ring.
    + change (inject_Z (-1 + 1)) with 0%Q. ring.
Qed.

Lemma GetInputPoint_expanded_witness :
  indexOf "nope" (node_inputs_ (fst (SetExpanded true false ExampleItems.with_inputs))) = -1 /\
  (top (GetInputRect (-1) (fst (SetExpanded true false ExampleItems.with_inputs)))
   == top (title_bar_rect_ (fst (SetExpanded true false ExampleItems.with_inputs))))%Q.
Proof.
  refine (proj2 (proj2 (proj2 (GetInputPoint_expanded amb16 "nope" 0 (mkPoint 0 0)
            (fst (SetExpanded true false ExampleItems.with_inputs)) _))) _).
  - reflexivity.
  - vm_compute. intros [H|[H|[]]]; discriminate H.
Defined.

(** X8.  [SetFlowDirection] places the two connectors so that, on a
    collapsed item, the input connection point and the output connection
    point are mirror images about the centre of the item's rectangle, in
    every flow direction. *)
Theorem SetFlowDirection_connection_points_mirror (amb : Ambient)
    (connector_SetFlowDirection : FlowDirection -> NodeViewItemConnector -> NodeViewItemConnector)
    (dir : FlowDirection) (input : string) (element : Z) (source_pos : QPointF)
    (it : NodeViewItem) :
  expanded_ it = false ->
  let it' := fst (SetFlowDirection amb connector_SetFlowDirection dir it) in
  let c := point_add (pos (item it')) (center (rect it')) in
  point_eq (point_add (GetInputPoint amb input element source_pos it') (GetOutputPoint it'))
           (point_add c c).
Proof.
  intros He it' c. subst c.
  unfold SetFlowDirection, UpdateNodePosition in it'.
  set (it1 := UpdateConnectorPositions _) in it'.
  destruct (NodeViewItem_setPos_state
              (NodeToScreenPoint amb (cached_node_pos_ it1) (flow_dir_ it1)) it1)
    as (_ & Hdir & _ & Hrect & Hexp & _ & _ & Hic & Hoc & _).
  fold it' in Hdir, Hrect, Hexp, Hic, Hoc.
  assert (expanded_ it1 = false) as He1.
  { subst it1. unfold UpdateConnectorPositions. cbn. destruct dir; exact He. }
  unfold GetInputPoint, GetOutputPoint. rewrite Hexp, He1, Hdir, Hrect, Hic, Hoc.
  generalize (pos (item it')). intros q.
  subst it1. unfold UpdateConnectorPositions. cbn.
  destruct dir; unfold point_eq, point_add, center, left, right, top, bottom, width, height;
    cbn; split; field.
Qed.

Lemma SetFlowDirection_connection_points_mirror_witness :
  point_eq
    (point_add
       (GetInputPoint amb16 "tex_in" 0 (mkPoint 0 0)
          (fst (SetFlowDirection amb16 (fun _ c => c) kTopToBottom ExampleItems.with_inputs)))
       (GetOutputPoint
          (fst (SetFlowDirection amb16 (fun _ c => c) kTopToBottom ExampleItems.with_inputs))))
    (point_add
       (point_add
          (pos (item (fst (SetFlowDirection amb16 (fun _ c => c) kTopToBottom
                             ExampleItems.with_inputs))))
          (center (rect (fst (SetFlowDirection amb16 (fun _ c => c) kTopToBottom
                                ExampleItems.with_inputs)))))
       (point_add
          (pos (item (fst (SetFlowDirection amb16 (fun _ c => c) kTopToBottom
                             ExampleItems.with_inputs))))
          (center (rect (fst (SetFlowDirection amb16 (fun _ c => c) kTopToBottom
                                ExampleItems.with_inputs)))))).
Proof.
  apply (SetFlowDirection_connection_points_mirror amb16 (fun _ c => c) kTopToBottom
           "tex_in" 0 (mkPoint 0 0) ExampleItems.with_inputs).
  reflexivity.
Defined.

(** ** [NodeViewItem]: toggling and changing the node *)

(** X9.  [ToggleExpanded] twice: an item without inputs is returned as it
    is; an item with inputs gets its expanded flag back, but the title-bar
    flag ends as the default of [SetExpanded]'s second parameter and the
    rectangle as the one for that pair of flags.  For an item whose
    rectangle agreed with its flags, two toggles give the rectangle back
    when the item was collapsed or its title-bar flag was the default; an
    expanded item with the other title-bar flag and a title bar of non-zero
    height ends with a rectangle of a different height. *)
Theorem ToggleExpanded_twice (amb : Ambient) (it : NodeViewItem) :
  let it2 := fst (ToggleExpanded amb (fst (ToggleExpanded amb it))) in
  (node_inputs_ it = [] -> it2 = it) /\
  (node_inputs_ it <> [] ->
   expanded_ it2 = expanded_ it /\
   hide_titlebar_ it2 = default_hide_titlebar amb /\
   node_inputs_ it2 = node_inputs_ it /\
   title_bar_rect_ it2 = title_bar_rect_ it /\
   rect_agrees it2 /\
   (expanded_ it = false \/ hide_titlebar_ it = default_hide_titlebar amb ->
    rect_agrees it -> rect it2 = rect it) /\
   (expanded_ it = true -> hide_titlebar_ it <> default_hide_titlebar amb ->
    rect_agrees it -> ~ (height (title_bar_rect_ it) == 0)%Q ->
    ~ (height (rect it2) == height (rect it))%Q)).
Proof.
  intros it2. split.
  - intros Hin. subst it2. unfold ToggleExpanded, IsExpanded.
    assert (forall e h, SetExpanded e h it = (it, [])) as Hnoop.
    { intros e h. unfold SetExpanded. rewrite (bool_decide_eq_true_2 _ Hin). reflexivity. }
    rewrite ?Hnoop. cbn [fst]. rewrite ?Hnoop. reflexivity.
  - intros Hin. subst it2. unfold ToggleExpanded, IsExpanded.
    set (dh := default_hide_titlebar amb).
    destruct (SetExpanded_effective (negb (expanded_ it)) dh it Hin)
      as (He1 & Hh1 & Hi1 & Ht1 & Hr1).
    { left. destruct (expanded_ it); discriminate. }
    set (it1 := fst (SetExpanded (negb (expanded_ it)) dh it)) in *.
    assert (node_inputs_ it1 <> []) as Hin1 by (rewrite Hi1; exact Hin).
    destruct (SetExpanded_effective (negb (expanded_ it1)) dh it1 Hin1)
      as (He2 & Hh2 & Hi2 & Ht2 & Hr2).
    { left. destruct (expanded_ it1); discriminate. }
    set (it2 := fst (SetExpanded (negb (expanded_ it1)) dh it1)) in *.
    assert (expanded_ it2 = expanded_ it) as He.
    { rewrite He2, He1. apply negb_involutive. }
    assert (rect_agrees it2) as Hag2.
    { unfold rect_agrees, expected_rect. rewrite Hr2, He2, Hh2, Hi2, Ht2.
      rewrite (bool_decide_eq_false_2 _ Hin1). destruct (negb (expanded_ it1)); reflexivity. }
    split; [exact He|]. split; [exact Hh2|]. split; [congruence|]. split; [congruence|].
    split; [exact Hag2|]. split.
    + intros Hcase Hag. rewrite Hag2, Hag. unfold expected_rect.
      rewrite He, Hh2, Hi2, Hi1, Ht2, Ht1.
      destruct Hcase as [Hc|Hh]; [rewrite Hc|rewrite Hh]; reflexivity.
    + intros Hexp Hh Hag Hnz. rewrite Hag2, Hag. unfold expected_rect.
      rewrite He, Hh2, Hi2, Hi1, Ht2, Ht1, Hexp.
      rewrite (bool_decide_eq_false_2 _ Hin). cbn [andb negb height rh setHeight].
      set (H := height (title_bar_rect_ it)) in *.
      set (N := Z.of_nat (length (node_inputs_ it))).
      assert (H * inject_Z (N + 1) == H * inject_Z N + H)%Q as Hplus.
      { rewrite inject_Z_plus. change (inject_Z 1) with 1%Q. ring. }
      clearbody H N. fold dh in Hh.
      destruct (hide_titlebar_ it), dh; try congruence; rewrite Hplus; intros Heq;
        apply Hnz; lra.
Qed.

Lemma ToggleExpanded_twice_witness :
  rect (fst (ToggleExpanded amb16 (fst (ToggleExpanded amb16 ExampleItems.with_inputs))))
  = rect ExampleItems.with_inputs /\
  ~ (height (rect (fst (ToggleExpanded amb16
                     (fst (ToggleExpanded amb16 ExampleItem_expanded_no_titlebar)))))
     == height (rect ExampleItem_expanded_no_titlebar))%Q.
Proof.
  split.
  - refine (proj1 (proj2 (proj2 (proj2 (proj2 (proj2
      (proj2 (ToggleExpanded_twice amb16 ExampleItems.with_inputs) _)))))) _ _).
    + vm_compute. discriminate.
    + left. reflexivity.
    + reflexivity.
  - refine (proj2 (proj2 (proj2 (proj2 (proj2 (proj2
      (proj2 (ToggleExpanded_twice amb16 ExampleItem_expanded_no_titlebar) _)))))) _ _ _ _).
    + vm_compute. discriminate.
    + reflexivity.
    + vm_compute. discriminate.
    + reflexivity.
    + vm_compute. discriminate.
Defined.

Lemma SetExpanded_same_flags (it : NodeViewItem) :
  SetExpanded (expanded_ it) (hide_titlebar_ it) it = (it, []).
Proof.
  unfold SetExpanded. rewrite !Bool.eqb_reflx. cbn [andb]. rewrite orb_true_r. reflexivity.
Qed.

(** X10.  [SetNode] takes over the node's connectable inputs, in the node's
    order, and shows the input connector exactly when there is one; it
    leaves the expansion flags and the rectangle alone.  An expanded item
    that is given a node with a different, non-zero number of connectable
    inputs therefore keeps a rectangle whose height is no longer the one
    its flags call for, and [SetExpanded] with the flags the item already
    has does not repair it. *)
Theorem SetNode_keeps_rectangle (inputs : Node -> list string)
    (IsInputConnectable : Node -> string -> bool) (n : Node) (it : NodeViewItem) :
  let it' := fst (SetNode inputs IsInputConnectable (Some n) it) in
  node_ it' = Some n /\
  node_inputs_ it' = filter (fun i => IsInputConnectable n i = true) (inputs n) /\
  isVisible (connector_item (input_connector_ it'))
    = negb (bool_decide (node_inputs_ it' = [])) /\
  rect it' = rect it /\ expanded_ it' = expanded_ it /\
  hide_titlebar_ it' = hide_titlebar_ it /\ title_bar_rect_ it' = title_bar_rect_ it /\
  SetExpanded (expanded_ it') (hide_titlebar_ it') it' = (it', []) /\
  (expanded_ it = true -> rect_agrees it ->
   node_inputs_ it <> [] -> node_inputs_ it' <> [] ->
   length (node_inputs_ it') <> length (node_inputs_ it) ->
   ~ (height (title_bar_rect_ it) == 0)%Q ->
   ~ (height (rect it') == height (expected_rect it'))%Q).
Proof.
  intros it'. pose proof (SetExpanded_same_flags it') as Hsame.
  subst it'. cbn [SetNode fst] in *.
  set (ins := filter (fun i => IsInputConnectable n i = true) (inputs n)) in *.
  cbn [node_ node_inputs_ with_connectors with_node rect expanded_ hide_titlebar_
       title_bar_rect_ input_connector_ connector_setVisible connector_item setVisible
       isVisible].
  repeat (split; [reflexivity|]).
  split; [exact Hsame|].
  intros He Hag Hin Hin' Hlen Hh.
  unfold expected_rect.
  cbn [node_inputs_ expanded_ hide_titlebar_ title_bar_rect_ with_connectors with_node].
  rewrite He, (bool_decide_eq_false_2 _ Hin'). cbn [andb negb].
  rewrite Hag. unfold expected_rect. rewrite He, (bool_decide_eq_false_2 _ Hin).
  cbn [andb negb]. unfold height, setHeight. cbn [rh].
  intros Heq. apply Hh. unfold height.
  assert (forall a b : Z, a <> b ->
            (rh (title_bar_rect_ it) * inject_Z a == rh (title_bar_rect_ it) * inject_Z b)%Q ->
            (rh (title_bar_rect_ it) == 0)%Q) as Hcancel.
  { intros a b Hab E.
    assert (rh (title_bar_rect_ it) * (inject_Z a - inject_Z b) == 0)%Q as E0
      by (rewrite Qmult_minus_distr_r || (ring_simplify; rewrite E; ring)).
    apply Qmult_integral in E0 as [E0|E0]; [exact E0|].
    exfalso. apply Hab. apply (proj1 (inject_Z_injective a b)). lra. }
  destruct (hide_titlebar_ it); eapply Hcancel; try exact Heq; lia.
Qed.

Lemma SetNode_keeps_rectangle_witness :
  ~ (height (rect (fst (SetNode ExampleTitle.more_inputs (fun _ _ => true) (Some 3%positive)
                          (fst (SetExpanded true false ExampleItems.with_inputs))))) ==
     height (expected_rect
               (fst (SetNode ExampleTitle.more_inputs (fun _ _ => true) (Some 3%positive)
                       (fst (SetExpanded true false ExampleItems.with_inputs))))))%Q.
Proof.
  refine (proj2 (proj2 (proj2 (proj2 (proj2 (proj2 (proj2 (proj2
    (SetNode_keeps_rectangle ExampleTitle.more_inputs (fun _ _ => true) 3%positive
       (fst (SetExpanded true false ExampleItems.with_inputs)))))))))) _ _ _ _ _ _);
    try reflexivity; vm_compute; discriminate.
Defined.

(** ** [NodeViewItem::DrawNodeTitle]: fitting the label *)

Section TitleFacts.

Variable QFontMetricsWidth : string -> Z.
Variable tr_ellipsis : string -> string.

Lemma shorten_stops (max_text_width : Z) (k : nat) :
  forall (fuel : nat) (text : string),
  (1 <= k <= fuel)%nat ->
  (forall j, (1 <= j < k)%nat ->
     max_text_width < QFontMetricsWidth (tr_ellipsis (chop j text))) ->
  QFontMetricsWidth (tr_ellipsis (chop k text)) <= max_text_width ->
  shorten QFontMetricsWidth tr_ellipsis fuel max_text_width text
  = Some (tr_ellipsis (chop k text), QFontMetricsWidth (tr_ellipsis (chop k text))).
Proof.
  induction k as [|k IH]; intros fuel text Hk Hwide Hfit; [lia|].
  destruct fuel as [|fuel]; [lia|]. cbn [shorten].
  destruct k as [|k].
  - cbn [chop] in Hfit.
    destruct (Z.gtb_spec (QFontMetricsWidth (tr_ellipsis (chop1 text))) max_text_width);
      [lia|reflexivity].
  - pose proof (Hwide 1%nat ltac:(lia)) as H1. cbn [chop] in H1.
    destruct (Z.gtb_spec (QFontMetricsWidth (tr_ellipsis (chop1 text))) max_text_width);
      [|lia].
    change (chop (S (S k)) text) with (chop (S k) (chop1 text)).
    apply IH; [lia| |exact Hfit].
    intros j Hj. apply (Hwide (S j)). lia.
Qed.

Lemma shorten_never_stops (max_text_width : Z) (fuel : nat) :
  forall text : string,
  (forall j, (1 <= j)%nat ->
     max_text_width < QFontMetricsWidth (tr_ellipsis (chop j text))) ->
  shorten QFontMetricsWidth tr_ellipsis fuel max_text_width text = None.
Proof.
  induction fuel as [|fuel IH]; intros text Hwide; [reflexivity|].
  cbn [shorten]. pose proof (Hwide 1%nat ltac:(lia)) as H1. cbn [chop] in H1.
  destruct (Z.gtb_spec (QFontMetricsWidth (tr_ellipsis (chop1 text))) max_text_width);
    [|lia].
  apply IH. intros j Hj. apply (Hwide (S j)). lia.
Qed.

Lemma chop_empty (k : nat) : chop k ""%string = ""%string.
Proof. induction k as [|k IH]; [reflexivity|exact IH]. Qed.

Lemma chop1_length (s : string) : String.length (chop1 s) = Nat.pred (String.length s).
Proof.
  induction s as [|c s IH]; [reflexivity|].
  destruct s as [|c' s']; [reflexivity|].
  change (chop1 (String c (String c' s'))) with (String c (chop1 (String c' s'))).
  cbn [String.length] in *. rewrite IH. reflexivity.
Qed.

Lemma chop_length (k : nat) (s : string) :
  String.length (chop k s) = (String.length s - k)%nat.
Proof.
  revert s. induction k as [|k IH]; intros s; cbn [chop]; [lia|].
  rewrite IH, chop1_length. lia.
Qed.

Lemma chop_all (k : nat) (s : string) :
  (String.length s <= k)%nat -> chop k s = ""%string.
Proof.
  intros H. pose proof (chop_length k s) as Hl.
  destruct (chop k s); [reflexivity|]. cbn in Hl. lia.
Qed.

End TitleFacts.

Section DrawNodeTitleFacts.

Variable amb : Ambient.
Variable QFontMetricsWidth : string -> Z.
Variable tr_ellipsis : string -> string.
Variable m11 : Q.
Variable node_color : Node -> Z.
Variable GetUISelectorColor : Z -> Z.

Lemma drawn_label_last (a b : list PainterCall) (p : PainterCall)
    (r : QRectF) (flags : Z) (text : string) :
  drawn_label (a ++ b ++ [p; drawText r flags text]) = Some (text, flags, r).
Proof.
  unfold drawn_label.
  change [p; drawText r flags text] with ([p] ++ [drawText r flags text]).
  rewrite !app_assoc, last_snoc. reflexivity.
Qed.

(** [DrawNodeTitle] once the label is settled. *)
Lemma DrawNodeTitle_fitted (fuel : nat) (text : string) (rect : QRectF) (vertical_align : Z)
    (icon_size : Z) (draw_arrow : bool) (it : NodeViewItem) (n : Node)
    (label : string) (label_width : Z) :
  node_ it = Some n ->
  (if QFontMetricsWidth text >? title_max_text_width amb icon_size it
   then shorten QFontMetricsWidth tr_ellipsis fuel (title_max_text_width amb icon_size it) text
   else Some (text, QFontMetricsWidth text)) = Some (label, label_width) ->
  exists calls flags r,
    DrawNodeTitle amb QFontMetricsWidth tr_ellipsis m11 node_color GetUISelectorColor
      fuel text rect vertical_align icon_size draw_arrow it = Some calls /\
    drawn_label calls = Some (label, flags, r).
Proof.
  intros Hn Hfit. unfold DrawNodeTitle.
  change (Qtrunc (width (title_bar_rect_ it)) - DefaultTextPadding amb * 2 -
          (icon_size + Qtrunc (height (title_bar_rect_ it) / 2
                               - inject_Z (Z.quot icon_size 2)) * 2))
    with (title_max_text_width amb icon_size it).
  rewrite Hfit. cbn [mbind option_bind fst snd]. rewrite Hn. cbn [mbind option_bind].
  destruct (_ <? _); eexists _, _, _; (split; [reflexivity|]); apply drawn_label_last.
Qed.

(** X11.  The label [DrawNodeTitle] draws fits the space left for it.  A
    text that is not wider than [title_max_text_width] is drawn as it is.
    A wider text is drawn as the ellipsis form of its longest proper prefix
    whose ellipsis form fits: with [k >= 1] the least number of characters
    to chop for that, the drawn label is the ellipsis form of the text
    without its last [k] characters, and the loop ends after [k] rounds. *)
Theorem DrawNodeTitle_label_fits (fuel : nat) (text : string) (rect : QRectF)
    (vertical_align : Z) (icon_size : Z) (draw_arrow : bool) (it : NodeViewItem) (n : Node) :
  node_ it = Some n ->
  let max_text_width := title_max_text_width amb icon_size it in
  (QFontMetricsWidth text <= max_text_width ->
   exists calls flags r,
     DrawNodeTitle amb QFontMetricsWidth tr_ellipsis m11 node_color GetUISelectorColor
       fuel text rect vertical_align icon_size draw_arrow it = Some calls /\
     drawn_label calls = Some (text, flags, r)) /\
  (forall k : nat,
   max_text_width < QFontMetricsWidth text ->
   (1 <= k <= fuel)%nat ->
   (forall j, (1 <= j < k)%nat ->
      max_text_width < QFontMetricsWidth (tr_ellipsis (chop j text))) ->
   QFontMetricsWidth (tr_ellipsis (chop k text)) <= max_text_width ->
   exists calls flags r,
     DrawNodeTitle amb QFontMetricsWidth tr_ellipsis m11 node_color GetUISelectorColor
       fuel text rect vertical_align icon_size draw_arrow it = Some calls /\
     drawn_label calls = Some (tr_ellipsis (chop k text), flags, r)).
Proof.
  intros Hn max_text_width. split.
  - intros Hfit. eapply DrawNodeTitle_fitted; [exact Hn|].
    fold max_text_width.
    destruct (Z.gtb_spec (QFontMetricsWidth text) max_text_width); [lia|reflexivity].
  - intros k Hwide Hk Hprefix Hfit. eapply DrawNodeTitle_fitted; [exact Hn|].
    fold max_text_width.
    destruct (Z.gtb_spec (QFontMetricsWidth text) max_text_width); [|lia].
    apply shorten_stops; assumption.
Qed.

(** X12.  When the text is too wide and the ellipsis form of no proper
    prefix fits, not even that of the empty text, the shortening loop of
    [DrawNodeTitle] never ends: no number of rounds gives a result. *)
Theorem DrawNodeTitle_loop_never_ends (fuel : nat) (text : string) (rect : QRectF)
    (vertical_align : Z) (icon_size : Z) (draw_arrow : bool) (it : NodeViewItem) :
  let max_text_width := title_max_text_width amb icon_size it in
  max_text_width < QFontMetricsWidth text ->
  (forall j, (1 <= j < String.length text)%nat ->
     max_text_width < QFontMetricsWidth (tr_ellipsis (chop j text))) ->
  max_text_width < QFontMetricsWidth (tr_ellipsis ""%string) ->
  DrawNodeTitle amb QFontMetricsWidth tr_ellipsis m11 node_color GetUISelectorColor
    fuel text rect vertical_align icon_size draw_arrow it = None.
Proof.
  intros max_text_width Hwide Hprefix Hempty. unfold DrawNodeTitle.
  change (Qtrunc (width (title_bar_rect_ it)) - DefaultTextPadding amb * 2 -
          (icon_size + Qtrunc (height (title_bar_rect_ it) / 2
                               - inject_Z (Z.quot icon_size 2)) * 2))
    with max_text_width.
  destruct (Z.gtb_spec (QFontMetricsWidth text) max_text_width); [|lia].
  rewrite shorten_never_stops; [reflexivity|].
  intros j Hj. destruct (Nat.lt_ge_cases j (String.length text)) as [Hlt|Hge].
  - apply Hprefix. lia.
  - rewrite chop_all by exact Hge. exact Hempty.
Qed.

End DrawNodeTitleFacts.

Example DrawNodeTitle_example :
  drawn_label <$> DrawNodeTitle amb16 ExampleTitle.width8 ExampleTitle.dots 1
                    (fun _ => 0) (fun c => c) 20
                    "A rather long node label" (title_bar_rect_ ExampleTitle.titled)
                    Align.AlignVCenter 8 true ExampleTitle.titled
  = Some (Some ("A rather long..."%string, Z.lor Align.AlignLeft Align.AlignVCenter,
                QRectF_adjust 24 0 0 0 (title_bar_rect_ ExampleTitle.titled))).
Proof. vm_compute. reflexivity. Qed.

Lemma DrawNodeTitle_label_fits_witness :
  exists calls flags r,
    DrawNodeTitle amb16 ExampleTitle.width8 ExampleTitle.dots 1 (fun _ => 0) (fun c => c) 20
      "A rather long node label" (title_bar_rect_ ExampleTitle.titled)
      Align.AlignVCenter 8 true ExampleTitle.titled = Some calls /\
    drawn_label calls
    = Some (ExampleTitle.dots (chop 11 "A rather long node label"), flags, r).
Proof.
  refine (proj2 (DrawNodeTitle_label_fits amb16 ExampleTitle.width8 ExampleTitle.dots 1
            (fun _ => 0) (fun c => c) 20 "A rather long node label"
            (title_bar_rect_ ExampleTitle.titled) Align.AlignVCenter 8 true
            ExampleTitle.titled 1%positive _) 11%nat _ _ _ _).
  - reflexivity.
  - vm_compute. reflexivity.
  - lia.
  - intros j Hj.
    do 11 (destruct j as [|j]; [try lia; vm_compute; reflexivity|]). lia.
  - vm_compute. discriminate.
Defined.

Lemma DrawNodeTitle_loop_never_ends_witness :
  DrawNodeTitle amb16 ExampleTitle.width8 ExampleTitle.dots 1 (fun _ => 0) (fun c => c) 1000
    "Blur" (title_bar_rect_ ExampleTitle.narrow) Align.AlignVCenter 8 true ExampleTitle.narrow
  = None.
Proof.
  apply (DrawNodeTitle_loop_never_ends amb16 ExampleTitle.width8 ExampleTitle.dots 1
           (fun _ => 0) (fun c => c) 1000 "Blur" (title_bar_rect_ ExampleTitle.narrow)
           Align.AlignVCenter 8 true ExampleTitle.narrow).
  - vm_compute. reflexivity.
  - intros j Hj. do 4 (destruct j as [|j]; [try (cbn in Hj; lia); vm_compute; reflexivity|]).
    cbn in Hj. lia.
  - vm_compute. reflexivity.
Defined.

(** ** Further properties of the scene *)

Section SceneMore.

Variable NodeViewEdge_item_new : QGraphicsItem.

Implicit Types (objs : gmap ptr SceneObject) (s : NodeViewScene) (p e : ptr).

Lemma with_edges_same (it : NodeViewItem) : with_edges (edges_ it) it = it.
Proof. destruct it; reflexivity. Qed.

Lemma removeOne_snoc e (l rest : list ptr) :
  e ∉ l -> removeOne e (l ++ e :: rest) = l ++ rest.
Proof.
  induction l as [|x l IH]; intros Hnin; cbn.
  - rewrite Pos.eqb_refl. reflexivity.
  - apply not_elem_of_cons in Hnin as [Hne Hnin].
    destruct (Pos.eqb_spec x e) as [->|_]; [congruence|]. rewrite IH by exact Hnin.
    reflexivity.
Qed.

Lemma RemoveEdge_AddEdge e (it : NodeViewItem) :
  e ∉ edges_ it -> RemoveEdge e (AddEdge e it) = it.
Proof.
  intros Hnin. unfold RemoveEdge, AddEdge. destruct it; cbn in *.
  rewrite removeOne_snoc by exact Hnin. rewrite app_nil_r. reflexivity.
Qed.

Lemma RemoveEdge_AddEdge_twice e (it : NodeViewItem) :
  e ∉ edges_ it -> RemoveEdge e (RemoveEdge e (AddEdge e (AddEdge e it))) = it.
Proof.
  intros Hnin. unfold RemoveEdge, AddEdge. destruct it; cbn in *.
  rewrite <- app_assoc. cbn. rewrite removeOne_snoc by exact Hnin.
  rewrite removeOne_snoc by exact Hnin. rewrite app_nil_r. reflexivity.
Qed.

(** The heap and the members [AddEdgeInternal] leaves. *)
Lemma AddEdgeInternal_heap s (out : Node) (inp : NodeInput)
    (f t : ptr) (fi ti : NodeViewItem) :
  node_at (objects s) f = Some fi -> node_at (objects s) t = Some ti ->
  let e := fresh (dom (objects s)) in
  exists s',
    AddEdgeInternal NodeViewEdge_item_new s out inp (Some f) (Some t) = Some (e, s') /\
    objects s !! e = None /\ f <> e /\ t <> e /\
    item_map_ s' = item_map_ s /\
    scene_edges_ s' = scene_edges_ s ++ [e] /\
    direction_ s' = direction_ s /\
    curved_edges_ s' = curved_edges_ s /\
    (forall p, objects s' !! p =
       if decide (p = e)
       then Some (OEdge (mkNodeViewEdge (addItem NodeViewEdge_item_new) out inp
                           (Some f) (Some t) (direction_ s) (curved_edges_ s)))
       else if decide (p = t)
       then Some (ONode (AddEdge e (if decide (f = t) then AddEdge e fi else ti)))
       else if decide (p = f) then Some (ONode (AddEdge e fi))
       else objects s !! p).
Proof.
  intros Hf Ht e.
  assert (objects s !! e = None) as He.
  { apply not_elem_of_dom. apply is_fresh. }
  destruct (node_at_not_edge _ _ _ Hf) as [Hfe Hfo].
  destruct (node_at_not_edge _ _ _ Ht) as [Hte Hto].
  unfold AddEdgeInternal. fold e. clearbody e.
  assert (f <> e) as Hfne by congruence.
  assert (t <> e) as Htne by congruence.
  cbn [mbind option_bind edge_item output input from_item to_item].
  assert (node_at (<[e:=OEdge (mkNodeViewEdge NodeViewEdge_item_new out inp (Some f) (Some t)
                                 (direction_ s) (curved_edges_ s))]> (objects s)) f = Some fi) as ->.
  { unfold node_at. rewrite lookup_insert_ne by congruence. rewrite Hfo. reflexivity. }
  cbn [mbind option_bind].
  set (objs2 := <[f:=ONode (AddEdge e fi)]> _).
  assert (node_at objs2 t = Some (if decide (f = t) then AddEdge e fi else ti)) as ->.
  { unfold node_at, objs2. rewrite lookup_insert. case_decide; [reflexivity|].
    rewrite lookup_insert_ne by congruence. rewrite Hto. reflexivity. }
  cbn [mbind option_bind].
  eexists. split; [reflexivity|].
  do 7 (split; [first [assumption|reflexivity]|]).
  cbn [objects with_objects with_scene_edges]. intros p.
  unfold objs2. rewrite !lookup_insert.
  repeat case_decide; simplify_eq; reflexivity.
Qed.

(** The heap and the members [RemoveEdge] leaves when it finds the edge. *)
Lemma RemoveEdge_heap s (out : Node) (inp : NodeInput)
    e (E : NodeViewEdge) (f t : ptr) (fi ti : NodeViewItem) :
  EdgeToUIObject s out inp = Some (Some e) ->
  edge_at (objects s) e = Some E ->
  from_item E = Some f -> to_item E = Some t ->
  node_at (objects s) f = Some fi -> node_at (objects s) t = Some ti ->
  exists s',
    Scene_RemoveEdge s out inp = Some s' /\
    item_map_ s' = item_map_ s /\
    scene_edges_ s' = removeOne e (scene_edges_ s) /\
    direction_ s' = direction_ s /\
    curved_edges_ s' = curved_edges_ s /\
    (forall p, objects s' !! p =
       if decide (p = e) then None
       else if decide (p = t)
       then Some (ONode (RemoveEdge e (if decide (f = t) then RemoveEdge e fi else ti)))
       else if decide (p = f) then Some (ONode (RemoveEdge e fi))
       else objects s !! p).
Proof.
  intros Hfind HE HfE HtE Hf Ht.
  destruct (node_at_not_edge _ _ _ Hf) as [Hfe Hfo].
  destruct (node_at_not_edge _ _ _ Ht) as [Hte Hto].
  assert (objects s !! e = Some (OEdge E)) as Heo.
  { unfold edge_at in HE. destruct (objects s !! e) as [[]|]; simplify_eq. reflexivity. }
  assert (f <> e) as Hfne by congruence.
  assert (t <> e) as Htne by congruence.
  unfold Scene_RemoveEdge. rewrite Hfind. cbn [mbind option_bind].
  rewrite HE. cbn [mbind option_bind]. rewrite HfE. cbn [mbind option_bind].
  rewrite Hf. cbn [mbind option_bind].
  set (objs1 := <[f:=ONode (RemoveEdge e fi)]> (objects s)).
  assert (edge_at objs1 e = Some E) as ->.
  { unfold edge_at, objs1. rewrite lookup_insert_ne, Heo by congruence. reflexivity. }
  cbn [mbind option_bind]. rewrite HtE. cbn [mbind option_bind].
  assert (node_at objs1 t = Some (if decide (f = t) then RemoveEdge e fi else ti)) as ->.
  { unfold node_at, objs1. rewrite lookup_insert. case_decide; [reflexivity|].
    rewrite Hto. reflexivity. }
  cbn [mbind option_bind].
  eexists. split; [reflexivity|].
  do 4 (split; [reflexivity|]).
  cbn [objects with_objects with_scene_edges]. intros p.
  rewrite lookup_delete. unfold objs1. rewrite !lookup_insert.
  repeat case_decide; simplify_eq; reflexivity.
Qed.

(** In a scene that satisfies the invariant, the lookup finds a listed edge
    by its endpoints. *)
Lemma find_edge_found s (out : Node) (inp : NodeInput) e (E : NodeViewEdge) :
  scene_ok s -> e ∈ scene_edges_ s -> edge_at (objects s) e = Some E ->
  output E = out -> input E = inp ->
  EdgeToUIObject s out inp = Some (Some e).
Proof.
  intros Hok Hin HE Ho Hi. unfold EdgeToUIObject.
  destruct (find_edge_total (objects s) out inp (scene_edges_ s)) as [r Hr].
  { intros e' He'. destruct (ok_edges s Hok e' He') as (E' & _ & _ & -> & _). eauto. }
  rewrite Hr. destruct r as [e'|].
  - destruct (find_edge_Some _ _ _ _ _ Hr) as (Hin' & E' & HE' & Ho' & Hi').
    f_equal. f_equal. apply (ok_unique s Hok e' e E' E); congruence.
  - destruct (find_edge_None _ _ _ _ Hr e E Hin HE). split; assumption.
Qed.

Lemma scene_eq s s' :
  (forall p, objects s' !! p = objects s !! p) ->
  item_map_ s' = item_map_ s -> scene_edges_ s' = scene_edges_ s ->
  direction_ s' = direction_ s -> curved_edges_ s' = curved_edges_ s ->
  s' = s.
Proof.
  destruct s, s'; cbn. intros Ho -> -> -> ->. f_equal. apply map_eq. exact Ho.
Qed.

(** What a successful [AddEdge] that makes a new edge was given. *)
Lemma AddEdge_new_inv s (out : Node) (inp : NodeInput) e s' :
  scene_ok s -> EdgeToUIObject s out inp = Some None ->
  Scene_AddEdge NodeViewEdge_item_new s out inp = Some (e, s') ->
  exists f t fi ti,
    item_map_ s !! out = Some f /\ item_map_ s !! input_node inp = Some t /\
    node_at (objects s) f = Some fi /\ node_at (objects s) t = Some ti /\
    AddEdgeInternal NodeViewEdge_item_new s out inp (Some f) (Some t) = Some (e, s').
Proof.
  intros Hok Hfind Hadd. unfold Scene_AddEdge in Hadd. rewrite Hfind in Hadd.
  cbn [mbind option_bind] in Hadd. unfold NodeToUIObject in Hadd.
  destruct (item_map_ s !! out) as [f|] eqn:Hf.
  2:{ unfold AddEdgeInternal in Hadd. cbn in Hadd. discriminate. }
  destruct (item_map_ s !! input_node inp) as [t|] eqn:Ht.
  2:{ unfold AddEdgeInternal in Hadd. cbn in Hadd.
      destruct (node_at _ f); cbn in Hadd; discriminate. }
  destruct (ok_map s Hok _ _ Hf) as [fi Hfi].
  destruct (ok_map s Hok _ _ Ht) as [ti Hti].
  exists f, t, fi, ti. auto.
Qed.

End SceneMore.

Lemma ExampleScene_with_edge_eq :
  Scene_AddEdge ExampleScene.edge_item_new ExampleScene.scene
    2%positive ExampleScene.input_1_tex
  = Some (12%positive, ExampleScene_with_edge).
Proof. vm_compute. reflexivity. Defined.

Lemma ExampleScene_find_none :
  EdgeToUIObject ExampleScene.scene 2%positive ExampleScene.input_1_tex = Some None.
Proof. vm_compute. reflexivity. Defined.

Lemma ExampleScene_with_edge_ok : scene_ok ExampleScene_with_edge.
Proof.
  destruct (AddEdge_new_ok ExampleScene.edge_item_new ExampleScene.scene
              2%positive ExampleScene.input_1_tex 11%positive 10%positive
              ExampleScene_ok ExampleScene_find_none eq_refl eq_refl)
    as (e & s' & E & Hadd & Hok & _).
  rewrite ExampleScene_with_edge_eq in Hadd. injection Hadd as <- <-. exact Hok.
Defined.

(** X13.  [RemoveEdge] undoes [AddEdge]: when the scene satisfies the
    registration invariant and [AddEdge] makes a new edge for an output
    node and an input, [RemoveEdge] for the same pair returns and gives
    back the scene as it was: the heap, the item map, the edge list and
    every item's edge list. *)
Theorem RemoveEdge_undoes_AddEdge (edge_new : QGraphicsItem) (s : NodeViewScene)
    (out : Node) (inp : NodeInput) (e : ptr) (s' : NodeViewScene) :
  scene_ok s ->
  EdgeToUIObject s out inp = Some None ->
  Scene_AddEdge edge_new s out inp = Some (e, s') ->
  Scene_RemoveEdge s' out inp = Some s.
Proof.
  intros Hok Hfind Hadd.
  destruct (AddEdge_new_inv edge_new s out inp e s' Hok Hfind Hadd)
    as (f & t & fi & ti & Hf & Ht & Hfi & Hti & Hint).
  pose proof (AddEdgeInternal_heap edge_new s out inp f t fi ti Hfi Hti) as Hheap.
  cbv zeta in Hheap.
  destruct Hheap as (s1 & Hint1 & He & Hfe & Hte & Hmap & Hedges & Hdir & Hcur & Hheap).
  rewrite Hint in Hint1. injection Hint1 as He0 <-. rewrite <- He0 in *. clear He0.
  destruct (AddEdge_new_ok edge_new s out inp f t Hok Hfind Hf Ht)
    as (e2 & s2 & E & Hadd2 & Hok' & Hnew & _ & _ & HE & HEo & HEi & HEf & HEt & _).
  rewrite Hadd in Hadd2. injection Hadd2 as <- <-.
  assert (EdgeToUIObject s' out inp = Some (Some e)) as Hfound.
  { apply (find_edge_found s' out inp e E Hok'); try assumption.
    rewrite Hedges. apply elem_of_app. right. apply list_elem_of_singleton. reflexivity. }
  assert (forall p it, node_at (objects s) p = Some it -> e ∉ edges_ it) as Hfresh.
  { intros p it Hit. apply edge_count_not_elem_of.
    rewrite (ok_items s Hok p it e Hit). rewrite decide_False by exact Hnew. reflexivity. }
  assert (node_at (objects s') f
          = Some (if decide (f = t) then AddEdge e (AddEdge e fi) else AddEdge e fi)) as Hfi'.
  { unfold node_at. rewrite Hheap. rewrite decide_False by congruence.
    case_decide; [reflexivity|]. rewrite decide_True by reflexivity. reflexivity. }
  assert (node_at (objects s') t
          = Some (AddEdge e (if decide (f = t) then AddEdge e fi else ti))) as Hti'.
  { unfold node_at. rewrite Hheap. rewrite decide_False by congruence.
    rewrite decide_True by reflexivity. reflexivity. }
  destruct (RemoveEdge_heap s' out inp e E f t _ _ Hfound HE HEf HEt Hfi' Hti')
    as (s'' & Hrem & Hmap' & Hedges' & Hdir' & Hcur' & Hheap').
  rewrite Hrem. f_equal. apply scene_eq; try congruence.
  - intros p. rewrite Hheap'.
    destruct (decide (p = e)) as [->|Hpe]; [symmetry; exact He|].
    destruct (node_at_not_edge _ _ _ Hfi) as [_ Hfo].
    destruct (node_at_not_edge _ _ _ Hti) as [_ Hto].
    destruct (decide (p = t)) as [->|Hpt].
    + rewrite Hto. f_equal. f_equal.
      destruct (decide (f = t)) as [->|Hft].
      * assert (fi = ti) as -> by congruence.
        apply RemoveEdge_AddEdge_twice. apply (Hfresh t). exact Hti.
      * apply RemoveEdge_AddEdge. apply (Hfresh t). exact Hti.
    + destruct (decide (p = f)) as [->|Hpf].
      * rewrite Hfo. f_equal. f_equal. rewrite decide_False by congruence.
        apply RemoveEdge_AddEdge. apply (Hfresh f). exact Hfi.
      * rewrite Hheap. rewrite !decide_False by assumption. reflexivity.
  - rewrite Hedges', Hedges. rewrite (removeOne_snoc e (scene_edges_ s) []) by exact Hnew.
    apply app_nil_r.
Qed.

Lemma RemoveEdge_undoes_AddEdge_witness :
  Scene_RemoveEdge ExampleScene_with_edge 2%positive ExampleScene.input_1_tex
  = Some ExampleScene.scene.
Proof.
  apply (RemoveEdge_undoes_AddEdge ExampleScene.edge_item_new ExampleScene.scene
           2%positive ExampleScene.input_1_tex 12%positive ExampleScene_with_edge
           ExampleScene_ok).
  - vm_compute. reflexivity.
  - vm_compute. reflexivity.
Defined.

(** X14.  [AddEdge] is idempotent: in a scene that satisfies the
    registration invariant, after [AddEdge] has returned an edge for an
    output node and an input, [EdgeToUIObject] finds that edge for the
    pair, and a second [AddEdge] returns the same edge and leaves the scene
    as the first call left it. *)
Theorem AddEdge_twice_same_edge (edge_new : QGraphicsItem) (s : NodeViewScene)
    (out : Node) (inp : NodeInput) (e : ptr) (s' : NodeViewScene) :
  scene_ok s ->
  Scene_AddEdge edge_new s out inp = Some (e, s') ->
  EdgeToUIObject s' out inp = Some (Some e) /\
  Scene_AddEdge edge_new s' out inp = Some (e, s').
Proof.
  intros Hok Hadd.
  assert (EdgeToUIObject s' out inp = Some (Some e)) as Hfound.
  { destruct (EdgeToUIObject s out inp) as [[e0|]|] eqn:Hfind.
    - unfold Scene_AddEdge in Hadd. rewrite Hfind in Hadd. cbn in Hadd.
      injection Hadd as <- <-. exact Hfind.
    - destruct (AddEdge_new_inv edge_new s out inp e s' Hok Hfind Hadd)
        as (f & t & fi & ti & Hf & Ht & _).
      destruct (AddEdge_new_ok edge_new s out inp f t Hok Hfind Hf Ht)
        as (e2 & s2 & E & Hadd2 & Hok' & Hnew & Hedges & _ & HE & HEo & HEi & _).
      rewrite Hadd in Hadd2. injection Hadd2 as <- <-.
      apply (find_edge_found s' out inp e E Hok'); try assumption.
      rewrite Hedges. apply elem_of_app. right. apply list_elem_of_singleton. reflexivity.
    - unfold Scene_AddEdge in Hadd. rewrite Hfind in Hadd. discriminate. }
  split; [exact Hfound|].
  unfold Scene_AddEdge. rewrite Hfound. reflexivity.
Qed.

Lemma AddEdge_twice_same_edge_witness :
  EdgeToUIObject ExampleScene_with_edge 2%positive ExampleScene.input_1_tex
  = Some (Some 12%positive) /\
  Scene_AddEdge ExampleScene.edge_item_new ExampleScene_with_edge
    2%positive ExampleScene.input_1_tex
  = Some (12%positive, ExampleScene_with_edge).
Proof.
  apply (AddEdge_twice_same_edge ExampleScene.edge_item_new ExampleScene.scene
           2%positive ExampleScene.input_1_tex 12%positive ExampleScene_with_edge
           ExampleScene_ok).
  vm_compute. reflexivity.
Defined.

(** *** The edges' settings *)

Lemma edge_SetCurved_idem (c : bool) (E : NodeViewEdge) :
  edge_SetCurved c (edge_SetCurved c E) = edge_SetCurved c E.
Proof. reflexivity. Qed.

Lemma edge_SetCurved_same (E : NodeViewEdge) : edge_SetCurved (edge_curved E) E = E.
Proof. destruct E; reflexivity. Qed.

Lemma SetCurved_all_spec (c : bool) (l : list ptr) (objs : gmap ptr SceneObject) :
  (forall e, e ∈ l -> is_Some (edge_at objs e)) ->
  exists objs',
    SetCurved_all c l objs = Some objs' /\
    forall p, objs' !! p =
      if decide (p ∈ l)
      then (fun E => OEdge (edge_SetCurved c E)) <$> edge_at objs p
      else objs !! p.
Proof.
  revert objs. induction l as [|e l IH]; intros objs Hlive.
  - exists objs. split; [reflexivity|]. intros p.
    rewrite decide_False by apply not_elem_of_nil. reflexivity.
  - destruct (Hlive e) as [E HE]; [apply elem_of_cons; auto|].
    cbn [SetCurved_all]. rewrite HE. cbn [mbind option_bind].
    set (objs1 := <[e:=OEdge (edge_SetCurved c E)]> objs).
    assert (forall x, edge_at objs1 x
              = if decide (x = e) then Some (edge_SetCurved c E) else edge_at objs x) as H1.
    { intros x. unfold edge_at, objs1. rewrite lookup_insert.
      repeat case_decide; simplify_eq; reflexivity. }
    destruct (IH objs1) as (objs' & Heq & Hlook).
    { intros e' He'. rewrite H1. case_decide; [eauto|].
      apply Hlive, elem_of_cons. auto. }
    exists objs'. split; [exact Heq|]. intros p. rewrite Hlook, H1.
    destruct (decide (p = e)) as [->|Hpe].
    + rewrite (decide_True (P := e ∈ e :: l)) by (apply elem_of_cons; auto).
      rewrite HE. cbn. case_decide; [reflexivity|].
      unfold objs1. rewrite lookup_insert_eq. reflexivity.
    + destruct (decide (p ∈ l)) as [Hin|Hnin].
      * rewrite decide_True by (apply elem_of_cons; auto). reflexivity.
      * rewrite decide_False by (intros [?|?]%elem_of_cons; contradiction).
        unfold objs1. rewrite lookup_insert_ne by congruence. reflexivity.
Qed.

(** What [SetEdgesAreCurved] leaves in a scene whose listed edges are live
    and carry the scene's settings. *)
Lemma SetEdgesAreCurved_spec (c : bool) (s : NodeViewScene) :
  scene_ok s -> edge_settings_agree s ->
  exists s',
    SetEdgesAreCurved c s = Some s' /\
    item_map_ s' = item_map_ s /\ scene_edges_ s' = scene_edges_ s /\
    direction_ s' = direction_ s /\ curved_edges_ s' = c /\
    (forall p, node_at (objects s') p = node_at (objects s) p) /\
    (forall x, edge_at (objects s') x
       = (if decide (x ∈ scene_edges_ s) then edge_SetCurved c else id)
           <$> edge_at (objects s) x) /\
    (c = curved_edges_ s -> s' = s).
Proof.
  intros Hok Hagree. unfold SetEdgesAreCurved.
  destruct (Bool.eqb (curved_edges_ s) c) eqn:Hc; cbn [negb].
  - apply Bool.eqb_prop in Hc. exists s. split; [reflexivity|].
    do 5 (split; [first [reflexivity|assumption]|]). split; [|reflexivity].
    intros x. case_decide as Hin; [|destruct (edge_at _ x); reflexivity].
    destruct (edge_at (objects s) x) as [E|] eqn:HE; [|reflexivity]. cbn.
    destruct (Hagree x E Hin HE) as [HcE _]. rewrite <- Hc, <- HcE.
    rewrite edge_SetCurved_same. reflexivity.
  - destruct (SetCurved_all_spec c (scene_edges_ s) (objects s)) as (objs' & Heq & Hlook).
    { intros e He. destruct (ok_edges s Hok e He) as (E & _ & _ & -> & _). eauto. }
    cbn [with_curved_edges curved_edges_ scene_edges_ objects].
    rewrite Heq. cbn [mbind option_bind].
    eexists. split; [reflexivity|]. do 4 (split; [reflexivity|]).
    cbn [objects with_objects]. split; [|split].
    + intros p. unfold node_at. rewrite Hlook. case_decide as Hin; [|reflexivity].
      destruct (ok_edges s Hok p Hin) as (E & _ & _ & HE & _).
      rewrite HE. cbn. unfold edge_at in HE.
      destruct (objects s !! p) as [[]|]; simplify_eq. reflexivity.
    + intros x. unfold edge_at at 1. rewrite Hlook. case_decide as Hin.
      * destruct (edge_at (objects s) x); reflexivity.
      * unfold edge_at. destruct (objects s !! x) as [[]|]; reflexivity.
    + intros ->. rewrite Bool.eqb_reflx in Hc. discriminate.
Qed.

Lemma SetEdgesAreCurved_ok (c : bool) (s s' : NodeViewScene) :
  scene_ok s ->
  item_map_ s' = item_map_ s -> scene_edges_ s' = scene_edges_ s ->
  (forall p, node_at (objects s') p = node_at (objects s) p) ->
  (forall x, edge_at (objects s') x
     = (if decide (x ∈ scene_edges_ s) then edge_SetCurved c else id)
         <$> edge_at (objects s) x) ->
  scene_ok s'.
Proof.
  intros Hok Hmap Hedges Hnode Hedge.
  assert (forall e E', e ∈ scene_edges_ s -> edge_at (objects s') e = Some E' ->
            exists E, edge_at (objects s) e = Some E /\ E' = edge_SetCurved c E) as Hback.
  { intros e E' Hin HE'. rewrite Hedge, decide_True in HE' by exact Hin.
    destruct (edge_at (objects s) e) as [E|]; [|discriminate].
    injection HE' as <-. eauto. }
  constructor.
  - rewrite Hedges. apply (ok_nodup s Hok).
  - intros e He. rewrite Hedges in He.
    destruct (ok_edges s Hok e He) as (E & f & t & HE & Hin & Hf & Ht & Hfn & Htn).
    exists (edge_SetCurved c E), f, t. rewrite Hedge, decide_True, HE by exact He.
    rewrite !Hnode. auto 10.
  - intros e1 e2 E1 E2 H1 H2 HE1 HE2 Ho Hi. rewrite Hedges in H1, H2.
    destruct (Hback e1 E1 H1 HE1) as (E1' & HE1' & ->).
    destruct (Hback e2 E2 H2 HE2) as (E2' & HE2' & ->).
    apply (ok_unique s Hok e1 e2 E1' E2'); assumption.
  - intros p it e Hit. rewrite Hnode in Hit. rewrite (ok_items s Hok p it e Hit).
    rewrite Hedges. case_decide as Hin; [|reflexivity].
    rewrite Hedge, decide_True by exact Hin.
    destruct (edge_at (objects s) e); reflexivity.
  - intros n p Hn. rewrite Hmap in Hn. rewrite Hnode. apply (ok_map s Hok n p Hn).
Qed.

Section EdgeSettings.

Variable NodeViewEdge_item_new : QGraphicsItem.

Lemma AddEdge_settings (s : NodeViewScene) (out : Node) (inp : NodeInput)
    (e : ptr) (s' : NodeViewScene) :
  scene_ok s -> edge_settings_agree s ->
  Scene_AddEdge NodeViewEdge_item_new s out inp = Some (e, s') ->
  edge_settings_agree s'.
Proof.
  intros Hok Hagree Hadd.
  destruct (EdgeToUIObject s out inp) as [[e0|]|] eqn:Hfind.
  - unfold Scene_AddEdge in Hadd. rewrite Hfind in Hadd. cbn in Hadd.
    injection Hadd as <- <-. exact Hagree.
  - destruct (AddEdge_new_inv NodeViewEdge_item_new s out inp e s' Hok Hfind Hadd)
      as (f & t & fi & ti & Hf & Ht & Hfi & Hti & Hint).
    pose proof (AddEdgeInternal_heap NodeViewEdge_item_new s out inp f t fi ti Hfi Hti)
      as Hheap.
    cbv zeta in Hheap.
    destruct Hheap as (s1 & Hint1 & He & Hfe & Hte & Hmap & Hedges & Hdir & Hcur & Hheap).
    rewrite Hint in Hint1. injection Hint1 as He0 <-. rewrite <- He0 in *. clear He0.
    intros x X Hin HX. rewrite Hdir, Hcur. unfold edge_at in HX. rewrite Hheap in HX.
    destruct (decide (x = e)) as [->|Hxe]; [injection HX as <-; auto|].
    rewrite Hedges in Hin. apply elem_of_app in Hin as [Hin|Hin].
    2:{ apply list_elem_of_singleton in Hin. contradiction. }
    destruct (decide (x = t)); [discriminate|].
    destruct (decide (x = f)); [discriminate|].
    apply (Hagree x X Hin HX).
  - unfold Scene_AddEdge in Hadd. rewrite Hfind in Hadd. discriminate.
Qed.

Lemma RemoveEdge_settings (s : NodeViewScene) (out : Node) (inp : NodeInput)
    (s' : NodeViewScene) :
  scene_ok s -> edge_settings_agree s ->
  Scene_RemoveEdge s out inp = Some s' ->
  edge_settings_agree s'.
Proof.
  intros Hok Hagree Hrem.
  destruct (EdgeToUIObject s out inp) as [[e|]|] eqn:Hfind.
  - destruct (find_edge_Some _ _ _ _ _ Hfind) as (Hin & E0 & HE0 & _).
    destruct (ok_edges s Hok e Hin) as (E & f & t & HE & _ & Hf & Ht & [fi Hfi] & [ti Hti]).
    destruct (RemoveEdge_heap s out inp e E f t fi ti Hfind HE Hf Ht Hfi Hti)
      as (s1 & Hrem1 & Hmap & Hedges & Hdir & Hcur & Hheap).
    rewrite Hrem in Hrem1. injection Hrem1 as <-.
    intros x X Hx HX. rewrite Hdir, Hcur. unfold edge_at in HX. rewrite Hheap in HX.
    destruct (decide (x = e)); [discriminate|].
    destruct (decide (x = t)); [discriminate|].
    destruct (decide (x = f)); [discriminate|].
    rewrite Hedges in Hx. apply elem_of_removeOne in Hx; [|apply (ok_nodup s Hok)].
    apply (Hagree x X); [|exact HX]. tauto.
  - unfold Scene_RemoveEdge in Hrem. rewrite Hfind in Hrem. cbn in Hrem.
    injection Hrem as <-. exact Hagree.
  - unfold Scene_RemoveEdge in Hrem. rewrite Hfind in Hrem. discriminate.
Qed.

End EdgeSettings.

Lemma NodeViewScene_new_settings : edge_settings_agree NodeViewScene_new.
Proof. intros e E He. apply elem_of_nil in He. destruct He. Qed.

Lemma ExampleScene_with_edge_agree : edge_settings_agree ExampleScene_with_edge.
Proof.
  apply (AddEdge_settings ExampleScene.edge_item_new ExampleScene.scene
           2%positive ExampleScene.input_1_tex 12%positive _ ExampleScene_ok).
  - intros e E He. apply elem_of_nil in He. destruct He.
  - exact ExampleScene_with_edge_eq.
Defined.

(** X15.  [SetEdgesAreCurved]: in a scene that satisfies the registration
    invariant and whose listed edges carry the scene's settings, the call
    returns, the scene's flag is the argument, every listed edge is the
    edge it was with the curved flag set to the argument, node items, the
    item map and the edge list are unchanged, both invariants hold again,
    and a call with the flag the scene already has changes nothing. *)
Theorem SetEdgesAreCurved_sets_every_edge (c : bool) (s : NodeViewScene) :
  scene_ok s -> edge_settings_agree s ->
  exists s',
    SetEdgesAreCurved c s = Some s' /\
    curved_edges_ s' = c /\
    scene_edges_ s' = scene_edges_ s /\ item_map_ s' = item_map_ s /\
    direction_ s' = direction_ s /\
    (forall e, e ∈ scene_edges_ s ->
       exists E, edge_at (objects s) e = Some E /\
                 edge_at (objects s') e = Some (edge_SetCurved c E)) /\
    (forall p, node_at (objects s') p = node_at (objects s) p) /\
    scene_ok s' /\ edge_settings_agree s' /\
    (c = curved_edges_ s -> s' = s).
Proof.
  intros Hok Hagree.
  destruct (SetEdgesAreCurved_spec c s Hok Hagree)
    as (s' & Heq & Hmap & Hedges & Hdir & Hcur & Hnode & Hedge & Hsame).
  exists s'. split; [exact Heq|]. do 4 (split; [assumption|]).
  split; [|split; [exact Hnode|split; [|split; [|exact Hsame]]]].
  - intros e He. destruct (ok_edges s Hok e He) as (E & _ & _ & HE & _).
    exists E. split; [exact HE|]. rewrite Hedge, decide_True, HE by exact He. reflexivity.
  - apply (SetEdgesAreCurved_ok c s s' Hok Hmap Hedges Hnode Hedge).
  - intros e E' He HE'. rewrite Hedges in He. rewrite Hedge, decide_True in HE' by exact He.
    destruct (edge_at (objects s) e) as [E|] eqn:HE; [|discriminate].
    injection HE' as <-. rewrite Hcur, Hdir. split; [reflexivity|].
    apply (Hagree e E He HE).
Qed.

Lemma SetEdgesAreCurved_sets_every_edge_witness :
  exists s',
    SetEdgesAreCurved false ExampleScene_with_edge = Some s' /\
    curved_edges_ s' = false /\
    scene_edges_ s' = scene_edges_ ExampleScene_with_edge /\
    item_map_ s' = item_map_ ExampleScene_with_edge /\
    direction_ s' = direction_ ExampleScene_with_edge /\
    (forall e, e ∈ scene_edges_ ExampleScene_with_edge ->
       exists E, edge_at (objects ExampleScene_with_edge) e = Some E /\
                 edge_at (objects s') e = Some (edge_SetCurved false E)) /\
    (forall p, node_at (objects s') p = node_at (objects ExampleScene_with_edge) p) /\
    scene_ok s' /\ edge_settings_agree s' /\
    (false = curved_edges_ ExampleScene_with_edge -> s' = ExampleScene_with_edge).
Proof.
  apply (SetEdgesAreCurved_sets_every_edge false ExampleScene_with_edge).
  - exact ExampleScene_with_edge_ok.
  - exact ExampleScene_with_edge_agree.
Defined.

(** X16.  The edges' settings follow the scene: when the scene satisfies
    the registration invariant and every listed edge carries the scene's
    flow direction and curved flag, the same holds after [AddEdge] (the new
    edge is given both settings by [AddEdgeInternal]) and after
    [RemoveEdge]. *)
Theorem AddEdge_RemoveEdge_keep_edge_settings (edge_new : QGraphicsItem)
    (s : NodeViewScene) :
  scene_ok s -> edge_settings_agree s ->
  (forall out inp e s',
     Scene_AddEdge edge_new s out inp = Some (e, s') -> edge_settings_agree s') /\
  (forall out inp s',
     Scene_RemoveEdge s out inp = Some s' -> edge_settings_agree s').
Proof.
  intros Hok Hagree. split.
  - intros out inp e s'. apply AddEdge_settings; assumption.
  - intros out inp s'. apply RemoveEdge_settings; assumption.
Qed.

Lemma AddEdge_RemoveEdge_keep_edge_settings_witness :
  (forall out inp e s',
     Scene_AddEdge ExampleScene.edge_item_new ExampleScene_with_edge out inp = Some (e, s') ->
     edge_settings_agree s') /\
  (forall out inp s',
     Scene_RemoveEdge ExampleScene_with_edge out inp = Some s' -> edge_settings_agree s').
Proof.
  apply (AddEdge_RemoveEdge_keep_edge_settings ExampleScene.edge_item_new
           ExampleScene_with_edge).
  - exact ExampleScene_with_edge_ok.
  - exact ExampleScene_with_edge_agree.
Defined.

(** *** Selection *)

Lemma unselect_setSelected (b : bool) (g : QGraphicsItem) :
  unselect (setSelected b g) = unselect g.
Proof. reflexivity. Qed.

Lemma unselect_update (b : bool) (r : ItemRef) (objs : gmap ptr SceneObject) (p : ptr) :
  unselect_object <$> update_item (setSelected b) r objs !! p
  = unselect_object <$> objs !! p.
Proof.
  destruct r as [q|q|q]; cbn; destruct (objs !! q) as [[it|e|g]|] eqn:Hq; try reflexivity;
    (destruct (decide (q = p)) as [->|Hne];
     [rewrite lookup_insert_eq, Hq; reflexivity
     |rewrite lookup_insert_ne by congruence; reflexivity]).
Qed.

Lemma unselect_fold (b : bool) (l : list ItemRef) (objs : gmap ptr SceneObject) (p : ptr) :
  unselect_object <$> fold_left (fun objs i => update_item (setSelected b) i objs) l objs !! p
  = unselect_object <$> objs !! p.
Proof.
  revert objs. induction l as [|i l IH]; intros objs; [reflexivity|].
  cbn [fold_left]. rewrite IH. apply unselect_update.
Qed.

(** X17.  [SelectAll] and [DeselectAll] change selection flags only: the
    item map, the edge list and the two settings stay, and every object of
    the heap is, apart from the selection flags of its items, the object it
    was; no object appears or disappears. *)
Theorem SelectAll_DeselectAll_change_selection_only (s : NodeViewScene) :
  (item_map_ (SelectAll s) = item_map_ s /\
   scene_edges_ (SelectAll s) = scene_edges_ s /\
   direction_ (SelectAll s) = direction_ s /\
   curved_edges_ (SelectAll s) = curved_edges_ s /\
   forall p, unselect_object <$> objects (SelectAll s) !! p
             = unselect_object <$> objects s !! p) /\
  (item_map_ (DeselectAll s) = item_map_ s /\
   scene_edges_ (DeselectAll s) = scene_edges_ s /\
   direction_ (DeselectAll s) = direction_ s /\
   curved_edges_ (DeselectAll s) = curved_edges_ s /\
   forall p, unselect_object <$> objects (DeselectAll s) !! p
             = unselect_object <$> objects s !! p).
Proof.
  split; (do 4 (split; [reflexivity|])); intros p; apply unselect_fold.
Qed.

(** The two loops over the item map, side by side. *)
Lemma fold_selected_pairs (objs : gmap ptr SceneObject) (R : Node -> ptr -> Prop)
    (l : list (Node * ptr)) (ns : list Node) (ps : list ptr) :
  (forall kv, kv ∈ l -> R (fst kv) (snd kv)) ->
  Forall2 R ns ps ->
  match
    fold_left
      (fun (selected : option (list Node)) (kv : Node * ptr) =>
         sel ← selected;
         it ← node_at objs (snd kv);
         Some (if isSelected (item it) then sel ++ [fst kv] else sel))
      l (Some ns),
    fold_left
      (fun (selected : option (list ptr)) (kv : Node * ptr) =>
         sel ← selected;
         it ← node_at objs (snd kv);
         Some (if isSelected (item it) then sel ++ [snd kv] else sel))
      l (Some ps)
  with
  | Some ns', Some ps' => Forall2 R ns' ps'
  | None, None => True
  | _, _ => False
  end.
Proof.
  revert ns ps. induction l as [|kv l IH]; intros ns ps HR Hacc; [exact Hacc|].
  cbn [fold_left mbind option_bind].
  destruct (node_at objs (snd kv)) as [it|] eqn:Hit; cbn [mbind option_bind].
  - apply IH; [intros kv' Hkv'; apply HR, elem_of_cons; auto|].
    destruct (isSelected (item it)); [|exact Hacc].
    apply Forall2_app; [exact Hacc|]. constructor; [|constructor].
    apply HR, elem_of_cons. auto.
  - clear. induction l as [|kv' l IH]; [exact I|exact IH].
Qed.

(** X18.  [GetSelectedItems] and [GetSelectedNodes] agree: either both
    fail (on a map entry that is not a live node item), or they return
    lists of the same length and order in which each item is the item
    [NodeToUIObject] gives for the node at the same place. *)
Theorem GetSelectedItems_are_items_of_GetSelectedNodes (s : NodeViewScene) :
  match GetSelectedNodes s, GetSelectedItems s with
  | Some ns, Some ps => Forall2 (fun n p => NodeToUIObject s n = Some p) ns ps
  | None, None => True
  | _, _ => False
  end.
Proof.
  unfold GetSelectedNodes, GetSelectedItems.
  apply fold_selected_pairs; [|constructor].
  intros [n p] Hkv. apply elem_of_map_to_list in Hkv. exact Hkv.
Qed.

(** *** [clear] *)

(** A loop that deletes the objects a list points at, each checked for its
    class before it goes. *)
Lemma fold_delete {A B : Type} (chk : gmap ptr SceneObject -> ptr -> option B)
    (h : A -> ptr) (l : list A) (objs : gmap ptr SceneObject) :
  (forall o p q, p <> q -> chk (delete q o) p = chk o p) ->
  NoDup (h <$> l) ->
  (forall x, x ∈ l -> is_Some (chk objs (h x))) ->
  exists objs',
    fold_left (fun (objs : option (gmap ptr SceneObject)) (x : A) =>
                 o ← objs; _ ← chk o (h x); Some (delete (h x) o))
              l (Some objs) = Some objs' /\
    forall q, objs' !! q = if decide (q ∈ h <$> l) then None else objs !! q.
Proof.
  intros Hchk. revert objs. induction l as [|x l IH]; intros objs Hnd Hlive.
  - exists objs. split; [reflexivity|]. intros q.
    rewrite decide_False by apply not_elem_of_nil. reflexivity.
  - rewrite fmap_cons in Hnd. apply NoDup_cons in Hnd as [Hx Hnd].
    destruct (Hlive x) as [b Hb]; [apply elem_of_cons; auto|].
    cbn [fold_left mbind option_bind]. rewrite Hb. cbn [mbind option_bind].
    destruct (IH (delete (h x) objs) Hnd) as (objs' & Heq & Hlook).
    { intros y Hy. rewrite Hchk.
      - apply Hlive, elem_of_cons. auto.
      - intros Heq. apply Hx. rewrite <- Heq. apply list_elem_of_fmap. eauto. }
    exists objs'. split; [exact Heq|]. intros q. rewrite Hlook, fmap_cons.
    destruct (decide (q = h x)) as [->|Hne].
    + rewrite (decide_True (P := h x ∈ h x :: (h <$> l))) by (apply elem_of_cons; auto).
      case_decide; [reflexivity|]. apply lookup_delete_eq.
    + rewrite lookup_delete_ne by congruence.
      destruct (decide (q ∈ h <$> l)) as [Hin|Hnin].
      * rewrite decide_True by (apply elem_of_cons; auto). reflexivity.
      * rewrite decide_False by (intros [?|?]%elem_of_cons; contradiction). reflexivity.
Qed.

Lemma node_at_delete (o : gmap ptr SceneObject) (p q : ptr) :
  p <> q -> node_at (delete q o) p = node_at o p.
Proof. intros H. unfold node_at. rewrite lookup_delete_ne by congruence. reflexivity. Qed.

Lemma edge_at_delete (o : gmap ptr SceneObject) (p q : ptr) :
  p <> q -> edge_at (delete q o) p = edge_at o p.
Proof. intros H. unfold edge_at. rewrite lookup_delete_ne by congruence. reflexivity. Qed.

Lemma items_distinct_NoDup (s : NodeViewScene) :
  items_distinct s -> NoDup (snd <$> map_to_list (item_map_ s)).
Proof.
  intros Hinj. apply NoDup_fmap_2_strong; [|apply NoDup_map_to_list].
  intros [n1 p1] [n2 p2] H1 H2. cbn. intros <-.
  apply elem_of_map_to_list in H1, H2. f_equal. apply (Hinj n1 n2 p1 H1 H2).
Qed.

(** What [DeselectAll] keeps of an object. *)
Lemma DeselectAll_object (s : NodeViewScene) (p : ptr) :
  match objects s !! p, objects (DeselectAll s) !! p with
  | Some (ONode it), Some (ONode it') => edges_ it' = edges_ it
  | Some (OEdge E), Some (OEdge E') =>
      from_item E' = from_item E /\ to_item E' = to_item E
  | Some (OContext _), Some (OContext _) => True
  | None, None => True
  | _, _ => False
  end.
Proof.
  pose proof (unselect_fold false (selectedItems s) (objects s) p) as H.
  unfold DeselectAll. cbn [objects with_objects].
  destruct (objects s !! p) as [[it|E|g]|],
           (fold_left _ _ _ !! p) as [[it'|E'|g']|]; cbn in H; try discriminate; auto.
  - apply (f_equal (fun o => match o with Some (ONode i) => edges_ i | _ => [] end)) in H.
    cbn in H. exact H.
  - split.
    + apply (f_equal (fun o => match o with Some (OEdge e) => from_item e | _ => None end))
        in H.
      cbn in H. exact H.
    + apply (f_equal (fun o => match o with Some (OEdge e) => to_item e | _ => None end))
        in H.
      cbn in H. exact H.
Qed.

Lemma filter_none {A : Type} (P : A -> Prop) `{forall x, Decision (P x)} (l : list A) :
  (forall x, x ∈ l -> ~ P x) -> filter P l = [].
Proof.
  induction l as [|x l IH]; intros Hl; [reflexivity|].
  rewrite filter_cons. rewrite decide_False by (apply Hl, elem_of_cons; auto).
  apply IH. intros y Hy. apply Hl, elem_of_cons. auto.
Qed.

(** X19.  [clear]: in a scene that satisfies the registration invariant
    and in which no two nodes share an item, [clear] returns; afterwards
    the item map and the edge list are empty, the objects of all registered
    items and listed edges are gone from the heap, every other object is
    what [DeselectAll] made of it, no item of the scene is selected, the two settings
    are kept, and, when the ends of the listed edges were items of
    registered nodes, the registration invariant holds again. *)
Theorem clear_spec (s : NodeViewScene) :
  scene_ok s -> items_distinct s ->
  exists s',
    Scene_clear s = Some s' /\
    item_map_ s' = ∅ /\ scene_edges_ s' = [] /\
    direction_ s' = direction_ s /\ curved_edges_ s' = curved_edges_ s /\
    (forall n p, item_map_ s !! n = Some p -> objects s' !! p = None) /\
    (forall e, e ∈ scene_edges_ s -> objects s' !! e = None) /\
    (forall q, q ∉ scene_edges_ s -> (forall n, item_map_ s !! n <> Some q) ->
       objects s' !! q = objects (DeselectAll s) !! q) /\
    selectedItems s' = [] /\
    (endpoints_registered s -> scene_ok s').
Proof.
  intros Hok Hinj. unfold Scene_clear.
  set (s1 := DeselectAll s).
  assert (item_map_ s1 = item_map_ s) as Hmap1 by reflexivity.
  assert (scene_edges_ s1 = scene_edges_ s) as Hedges1 by reflexivity.
  assert (direction_ s1 = direction_ s) as Hdir1 by reflexivity.
  assert (curved_edges_ s1 = curved_edges_ s) as Hcur1 by reflexivity.
  assert (forall p, is_Some (node_at (objects s) p) -> is_Some (node_at (objects s1) p))
    as Hnode1 by (intros p; apply node_at_fold).
  assert (forall p, is_Some (edge_at (objects s) p) -> is_Some (edge_at (objects s1) p))
    as Hedge1 by (intros p; apply edge_at_fold).
  assert (forall r, r ∈ items s1 -> is_selected (objects s1) r = false) as Hsel1
    by (intros r; apply DeselectAll_none_selected).
  pose proof (DeselectAll_object s) as Hobj1. fold s1 in Hobj1.
  clearbody s1.
  assert (forall q, q ∈ snd <$> map_to_list (item_map_ s) <->
                    exists n, item_map_ s !! n = Some q) as Hvals.
  { intros q. rewrite list_elem_of_fmap. split.
    - intros ([n p] & -> & Hin). apply elem_of_map_to_list in Hin. eauto.
    - intros [n Hn]. exists (n, q). split; [reflexivity|].
      apply elem_of_map_to_list. exact Hn. }
  destruct (fold_delete node_at snd (map_to_list (item_map_ s1)) (objects s1))
    as (objs2 & Heq2 & Hlook2).
  { intros o p q. apply node_at_delete. }
  { rewrite Hmap1. apply items_distinct_NoDup, Hinj. }
  { intros [n p] Hin. rewrite Hmap1 in Hin. apply elem_of_map_to_list in Hin.
    apply Hnode1, (ok_map s Hok n p Hin). }
  unfold delete_item. rewrite Heq2. cbn [mbind option_bind].
  cbn [scene_edges_ objects with_item_map with_objects].
  rewrite Hmap1 in Hlook2.
  assert (forall e, e ∈ scene_edges_ s -> is_Some (edge_at (objects s1) e) /\
                    e ∉ snd <$> map_to_list (item_map_ s)) as Hlisted.
  { intros e He. destruct (ok_edges s Hok e He) as (E & _ & _ & HE & _).
    destruct (Hedge1 e) as [E1 HE1]; [eauto|]. split; [eauto|].
    intros [n Hn]%Hvals. destruct (Hnode1 e (ok_map s Hok n e Hn)) as [it Hit].
    destruct (node_at_not_edge _ _ _ Hit) as [Hno _]. congruence. }
  destruct (fold_delete edge_at id (scene_edges_ s1) objs2) as (objs3 & Heq3 & Hlook3).
  { intros o p q. apply edge_at_delete. }
  { rewrite list_fmap_id, Hedges1. apply (ok_nodup s Hok). }
  { intros e He. rewrite Hedges1 in He. destruct (Hlisted e He) as [Hlive Hnot].
    unfold edge_at, id. rewrite Hlook2, decide_False by exact Hnot. exact Hlive. }
  unfold delete_edge. unfold id in Heq3. rewrite Heq3. cbn [mbind option_bind].
  rewrite list_fmap_id, Hedges1 in Hlook3.
  eexists. split; [reflexivity|].
  cbn [item_map_ scene_edges_ direction_ curved_edges_ objects
       with_scene_edges with_objects].
  do 4 (split; [first [reflexivity|assumption]|]).
  assert (forall q, objs3 !! q =
            if decide (q ∈ scene_edges_ s) then None
            else if decide (q ∈ snd <$> map_to_list (item_map_ s)) then None
            else objects s1 !! q) as Hlook.
  { intros q. rewrite Hlook3. case_decide; [reflexivity|]. apply Hlook2. }
  clear Hlook2 Hlook3 Heq2 Heq3.
  assert (forall q o, objs3 !! q = Some o ->
            objects s1 !! q = Some o /\ (q ∉ scene_edges_ s) /\
            forall n, item_map_ s !! n <> Some q) as Hleft.
  { intros q o Hq. rewrite Hlook in Hq.
    destruct (decide (q ∈ scene_edges_ s)) as [|Hne]; [discriminate|].
    destruct (decide (q ∈ snd <$> map_to_list (item_map_ s))) as [|Hnv]; [discriminate|].
    split; [exact Hq|]. split; [assumption|].
    intros n Hn. apply Hnv, Hvals. eauto. }
  split; [|split; [|split; [|split]]].
  - intros n p Hn. rewrite Hlook. case_decide; [reflexivity|].
    rewrite decide_True by (apply Hvals; eauto). reflexivity.
  - intros e He. rewrite Hlook, decide_True by exact He. reflexivity.
  - intros q Hq Hnot. rewrite Hlook, decide_False by exact Hq.
    rewrite decide_False; [reflexivity|]. intros [n Hn]%Hvals. apply (Hnot n Hn).
  - unfold selectedItems. apply filter_none.
    intros r Hr%elem_of_items.
    cbn [objects with_scene_edges with_objects with_item_map] in Hr |- *.
    apply not_true_iff_false.
    unfold is_in_scene in Hr. unfold is_selected.
    destruct (get_item objs3 r) as [g|] eqn:Hg; [|reflexivity].
    assert (get_item (objects s1) r = Some g) as Hg1.
    { destruct r as [q|q|q]; cbn in Hg |- *;
        destruct (objs3 !! q) as [o|] eqn:Hq; try discriminate;
        destruct (Hleft q o Hq) as [-> _]; exact Hg. }
    specialize (Hsel1 r). unfold is_selected in Hsel1. rewrite Hg1 in Hsel1.
    apply Hsel1, elem_of_items. unfold is_in_scene. rewrite Hg1. exact Hr.
  - intros Hreg.
    constructor; cbn [item_map_ scene_edges_ objects with_scene_edges with_objects
                      with_item_map].
    + apply NoDup_nil_2.
    + intros e He. apply elem_of_nil in He. destruct He.
    + intros e1 e2 E1 E2 He. apply elem_of_nil in He. destruct He.
    + intros p it e Hit. rewrite decide_False by apply not_elem_of_nil.
      unfold node_at in Hit. destruct (objs3 !! p) as [[it'| |]|] eqn:Hp; simplify_eq.
      destruct (Hleft p _ Hp) as (Hp1 & Hpe & Hpn).
      specialize (Hobj1 p). rewrite Hp1 in Hobj1.
      destruct (objects s !! p) as [[it0| |]|] eqn:Hp0; try contradiction.
      rewrite Hobj1.
      assert (node_at (objects s) p = Some it0) as Hit0
        by (unfold node_at; rewrite Hp0; reflexivity).
      rewrite (ok_items s Hok p it0 e Hit0).
      case_decide as He; [|reflexivity].
      destruct (edge_at (objects s) e) as [E|] eqn:HE; [|reflexivity].
      unfold endpoint_count.
      rewrite !decide_False; [reflexivity| |];
        intros Hend; destruct (Hreg e E p He HE) as [n Hn]; auto;
        apply (Hpn n Hn).
    + intros n p Hn. rewrite lookup_empty in Hn. discriminate.
Qed.

Lemma ExampleScene_with_edge_distinct : items_distinct ExampleScene_with_edge.
Proof.
  intros n1 n2 p.
  change (item_map_ ExampleScene_with_edge) with (item_map_ ExampleScene.scene).
  unfold ExampleScene.scene. cbn [item_map_]. rewrite !lookup_insert, !lookup_empty.
  repeat case_decide; congruence.
Defined.

Example clear_example :
  Scene_clear ExampleScene_with_edge = Some (mkScene ∅ ∅ [] kLeftToRight true).
Proof. vm_compute. reflexivity. Qed.

Lemma clear_spec_witness :
  exists s',
    Scene_clear ExampleScene_with_edge = Some s' /\
    item_map_ s' = ∅ /\ scene_edges_ s' = [] /\
    direction_ s' = direction_ ExampleScene_with_edge /\
    curved_edges_ s' = curved_edges_ ExampleScene_with_edge /\
    (forall n p, item_map_ ExampleScene_with_edge !! n = Some p -> objects s' !! p = None) /\
    (forall e, e ∈ scene_edges_ ExampleScene_with_edge -> objects s' !! e = None) /\
    (forall q, q ∉ scene_edges_ ExampleScene_with_edge ->
       (forall n, item_map_ ExampleScene_with_edge !! n <> Some q) ->
       objects s' !! q = objects (DeselectAll ExampleScene_with_edge) !! q) /\
    selectedItems s' = [] /\
    (endpoints_registered ExampleScene_with_edge -> scene_ok s').
Proof.
  apply (clear_spec ExampleScene_with_edge).
  - exact ExampleScene_with_edge_ok.
  - exact ExampleScene_with_edge_distinct.
Defined.

(** Once the loop of deletions has failed it stays failed. *)
Lemma fold_delete_None {A B : Type} (chk : gmap ptr SceneObject -> ptr -> option B)
    (h : A -> ptr) (l : list A) :
  fold_left (fun (objs : option (gmap ptr SceneObject)) (x : A) =>
               o ← objs; _ ← chk o (h x); Some (delete (h x) o))
            l None = None.
Proof. induction l as [|x l IH]; [reflexivity|exact IH]. Qed.

(** The loop fails when it reaches a pointer whose object is gone. *)
Lemma fold_delete_gone {A B : Type} (chk : gmap ptr SceneObject -> ptr -> option B)
    (h : A -> ptr) (l : list A) (objs : gmap ptr SceneObject) (q : ptr) :
  (forall o p, o !! p = None -> chk o p = None) ->
  q ∈ h <$> l -> objs !! q = None ->
  fold_left (fun (objs : option (gmap ptr SceneObject)) (x : A) =>
               o ← objs; _ ← chk o (h x); Some (delete (h x) o))
            l (Some objs) = None.
Proof.
  intros Hchk. revert objs. induction l as [|x l IH]; intros objs Hin Hq.
  - apply elem_of_nil in Hin. destruct Hin.
  - cbn [fold_left mbind option_bind].
    destruct (chk objs (h x)) as [b|] eqn:Hb; cbn [mbind option_bind];
      [|apply fold_delete_None].
    rewrite fmap_cons in Hin. apply elem_of_cons in Hin as [->|Hin].
    + rewrite (Hchk objs (h x) Hq) in Hb. discriminate.
    + apply IH; [exact Hin|]. rewrite lookup_delete. case_decide; [reflexivity|exact Hq].
Qed.

(** The loop fails on a list that holds a pointer twice. *)
Lemma fold_delete_twice {A B : Type} (chk : gmap ptr SceneObject -> ptr -> option B)
    (h : A -> ptr) (l : list A) (objs : gmap ptr SceneObject) :
  (forall o p, o !! p = None -> chk o p = None) ->
  ~ NoDup (h <$> l) ->
  fold_left (fun (objs : option (gmap ptr SceneObject)) (x : A) =>
               o ← objs; _ ← chk o (h x); Some (delete (h x) o))
            l (Some objs) = None.
Proof.
  intros Hchk. revert objs. induction l as [|x l IH]; intros objs Hdup.
  - destruct Hdup. constructor.
  - cbn [fold_left mbind option_bind].
    destruct (chk objs (h x)) as [b|] eqn:Hb; cbn [mbind option_bind];
      [|apply fold_delete_None].
    destruct (decide (h x ∈ h <$> l)) as [Hin|Hnin].
    + apply (fold_delete_gone chk h l _ (h x) Hchk Hin). apply lookup_delete_eq.
    + apply IH. intros Hnd. apply Hdup. rewrite fmap_cons. constructor; assumption.
Qed.

Lemma NoDup_fmap_same {A B : Type} (f : A -> B) (l : list A) (x y : A) :
  NoDup (f <$> l) -> x ∈ l -> y ∈ l -> f x = f y -> x = y.
Proof.
  induction l as [|z l IH]; intros Hnd Hx Hy Hf.
  - apply elem_of_nil in Hx. destruct Hx.
  - rewrite fmap_cons in Hnd. apply NoDup_cons in Hnd as [Hz Hnd].
    apply elem_of_cons in Hx as [->|Hx], Hy as [->|Hy].
    + reflexivity.
    + destruct Hz. rewrite Hf. apply list_elem_of_fmap. eauto.
    + destruct Hz. rewrite <- Hf. apply list_elem_of_fmap. eauto.
    + apply IH; assumption.
Qed.

(** X20.  [clear] deletes the item of every entry of the item map: when
    two different nodes are mapped to one item, the item is deleted twice
    and the call has no defined result. *)
Theorem clear_shared_item_fails (s : NodeViewScene) (n1 n2 : Node) (p : ptr) :
  item_map_ s !! n1 = Some p -> item_map_ s !! n2 = Some p -> n1 <> n2 ->
  Scene_clear s = None.
Proof.
  intros H1 H2 Hne. unfold Scene_clear.
  assert (fold_left (fun (objs : option (gmap ptr SceneObject)) (kv : Node * ptr) =>
                       o ← objs; delete_item (snd kv) o)
                    (map_to_list (item_map_ (DeselectAll s)))
                    (Some (objects (DeselectAll s))) = None) as ->; [|reflexivity].
  apply (fold_delete_twice node_at snd).
  - intros o q Hq. unfold node_at. rewrite Hq. reflexivity.
  - change (item_map_ (DeselectAll s)) with (item_map_ s). intros Hnd.
    apply Hne.
    assert ((n1, p) = (n2, p)) as Heq; [|congruence].
    apply (NoDup_fmap_same snd (map_to_list (item_map_ s)) _ _ Hnd);
      [apply elem_of_map_to_list; exact H1|apply elem_of_map_to_list; exact H2|reflexivity].
Qed.

Lemma clear_shared_item_fails_witness : Scene_clear ExampleScene_shared = None.
Proof.
  apply (clear_shared_item_fails ExampleScene_shared 1%positive 2%positive 10%positive).
  - reflexivity.
  - reflexivity.
  - discriminate.
Defined.

(** ** Further properties of the colour space chooser *)

Section ChooserMore.

Implicit Types (l : list string) (t d : string).

Lemma filled_eq l :
  filled l = mkComboBox l (if bool_decide (l = []) then -1 else 0).
Proof.
  unfold filled. rewrite fold_addItem. cbn. destruct l; reflexivity.
Qed.

Lemma contains_false l t : contains l t = false <-> ~ In t l.
Proof.
  rewrite <- contains_In. destruct (contains l t); split; intros; congruence.
Qed.

(** The text a filled box shows after [setCurrentText]. *)
Lemma select_in_filled l t :
  itemTexts (setCurrentText t (filled l)) = l /\
  currentText (setCurrentText t (filled l))
  = if contains l t then t else hd ""%string l.
Proof.
  assert (itemTexts (filled l) = l) as Hitems by (rewrite filled_eq; reflexivity).
  destruct (contains l t) eqn:Hc.
  - apply contains_In in Hc. rewrite <- Hitems in Hc at 1.
    destruct (setCurrentText_In t (filled l) Hc) as [H1 H2].
    split; [rewrite H2; exact Hitems|exact H1].
  - apply contains_false in Hc. rewrite <- Hitems in Hc at 1.
    rewrite (setCurrentText_not_In t (filled l) Hc).
    split; [exact Hitems|]. apply currentText_filled.
Qed.

(** Filling the box again and selecting what it showed gives the same
    box. *)
Lemma refill_again l t d :
  let b := setCurrentText t (filled l) in
  (if contains l (currentText b)
   then setCurrentText (currentText b) (filled l)
   else setCurrentText d (filled l)) = b.
Proof.
  intros b.
  assert (itemTexts (filled l) = l) as Hitems by (rewrite filled_eq; reflexivity).
  destruct (select_in_filled l t) as [_ Hcur]. fold b in Hcur.
  destruct (contains l t) eqn:Ht.
  - rewrite Hcur, Ht. reflexivity.
  - assert (b = filled l) as Hb.
    { unfold b. apply setCurrentText_not_In. rewrite Hitems. apply contains_false, Ht. }
    rewrite Hcur, Hb. destruct l as [|h l']; cbn [hd].
    + cbn [contains existsb]. apply setCurrentText_not_In. rewrite Hitems. auto.
    + assert (contains (h :: l') h = true) as ->
        by (apply contains_In; left; reflexivity).
      rewrite filled_eq. unfold setCurrentText, findText. cbn [itemTexts findText_from].
      rewrite String.eqb_refl. reflexivity.
Qed.

End ChooserMore.

(** The members [UpdateViews] leaves. *)
Lemma UpdateViews_fields (s : string) (c : ColorSpaceChooser) :
  let views := ListAvailableViews (color_manager_ c) s in
  color_manager_ (UpdateViews s c) = color_manager_ c /\
  input_combobox_ (UpdateViews s c) = input_combobox_ c /\
  display_combobox_ (UpdateViews s c) = display_combobox_ c /\
  look_combobox_ (UpdateViews s c) = look_combobox_ c /\
  view_combobox_ (UpdateViews s c)
  = (if contains views (currentText (view_combobox_ c))
     then setCurrentText (currentText (view_combobox_ c)) (filled views)
     else setCurrentText (GetDefaultView (color_manager_ c) s) (filled views)).
Proof.
  intros views. unfold UpdateViews. fold views.
  change (fold_left (fun cb s0 => addItem_text s0 cb) views (clear (view_combobox_ c)))
    with (filled views).
  destruct (contains views (currentText (view_combobox_ c))); repeat split.
Qed.

(** X21.  [UpdateViews] is idempotent: running it a second time with the
    same display name leaves the chooser as the first run left it. *)
Theorem UpdateViews_twice (s : string) (c : ColorSpaceChooser) :
  UpdateViews s (UpdateViews s c) = UpdateViews s c.
Proof.
  set (c1 := UpdateViews s c).
  assert (exists t, c1 = with_view (setCurrentText t (filled (ListAvailableViews
                                                          (color_manager_ c) s))) c)
    as [t Hc1].
  { unfold c1, UpdateViews. destruct (contains _ _); eauto. }
  rewrite Hc1 at 1. unfold UpdateViews at 1.
  cbn [color_manager_ view_combobox_ with_view].
  change (fold_left (fun cb s0 => addItem_text s0 cb)
            (ListAvailableViews (color_manager_ c) s)
            (clear (setCurrentText t (filled (ListAvailableViews (color_manager_ c) s)))))
    with (filled (ListAvailableViews (color_manager_ c) s)).
  pose proof (refill_again (ListAvailableViews (color_manager_ c) s) t
                (GetDefaultView (color_manager_ c) s)) as Hre.
  cbv zeta in Hre.
  destruct (contains _ _); rewrite Hc1; unfold with_view; cbn; rewrite Hre; reflexivity.
Qed.

(** X22.  What the constructor leaves in the four boxes: the input box
    exists exactly when the input field is enabled and lists the manager's
    input spaces; the display, view and look boxes list the manager's
    displays, the views of the display shown and the looks.  The input
    shown is the default input space when that is not empty and listed, the
    display shown is the default display when it is listed, the view shown
    is the default view of the display shown when it is listed (unless the
    empty string is itself a listed view, which is then shown); in every
    other case, and for the look, the box shows its first entry, or the
    empty string when it has none. *)
Theorem ColorSpaceChooser_new_boxes (cm : ColorManager) (enable_input_field : bool) :
  let c := ColorSpaceChooser_new cm enable_input_field in
  let inputs := ListAvailableInputColorspaces cm in
  let views := ListAvailableViews cm (display c) in
  color_manager_ c = cm /\
  itemTexts <$> input_combobox_ c = (if enable_input_field then Some inputs else None) /\
  itemTexts (display_combobox_ c) = ListAvailableDisplays cm /\
  itemTexts (view_combobox_ c) = views /\
  itemTexts (look_combobox_ c) = ListAvailableLooks cm /\
  chooser_input c
  = (if enable_input_field
     then if negb (String.eqb (GetDefaultInputColorSpace cm) "")
             && contains inputs (GetDefaultInputColorSpace cm)
          then GetDefaultInputColorSpace cm
          else hd ""%string inputs
     else ""%string) /\
  display c
  = (if contains (ListAvailableDisplays cm) (GetDefaultDisplay cm)
     then GetDefaultDisplay cm
     else hd ""%string (ListAvailableDisplays cm)) /\
  view c
  = (if contains views ""
     then ""%string
     else if contains views (GetDefaultView cm (display c))
          then GetDefaultView cm (display c)
          else hd ""%string views) /\
  look c = hd ""%string (ListAvailableLooks cm).
Proof.
  intros c inputs views.
  set (dbox := setCurrentText (GetDefaultDisplay cm) (filled (ListAvailableDisplays cm))).
  set (ibox := if enable_input_field
               then Some (if negb (String.eqb (GetDefaultInputColorSpace cm) "")
                          then setCurrentText (GetDefaultInputColorSpace cm) (filled inputs)
                          else filled inputs)
               else None).
  set (vs := ListAvailableViews cm (currentText dbox)).
  assert (c = mkColorSpaceChooser cm ibox dbox
                (if contains vs ""
                 then setCurrentText "" (filled vs)
                 else setCurrentText (GetDefaultView cm (currentText dbox)) (filled vs))
                (filled (ListAvailableLooks cm))) as Hc.
  { unfold c, ColorSpaceChooser_new.
    destruct (UpdateViews_fields (currentText dbox)
                (mkColorSpaceChooser cm ibox dbox QComboBox_new QComboBox_new))
      as (H1 & H2 & H3 & H4 & H5).
    cbn [display_combobox_].
    change (fold_left (fun cb s => addItem_text s cb) (ListAvailableDisplays cm)
              QComboBox_new) with (filled (ListAvailableDisplays cm)).
    change (fold_left (fun cb s => addItem_text s cb) (ListAvailableInputColorspaces cm)
              QComboBox_new) with (filled inputs).
    change (fold_left (fun cb s => addItem_text s cb) (ListAvailableLooks cm)
              QComboBox_new) with (filled (ListAvailableLooks cm)).
    fold dbox. fold ibox. rewrite H1, H2, H3, H5. f_equal. }
  assert (views = vs) as Hviews by (unfold views; rewrite Hc; reflexivity).
  assert (display c = currentText dbox) as Hdisp by (rewrite Hc; reflexivity).
  rewrite Hviews, Hdisp. clearbody c views. subst c views.
  cbn [color_manager_ input_combobox_ display_combobox_ view_combobox_ look_combobox_].
  destruct (select_in_filled (ListAvailableDisplays cm) (GetDefaultDisplay cm)) as [Hdi Hdc].
  fold dbox in Hdi, Hdc.
  split; [reflexivity|]. split; [|split; [exact Hdi|split; [|split; [|split; [|split;
    [exact Hdc|split]]]]]].
  - unfold ibox. destruct enable_input_field; [|reflexivity].
    cbn [fmap option_fmap option_map]. f_equal.
    destruct (negb _); [apply select_in_filled|rewrite filled_eq; reflexivity].
  - destruct (contains vs ""); apply select_in_filled.
  - rewrite filled_eq. reflexivity.
  - unfold chooser_input, ibox. cbn [input_combobox_].
    destruct enable_input_field; [|reflexivity].
    destruct (negb _); cbn [andb].
    + apply select_in_filled.
    + apply currentText_filled.
  - unfold view. cbn [view_combobox_]. destruct (contains vs "") eqn:Hcont.
    + rewrite (proj2 (select_in_filled vs "")), Hcont. reflexivity.
    + apply select_in_filled.
  - unfold look. cbn [look_combobox_]. apply currentText_filled.
Qed.

(** X23.  [set_input] on a chooser with an input box: the call returns; it
    never changes the entries of the input box or the display, view and
    look boxes; when the text is an entry of the input box it becomes the
    input shown, and otherwise the chooser stays as it was and no signal is
    emitted. *)
Theorem set_input_selects (s : string) (c : ColorSpaceChooser) (cb : QComboBox) :
  input_combobox_ c = Some cb ->
  exists c' sigs,
    set_input s c = Some (c', sigs) /\
    itemTexts <$> input_combobox_ c' = Some (itemTexts cb) /\
    display_combobox_ c' = display_combobox_ c /\
    view_combobox_ c' = view_combobox_ c /\
    look_combobox_ c' = look_combobox_ c /\
    color_manager_ c' = color_manager_ c /\
    (In s (itemTexts cb) -> chooser_input c' = s) /\
    (~ In s (itemTexts cb) -> c' = c /\ sigs = []).
Proof.
  intros Hcb. unfold set_input. rewrite Hcb. cbn [mbind option_bind].
  eexists _, _. split; [reflexivity|].
  cbn [input_combobox_ with_input display_combobox_ view_combobox_ look_combobox_
       color_manager_ fmap option_fmap option_map].
  split; [|do 4 (split; [reflexivity|]); split].
  - f_equal. destruct (in_dec String.string_dec s (itemTexts cb)) as [Hin|Hnin].
    + apply setCurrentText_In, Hin.
    + rewrite setCurrentText_not_In by exact Hnin. reflexivity.
  - intros Hin. unfold chooser_input. cbn [input_combobox_ with_input].
    apply setCurrentText_In, Hin.
  - intros Hnin. rewrite (setCurrentText_not_In s cb Hnin). rewrite String.eqb_refl.
    split; [|reflexivity]. destruct c; cbn in Hcb. subst. reflexivity.
Qed.

Lemma set_input_selects_witness :
  exists c' sigs,
    set_input "Rec.709" ExampleColor.with_input_field = Some (c', sigs) /\
    itemTexts <$> input_combobox_ c' = Some ["Linear"; "sRGB"; "Rec.709"]%string /\
    display_combobox_ c' = display_combobox_ ExampleColor.with_input_field /\
    view_combobox_ c' = view_combobox_ ExampleColor.with_input_field /\
    look_combobox_ c' = look_combobox_ ExampleColor.with_input_field /\
    color_manager_ c' = color_manager_ ExampleColor.with_input_field /\
    (In "Rec.709"%string ["Linear"; "sRGB"; "Rec.709"]%string ->
     chooser_input c' = "Rec.709"%string) /\
    (~ In "Rec.709"%string ["Linear"; "sRGB"; "Rec.709"]%string ->
     c' = ExampleColor.with_input_field /\ sigs = []).
Proof.
  apply (set_input_selects "Rec.709" ExampleColor.with_input_field
           (mkComboBox ["Linear"; "sRGB"; "Rec.709"]%string 1)).
  reflexivity.
Defined.
